(** * Swap pricing and settlement reconciliation of the uswap front end

    A shallow embedding of [js/utils.js] (numeric helpers) and of the
    [SwapManager] module of [js/config.js] (fee curve, quote, swap history,
    reconciliation, submission).

    JavaScript numbers are IEEE 754 binary64 values; they are embedded as
    Rocq's primitive [float], so every arithmetic step below rounds exactly
    as it does in the browser. *)

From Stdlib Require Import ZArith List String Ascii Bool Lia.
From Stdlib Require Import Floats DecimalString.
From Stdlib Require Uint63.
Import ListNotations.

Set Warnings "-inexact-float".

Local Open Scope Z_scope.

(** ** The JavaScript built-ins the program calls *)

Module JS.

(** The values that the quote is computed from: the text of an [<input>]
    element, numbers, [null] and [undefined].  The values of every type are
    [any], below. *)
Inductive value :=
| Undefined
| Null
| Num (x : float)
| Str (s : string).

(** [typeof v === 'number'] *)
Definition is_number (v : value) : bool :=
  match v with Num _ => true | _ => false end.

(** The integer [z] as the nearest binary64 value (exact when |z| <= 2^53). *)
Definition of_Z (z : Z) : float := SF2Prim (binary_normalize prec emax z 0 false).

(** The exact integer value of [m * 2^e * (-1)^s], scaled. *)
Definition signed (s : bool) (m : positive) : Z := cond_Zopp s (Zpos m).

(** [Math.floor]: the largest integer not above [x]; NaN, the infinities,
    the zeros and integral values are returned unchanged. *)
Definition Math_floor (x : float) : float :=
  match Prim2SF x with
  | S754_finite s m e =>
      if 0 <=? e then x else of_Z (Z.shiftr (signed s m) (- e))
  | _ => x
  end.

(** [Math.round]: the integer nearest to [x], ties towards +Infinity; a result
    of zero keeps the sign of [x]. *)
Definition Math_round (x : float) : float :=
  match Prim2SF x with
  | S754_finite s m e =>
      if 0 <=? e then x
      else
        let q := Z.shiftr (2 * signed s m + 2 ^ (- e)) (- e + 1) in
        if q =? 0 then (if s then neg_zero else zero) else of_Z q
  | _ => x
  end.

(** [Math.max] of two numbers: NaN when either is NaN, and +0 above -0. *)
Definition Math_max (a b : float) : float :=
  if is_nan a || is_nan b then nan
  else if (a <? b)%float then b
  else if (b <? a)%float then a
  else if get_sign a then b else a.

Definition Math_abs (x : float) : float := abs x.

(** [Math.pow(10, d)] for a count of decimal places [d], as the nearest
    binary64 value of [10^d].  The program calls it with 3, 4, 6 and 8, where
    [10^d] is a binary64 value and every engine returns it; it is exact up
    to [d = 22], and beyond that an engine may be one unit in the last place
    away from the nearest value. *)
Definition Math_pow10 (d : nat) : float := of_Z (10 ^ Z.of_nat d).

(** The global [isNaN] and [isFinite] on a number. *)
Definition isNaN (x : float) : bool := is_nan x.
Definition isFinite (x : float) : bool := is_finite x.

(** *** Decimal text to number *)

(** The binary64 value nearest to [(-1)^neg * M * 10^E] (ties to even), as
    the conversion of a decimal literal yields it.  The two guards only cut
    off exponents whose result is already known to be an infinity or a
    zero. *)
Definition of_decimal (neg : bool) (M E : Z) : float :=
  if M <=? 0 then (if neg then neg_zero else zero)
  else if 0 <=? E then
    if 1024 <=? Z.log2 M + 3 * E then (if neg then neg_infinity else infinity)
    else SF2Prim (binary_normalize prec emax (cond_Zopp neg (M * 10 ^ E)) 0 false)
  else
    if Z.log2 M + 1 + 3 * E <=? -1076 then (if neg then neg_zero else zero)
    else
      let '(q, e, l) := SFdiv_core_binary prec emax M 0 (10 ^ (- E)) 0 in
      SF2Prim (binary_round_aux prec emax neg q e l).

(** Code units are modelled in the Latin-1 range. *)
Definition is_digit (c : ascii) : bool :=
  let n := nat_of_ascii c in (48 <=? n)%nat && (n <=? 57)%nat.

Definition digit_val (c : ascii) : Z := Z.of_nat (nat_of_ascii c) - 48.

(** White space and line terminators ([\s] of a regular expression,
    [StrWhiteSpaceChar] of [parseFloat]). *)
Definition is_space (c : ascii) : bool :=
  let n := nat_of_ascii c in
  ((9 <=? n)%nat && (n <=? 13)%nat) || (n =? 32)%nat || (n =? 160)%nat.

Fixpoint skip_spaces (l : list ascii) : list ascii :=
  match l with
  | c :: r => if is_space c then skip_spaces r else l
  | [] => []
  end.

(** The longest run of decimal digits at the head of [l]: its value after
    [acc], how many there are, and what follows. *)
Fixpoint scan_digits (acc : Z) (n : nat) (l : list ascii) : Z * nat * list ascii :=
  match l with
  | c :: r => if is_digit c then scan_digits (10 * acc + digit_val c) (S n) r
              else (acc, n, l)
  | [] => (acc, n, [])
  end.

Fixpoint starts_with (p l : list ascii) : bool :=
  match p, l with
  | [], _ => true
  | a :: p', b :: l' => Ascii.eqb a b && starts_with p' l'
  | _ :: _, [] => false
  end.

(** An [ExponentPart] at the head of [l], when there is a complete one. *)
Definition scan_exponent (l : list ascii) : Z :=
  match l with
  | c :: r =>
      if Ascii.eqb c "e" || Ascii.eqb c "E" then
        let '(neg, r') :=
          match r with
          | s :: r'' =>
              if Ascii.eqb s "-" then (true, r'')
              else if Ascii.eqb s "+" then (false, r'')
              else (false, r)
          | [] => (false, r)
          end in
        let '(v, n, _) := scan_digits 0 0 r' in
        match n with O => 0 | _ => cond_Zopp neg v end
      else 0
  | [] => 0
  end.

(** [parseFloat]: leading white space is skipped, then the longest prefix
    that is a [StrDecimalLiteral] is converted; NaN when there is none. *)
Definition parseFloat (s : string) : float :=
  let l := skip_spaces (list_ascii_of_string s) in
  let '(neg, l) :=
    match l with
    | c :: r =>
        if Ascii.eqb c "-" then (true, r)
        else if Ascii.eqb c "+" then (false, r)
        else (false, l)
    | [] => (false, l)
    end in
  if starts_with (list_ascii_of_string "Infinity") l then
    (if neg then neg_infinity else infinity)
  else
    let '(ip, ni, l1) := scan_digits 0 0 l in
    let '(m, nf, l2) :=
      match l1 with
      | c :: r =>
          if Ascii.eqb c "." then
            let '(m, nf, r') := scan_digits ip 0 r in
            match ni, nf with
            | O, O => (ip, O, l1)
            | _, _ => (m, nf, r')
            end
          else (ip, O, l1)
      | [] => (ip, O, l1)
      end in
    match ni, nf with
    | O, O => nan
    | _, _ => of_decimal neg m (scan_exponent l2 - Z.of_nat nf)
    end.

(** *** Number to decimal text *)

Definition digits_of (n : Z) : string :=
  NilZero.string_of_uint (N.to_uint (Z.to_N n)).

Fixpoint zeros (n : nat) : string :=
  match n with O => EmptyString | S k => String "0" (zeros k) end.

(** The decimal digits of [n] with a point before the last [f] of them. *)
Definition place_point (n : Z) (f : nat) : string :=
  let m := digits_of n in
  match f with
  | O => m
  | _ =>
      let m := (zeros (S f - String.length m) ++ m)%string in
      let k := String.length m in
      (substring 0 (k - f) m ++ "." ++ substring (k - f) f m)%string
  end.

Fixpoint strip_zeros (l : list ascii) : list ascii :=
  match l with
  | c :: r => if Ascii.eqb c "0" then strip_zeros r else l
  | [] => []
  end.

(** The digits and decimal exponent of the shortest decimal that converts
    back to the integral value [X] of [x], searched with at most [k]
    further significant digits after the first [j]. *)
Fixpoint shortest (x : float) (X : Z) (nd : nat) (j k : nat) : Z :=
  match k with
  | O => X
  | S k' =>
      let u := 10 ^ Z.of_nat (nd - j) in
      let lo := (X / u) * u in
      let hi := lo + u in
      let oklo := (0 <? lo) && Leibniz.eqb (of_Z lo) x in
      let okhi := Leibniz.eqb (of_Z hi) x in
      match oklo, okhi with
      | true, true =>
          if X - lo <? hi - X then lo
          else if hi - X <? X - lo then hi
          else if Z.even (lo / u) then lo else hi
      | true, false => lo
      | false, true => hi
      | false, false => shortest x X nd (S j) k'
      end
  end.

(** [Number::toString] for a finite [x >= 10^21] of integral value [X]. *)
Definition to_exponential (x : float) (X : Z) : string :=
  let nd := String.length (digits_of X) in
  let c := shortest x X nd 1 17 in
  let n := String.length (digits_of c) in
  let ds := rev (strip_zeros (rev (list_ascii_of_string (digits_of c)))) in
  let e := digits_of (Z.of_nat n - 1) in
  match ds with
  | [] => "0"%string
  | [d] => (String d "e+" ++ e)%string
  | d :: r => (String d "." ++ string_of_list_ascii r ++ "e+" ++ e)%string
  end.

(** [x.toFixed(f)] for [0 <= f <= 100]. *)
Definition toFixed (x : float) (f : nat) : string :=
  match Prim2SF x with
  | S754_nan => "NaN"
  | S754_infinity s => if s then "-Infinity" else "Infinity"
  | S754_zero _ => place_point 0 f
  | S754_finite s m e =>
      let sign := if s then "-"%string else EmptyString in
      let p := 10 ^ Z.of_nat f in
      let body :=
        if 0 <=? e then
          let X := Zpos m * 2 ^ e in
          if 10 ^ 21 <=? X then to_exponential (abs x) X
          else place_point (X * p) f
        else place_point (Z.shiftr (2 * Zpos m * p + 2 ^ (- e)) (- e + 1)) f in
      (sign ++ body)%string
  end.

(** *** Strings *)

Fixpoint includes_list (l p : list ascii) : bool :=
  starts_with p l ||
  match l with
  | _ :: r => includes_list r p
  | [] => false
  end.

(** [s.includes(p)] *)
Definition includes (s p : string) : bool :=
  includes_list (list_ascii_of_string s) (list_ascii_of_string p).

(** The longest run of characters of the class [[\d.]] at the head of [l]. *)
Fixpoint scan_number_chars (l : list ascii) : list ascii :=
  match l with
  | c :: r => if is_digit c || Ascii.eqb c "." then c :: scan_number_chars r else []
  | [] => []
  end.

(** One attempt of [label\s*:\s*([\d.]+)] at the head of [l]. *)
Definition match_labelled_here (label l : list ascii) : option string :=
  if starts_with label l then
    match skip_spaces (skipn (List.length label) l) with
    | c :: r =>
        if Ascii.eqb c ":" then
          match scan_number_chars (skip_spaces r) with
          | [] => None
          | ds => Some (string_of_list_ascii ds)
          end
        else None
    | [] => None
    end
  else None.

Fixpoint match_labelled_list (label l : list ascii) : option string :=
  match match_labelled_here label l with
  | Some g => Some g
  | None =>
      match l with
      | _ :: r => match_labelled_list label r
      | [] => None
      end
  end.

(** [s.match(/label\s*:\s*([\d.]+)/)]: the first capture group of the
    leftmost match, or [None] for [null]. *)
Definition match_labelled (label s : string) : option string :=
  match_labelled_list (list_ascii_of_string label) (list_ascii_of_string s).

(** *** Values of every type

    A function of the program can be handed any value.  What the numeric
    helpers observe of one is its type, whether it is [null], [undefined],
    [''] or [0], and what the conversions of the language make of it. *)

Inductive prim :=
| PUndefined
| PNull
| PBool (b : bool)
| PNum (x : float)
| PStr (s : string)
| PBigInt (z : Z)
| PSymbol.

(** A primitive, or an object (an array, a function, a plain object) given
    by what [ToPrimitive] makes of it; [None] when its [valueOf] and
    [toString] throw or return objects.  The array [[0.5]] is
    [Object (Some (PStr "0.5"))], an empty array [Object (Some (PStr ""))]
    and [{}] is [Object (Some (PStr "[object Object]"))]. *)
Inductive any :=
| Prim (p : prim)
| Object (toPrimitive : option prim).

Definition of_value (v : value) : any :=
  match v with
  | Undefined => Prim PUndefined
  | Null => Prim PNull
  | Num x => Prim (PNum x)
  | Str s => Prim (PStr s)
  end.

(** An evaluation returns a value or throws. *)
Inductive outcome (A : Type) :=
| Returns (a : A)
| Throws.

Arguments Returns {A} a.
Arguments Throws {A}.

Definition and_then {A B} (m : outcome A) (k : A -> outcome B) : outcome B :=
  match m with
  | Returns a => k a
  | Throws => Throws
  end.

(** The digit of [c] in a radix of at most 16. *)
Definition radix_digit (radix : Z) (c : ascii) : option Z :=
  let n := Z.of_nat (nat_of_ascii c) in
  let d :=
    if (48 <=? n) && (n <=? 57) then n - 48
    else if (97 <=? n) && (n <=? 102) then n - 87
    else if (65 <=? n) && (n <=? 70) then n - 55
    else radix in
  if d <? radix then Some d else None.

(** The value of [l] read as digits of [radix] after [acc]; [None] when a
    character of [l] is no such digit. *)
Fixpoint scan_radix (radix acc : Z) (l : list ascii) : option Z :=
  match l with
  | [] => Some acc
  | c :: r =>
      match radix_digit radix c with
      | Some d => scan_radix radix (radix * acc + d) r
      | None => None
      end
  end.

(** A [NonDecimalIntegerLiteral]: [0x], [0o] or [0b] and at least one digit. *)
Definition non_decimal (l : list ascii) : option Z :=
  match l with
  | z :: p :: (_ :: _) as ds =>
      if Ascii.eqb z "0" then
        if Ascii.eqb p "x" || Ascii.eqb p "X" then scan_radix 16 0 ds
        else if Ascii.eqb p "o" || Ascii.eqb p "O" then scan_radix 8 0 ds
        else if Ascii.eqb p "b" || Ascii.eqb p "B" then scan_radix 2 0 ds
        else None
      else None
  | _ => None
  end.

(** What follows a complete [ExponentPart] at the head of [l]; [l] itself
    when there is none. *)
Definition after_exponent (l : list ascii) : list ascii :=
  match l with
  | c :: r =>
      if Ascii.eqb c "e" || Ascii.eqb c "E" then
        let r' :=
          match r with
          | s :: r'' => if Ascii.eqb s "-" || Ascii.eqb s "+" then r'' else r
          | [] => r
          end in
        let '(_, n, rest) := scan_digits 0 0 r' in
        match n with O => l | _ => rest end
      else l
  | [] => []
  end.

(** What follows the longest [StrDecimalLiteral] at the head of [l]; [None]
    when none starts there. *)
Definition after_decimal (l : list ascii) : option (list ascii) :=
  let l :=
    match l with
    | c :: r => if Ascii.eqb c "-" || Ascii.eqb c "+" then r else l
    | [] => l
    end in
  if starts_with (list_ascii_of_string "Infinity") l then Some (skipn 8 l)
  else
    let '(_, ni, l1) := scan_digits 0 0 l in
    let '(nf, l2) :=
      match l1 with
      | c :: r =>
          if Ascii.eqb c "." then
            let '(_, nf, r') := scan_digits 0 0 r in
            match ni, nf with
            | O, O => (O, l1)
            | _, _ => (nf, r')
            end
          else (O, l1)
      | [] => (O, l1)
      end in
    match ni, nf with
    | O, O => None
    | _, _ => Some (after_exponent l2)
    end.

(** [StringToNumber]: the whole text, white space at both ends apart, must
    be a numeric literal; the empty text is 0. *)
Definition StringToNumber (s : string) : float :=
  let l := rev (skip_spaces (rev (skip_spaces (list_ascii_of_string s)))) in
  match l with
  | [] => zero
  | _ =>
      match non_decimal l with
      | Some z => of_Z z
      | None =>
          match after_decimal l with
          | Some [] => parseFloat (string_of_list_ascii l)
          | _ => nan
          end
      end
  end.

Definition ToPrimitive (v : any) : outcome prim :=
  match v with
  | Prim p => Returns p
  | Object (Some p) => Returns p
  | Object None => Throws
  end.

(** [ToNumber] of a primitive: a [TypeError] for a BigInt and for a Symbol. *)
Definition ToNumber_prim (p : prim) : outcome float :=
  match p with
  | PUndefined => Returns nan
  | PNull => Returns zero
  | PBool b => Returns (if b then one else zero)
  | PNum x => Returns x
  | PStr s => Returns (StringToNumber s)
  | PBigInt _ => Throws
  | PSymbol => Throws
  end.

Definition ToNumber (v : any) : outcome float :=
  and_then (ToPrimitive v) ToNumber_prim.

Inductive numeric :=
| Number (x : float)
| BigInt (z : Z).

Definition ToNumeric (v : any) : outcome numeric :=
  and_then (ToPrimitive v) (fun p =>
    match p with
    | PBigInt z => Returns (BigInt z)
    | _ => and_then (ToNumber_prim p) (fun x => Returns (Number x))
    end).

Definition of_numeric (n : numeric) : any :=
  match n with
  | Number x => Prim (PNum x)
  | BigInt z => Prim (PBigInt z)
  end.

Inductive operator := Minus | Times | Divide.

(** [a - b], [a * b] and [a / b]: both operands are converted, the left one
    first; a BigInt with a Number is a [TypeError], and a BigInt divided by
    [0n] a [RangeError]. *)
Definition arithmetic (o : operator) (a b : any) : outcome any :=
  and_then (ToNumeric a) (fun x =>
  and_then (ToNumeric b) (fun y =>
    match x, y with
    | Number x, Number y =>
        Returns (Prim (PNum (match o with
                             | Minus => x - y
                             | Times => x * y
                             | Divide => x / y
                             end)%float))
    | BigInt x, BigInt y =>
        match o with
        | Minus => Returns (Prim (PBigInt (x - y)))
        | Times => Returns (Prim (PBigInt (x * y)))
        | Divide =>
            if y =? 0 then Throws else Returns (Prim (PBigInt (Z.quot x y)))
        end
    | _, _ => Throws
    end)).

(** [v > 0] *)
Definition greater_than_zero (v : any) : outcome bool :=
  and_then (ToNumeric v) (fun x =>
    match x with
    | Number x => Returns (zero <? x)%float
    | BigInt z => Returns (0 <? z)
    end).

(** A value that no conversion to a number rejects: not a BigInt, not a
    Symbol, not an object whose conversion throws or yields one of them. *)
Definition convertible (v : any) : bool :=
  match ToNumber v with
  | Returns _ => true
  | Throws => false
  end.

End JS.

Local Open Scope float_scope.

(** ** js/utils.js: number precision and validation *)

Module Utils.
Import JS.

(** [roundTo(value, decimals = 3)] *)
Definition roundTo (value : JS.value) (decimals : nat) : float :=
  match value with
  | Num v =>
      if isNaN v then 0
      else
        let multiplier := Math_pow10 decimals in
        Math_round (v * multiplier) / multiplier
  | _ => 0
  end.

(** [floorTo(value, decimals = 3)] *)
Definition floorTo (value : JS.value) (decimals : nat) : float :=
  match value with
  | Num v =>
      if isNaN v then 0
      else
        let multiplier := Math_pow10 decimals in
        Math_floor (v * multiplier) / multiplier
  | _ => 0
  end.

Definition safeSubtract (a b : float) : float := roundTo (Num (a - b)) 8.

Definition safeMultiply (a b : float) : float := roundTo (Num (a * b)) 8.

(** [b === 0] holds for both zeros. *)
Definition safeDivide (a b : float) : float :=
  if b =? 0 then 0 else roundTo (Num (a / b)) 8.

(** [parseNumber(value, defaultValue = 0)] *)
Definition parseNumber (value : JS.value) (defaultValue : float) : float :=
  match value with
  | Null | Undefined => defaultValue
  | Str s =>
      if String.eqb s "" then defaultValue
      else
        let num := parseFloat s in
        if isNaN num then defaultValue else num
  | Num num => if isNaN num then defaultValue else num
  end.

Definition isPositiveNumber (value : JS.value) : bool :=
  let num := parseNumber value 0 in
  (0 <? num) && isFinite num.

(** The messages [validateSwapAmount] can report; the second one carries the
    minimum it prints. *)
Inductive AmountError :=
| AmountNotPositive
| BelowMinimum (minAmount : float)
| InsufficientBalance.

Record Validation := {
  valid : bool;
  errors : list AmountError;
  amount : float
}.

(** [validateSwapAmount(amount, balance, minAmount = 0.001)] *)
Definition validateSwapAmount (amount : JS.value) (balance minAmount : float)
  : Validation :=
  let num := parseNumber amount 0 in
  let errors :=
    (if negb (isPositiveNumber (Num num)) then [AmountNotPositive] else []) ++
    (if num <? minAmount then [BelowMinimum minAmount] else []) ++
    (if balance <? num then [InsufficientBalance] else []) in
  {| valid := match errors with [] => true | _ => false end;
     errors := errors;
     amount := num |}.

(** *** The helpers on values of every type

    The definitions above are the helpers on the values the quote is computed
    from.  These are the same functions on any argument, with what they throw. *)

Module Dyn.

(** A parameter with a default: the default stands in for [undefined]. *)
Definition or_default (v d : any) : any :=
  match v with
  | Prim PUndefined => d
  | _ => v
  end.

(** [value === ''] *)
Definition is_empty_string (v : any) : bool :=
  match v with
  | Prim (PStr s) => String.eqb s ""
  | _ => false
  end.

(** [parseNumber(value, defaultValue = 0)]: a value that is no string is
    returned as it is when [isNaN] does not reject it. *)
Definition parseNumber (value defaultValue : any) : outcome any :=
  let defaultValue := or_default defaultValue (Prim (PNum 0)) in
  match value with
  | Prim PNull | Prim PUndefined => Returns defaultValue
  | Prim (PStr s) =>
      if String.eqb s "" then Returns defaultValue
      else
        let num := parseFloat s in
        if isNaN num then Returns defaultValue else Returns (Prim (PNum num))
  | num =>
      and_then (ToNumber num) (fun n =>
        if isNaN n then Returns defaultValue else Returns num)
  end.

(** [isPositiveNumber(value)], that is [num > 0 && isFinite(num)]. *)
Definition isPositiveNumber (value : any) : outcome bool :=
  and_then (parseNumber value (Prim PUndefined)) (fun num =>
  and_then (greater_than_zero num) (fun positive =>
    if positive then and_then (ToNumber num) (fun n => Returns (isFinite n))
    else Returns false)).

Section Precision.

(** [Math.pow(10, x)] of the engine, for any number [x]. *)
Variable pow10 : float -> float.

Definition roundTo (value decimals : any) : outcome float :=
  match value with
  | Prim (PNum v) =>
      if isNaN v then Returns 0
      else
        and_then (ToNumber (or_default decimals (Prim (PNum 3)))) (fun d =>
          let multiplier := pow10 d in
          Returns (Math_round (v * multiplier) / multiplier))
  | _ => Returns 0
  end.

Definition floorTo (value decimals : any) : outcome float :=
  match value with
  | Prim (PNum v) =>
      if isNaN v then Returns 0
      else
        and_then (ToNumber (or_default decimals (Prim (PNum 3)))) (fun d =>
          let multiplier := pow10 d in
          Returns (Math_floor (v * multiplier) / multiplier))
  | _ => Returns 0
  end.

Definition safeSubtract (a b : any) : outcome float :=
  and_then (arithmetic Minus a b) (fun r => roundTo r (Prim (PNum 8))).

Definition safeMultiply (a b : any) : outcome float :=
  and_then (arithmetic Times a b) (fun r => roundTo r (Prim (PNum 8))).

(** [b === 0] holds for the two zeros of type number and for nothing else. *)
Definition safeDivide (a b : any) : outcome float :=
  match b with
  | Prim (PNum z) =>
      if z =? 0 then Returns 0
      else and_then (arithmetic Divide a b) (fun r => roundTo r (Prim (PNum 8)))
  | _ => and_then (arithmetic Divide a b) (fun r => roundTo r (Prim (PNum 8)))
  end.

End Precision.

End Dyn.

End Utils.

(** ** js/config.js: configuration *)

Record Config := {
  DECIMAL : float;
  HIVEPOOL : float;
  SHIVEPOOL : float;
  BRIDGE_USER : string;
  MINIMUM_SWAP : float
}.

(** The fee curve, refreshed from the fee server at start-up. *)
Record FeeConfig := {
  BASE_FEE : float;
  MIN_BASE_FEE : float;
  DIFF_COEFFICIENT : float;
  BASE_PRICE_HIVE_TO_SHIVE : float
}.

Definition CONFIG : Config := {|
  DECIMAL := 1000;
  HIVEPOOL := 24900;
  SHIVEPOOL := 24900;
  BRIDGE_USER := "uswap";
  MINIMUM_SWAP := 1
|}.


Definition defaultFeeConfig : FeeConfig := {|
  BASE_FEE := 0.002;
  MIN_BASE_FEE := 0.00075;
  DIFF_COEFFICIENT := 0.00575;
  BASE_PRICE_HIVE_TO_SHIVE := 1.00
|}.

(** ** js/config.js: the swap module *)

Module SwapManager.
Import JS.

(** [currentSwap], the live quote. *)
Record Swap := {
  from : string;
  to : string;
  amount : float;
  expected : float;
  fee : float;
  feePercent : float;
  slippage : float;
  minReceive : float
}.

Definition initialSwap : Swap := {|
  from := "HIVE";
  to := "SWAP.HIVE";
  amount := 0;
  expected := 0;
  fee := 0;
  feePercent := 0;
  slippage := 0.01;
  minReceive := 0
|}.

(** What [calculateFee] returns; [expectedOutput] is absent from the object
    returned for an amount that is not positive. *)
Record FeeResult := {
  feeAmount : float;
  feePercent_ : float;
  expectedOutput : option float
}.

Section Pricing.

Variable cfg : Config.
Variable feeConfig : FeeConfig.

(** The pool difference ratio of [calculateFee]. *)
Definition pool_diff (amount : float) (fromToken : string) : float :=
  let fromPool := if String.eqb fromToken "HIVE" then HIVEPOOL cfg else SHIVEPOOL cfg in
  let totalPool := HIVEPOOL cfg + SHIVEPOOL cfg in
  ((amount * 0.5 + fromPool) / totalPool) - 0.5.

(** The adjusted base fee of [calculateFee] for a pool difference ratio. *)
Definition adjusted_base_fee (diff : float) : float :=
  Math_max (BASE_FEE feeConfig * (1 - 2 * Math_abs diff)) (MIN_BASE_FEE feeConfig).

(** The price of [calculateFee] with the pool imbalance adjustment. *)
Definition price (diff : float) (fromToken : string) : float :=
  if String.eqb fromToken "HIVE" then
    BASE_PRICE_HIVE_TO_SHIVE feeConfig - (2 * diff * DIFF_COEFFICIENT feeConfig)
  else
    (1 / BASE_PRICE_HIVE_TO_SHIVE feeConfig) - (2 * diff * DIFF_COEFFICIENT feeConfig).

Definition calculateFee (amount : float) (fromToken toToken : string) : FeeResult :=
  if negb (Utils.isPositiveNumber (Num amount)) then
    {| feeAmount := 0; feePercent_ := 0; expectedOutput := None |}
  else
    let diff := pool_diff amount fromToken in
    let adjusted_base_fee := adjusted_base_fee diff in
    let price := price diff fromToken in
    let expectedOutput := (amount * price) * (1 - adjusted_base_fee) in
    let feeAmount := amount * adjusted_base_fee in
    let feePercent := adjusted_base_fee * 100 in
    {| feeAmount := Utils.roundTo (Num feeAmount) 8;
       feePercent_ := Utils.roundTo (Num feePercent) 4;
       expectedOutput := Some (Utils.roundTo (Num expectedOutput) 8) |}.

(** What [calculateExpectedOutput] returns. *)
Record Output := {
  out_expected : float;
  out_fee : float;
  out_feePercent : float
}.

Definition calculateExpectedOutput (inputAmount : float) (fromToken toToken : string)
  : Output :=
  if negb (Utils.isPositiveNumber (Num inputAmount)) then
    {| out_expected := 0; out_fee := 0; out_feePercent := 0 |}
  else
    let result := calculateFee inputAmount fromToken toToken in
    let expectedOutput :=
      match expectedOutput result with Some x => x | None => nan end in
    {| out_expected := Math_floor (expectedOutput * DECIMAL cfg) / DECIMAL cfg;
       out_fee := feeAmount result;
       out_feePercent := feePercent_ result |}.

(** [updateSwapCalculation]: the new [currentSwap].  The display refresh and
    the button validation that follow read it and write nothing to it. *)
Definition updateSwapCalculation (amount : JS.value) (fromToken toToken : string)
    (slippage : JS.value) : Swap :=
  let amount := Utils.parseNumber amount 0 in
  let slippage := Utils.parseNumber slippage 0.01 in
  let result := calculateExpectedOutput amount fromToken toToken in
  let slippageFactor := 1 - (slippage / 100) in
  {| from := fromToken;
     to := toToken;
     amount := amount;
     expected := out_expected result;
     fee := out_fee result;
     feePercent := out_feePercent result;
     slippage := slippage;
     minReceive :=
       Utils.roundTo
         (Num (Utils.safeMultiply (out_expected result) slippageFactor)) 3 |}.

End Pricing.

(** *** The persisted swap history *)

(** One entry of the [swapHistory] array of the local storage.  Times are
    the integral milliseconds of [Date.now()]; [None] is [null] (or an
    absent property). *)
Record SwapRecord := {
  timestamp : Z;
  txIdSent : string;
  amountSent : string;
  fromToken : string;
  toToken : string;
  username : string;
  status : string;
  txIdReceived : option string;
  amountReceived : option string;
  swappedQty : option string;
  swappedPrice : option string
}.

Definition owned_by (username : string) (h : SwapRecord) : bool :=
  String.eqb h.(SwapManager.username) username.

(** The record that [addSwapToHistory] creates, [now] being the clock. *)
Definition swapRecord (now : Z) (txId : string) (amount : float)
    (fromToken username : string) : SwapRecord := {|
  timestamp := now;
  txIdSent := txId;
  amountSent := (toFixed amount 3 ++ " " ++ fromToken)%string;
  fromToken := fromToken;
  toToken := if String.eqb fromToken "HIVE" then "SWAP.HIVE"%string else "HIVE"%string;
  username := username;
  status := "pending";
  txIdReceived := None;
  amountReceived := None;
  swappedQty := None;
  swappedPrice := None
|}.

(** [addSwapToHistory(txId, amount, fromToken, username)]: the array written
    back to the store, from the array read and the clock reading [now].  The
    function reads and writes without awaiting.  Its last statement starts a
    pass of [loadSwapHistory] that nothing awaits: that is the event
    [AddSwapToHistory] of the store, below. *)
Definition addSwapToHistory (now : Z) (history : list SwapRecord)
    (txId : string) (amount : float) (fromToken username : string)
  : list SwapRecord :=
  let swapRecord := swapRecord now txId amount fromToken username in
  let history := swapRecord :: history in
  let userHistory := firstn 10 (filter (owned_by username) history) in
  let otherHistory := filter (fun h => negb (owned_by username h)) history in
  userHistory ++ otherHistory.

(** *** The two ledgers, as the reconciliation sees them *)

(** The parsed [json] of a side-chain [custom_json] operation. *)
Record EnginePayload := {
  p_to : string;
  p_symbol : string;
  p_quantity : string;
  p_memo : string
}.

Record EngineJson := {
  contractName : string;
  contractAction : string;
  contractPayload : option EnginePayload
}.

(** An operation of the bridge account's history: [op = [type, data]].  The
    [json] of a [custom_json] is [None] when [JSON.parse] fails on it. *)
Inductive Operation :=
| Transfer (from to amount memo : string)
| CustomJson (id : string) (json : option EngineJson)
| OtherOp (type : string).

Record HistoryItem := {
  trx_id : string;
  op : option Operation
}.

(** The answers of [hive.api.getTransactionAsync] and of
    [ssc.getTransactionInfo]. *)
Inductive TxReply := TxRejected | TxNull | TxFound.
Inductive InfoReply := InfoRejected | InfoNull | InfoFound (transactionId : string).

(** The calls a reconciliation pass makes to the outside, newest first. *)
Inductive Call :=
| GetAccountHistory (account : string)
| GetTransaction (txId : string)
| GetTransactionInfo (txId : string)
| DateNow.

(** The outside world: what each call answers when it is the [n]-th one.
    [None] from the account history is a failed request; [ssc_ready] is
    whether [APIManager.getSSC()] is set. *)
Record Env := {
  getAccountHistoryAsync : nat -> option (list HistoryItem);
  getTransactionAsync : nat -> string -> TxReply;
  ssc_ready : bool;
  getTransactionInfo : nat -> string -> InfoReply;
  Date_now : nat -> Z
}.

(** Computations that call the outside: the log of calls is threaded. *)
Definition M (A : Type) : Type := list Call -> A * list Call.

Definition ret {A} (a : A) : M A := fun log => (a, log).

Definition bind {A B} (m : M A) (k : A -> M B) : M B :=
  fun log => let '(a, log') := m log in k a log'.

Notation "x <- m ;; k" := (bind m (fun x => k))
  (at level 61, m at next level, right associativity).

(** Issue call [c] and read the answer that [reply] gives at this point. *)
Definition call {A} (c : Call) (reply : nat -> A) : M A :=
  fun log => (reply (List.length log), c :: log).

(** What [checkUswapHiveTransfers] and [checkUswapEngineTransfers] return:
    [None] is [{ found: false }]. *)
Record Found := {
  f_amount : string;
  f_txId : string;
  f_swappedQty : option string;
  f_swappedPrice : option string;
  f_memo : string
}.

Section Reconciliation.

Variable cfg : Config.
Variable env : Env.

Definition is_transfer_to (username : string) (item : HistoryItem) : bool :=
  match op item with
  | Some (Transfer from to _ _) =>
      String.eqb from (BRIDGE_USER cfg) && String.eqb to username
  | _ => false
  end.

(** The loop of [checkUswapHiveTransfers] over the transfers, newest first. *)
Fixpoint scan_transfers (originalTxId : string) (items : list HistoryItem)
  : option Found :=
  match items with
  | [] => None
  | item :: rest =>
      match op item with
      | Some (Transfer _ _ amount memo) =>
          if includes memo originalTxId then
            Some {| f_amount := amount;
                    f_txId := trx_id item;
                    f_swappedQty := match_labelled "Swapped Qty" memo;
                    f_swappedPrice := match_labelled "Swapped Price" memo;
                    f_memo := memo |}
          else scan_transfers originalTxId rest
      | _ => scan_transfers originalTxId rest
      end
  end.

Definition checkUswapHiveTransfers (originalTxId username : string)
  : M (option Found) :=
  history <- call (GetAccountHistory (BRIDGE_USER cfg)) (getAccountHistoryAsync env) ;;
  match history with
  | Some history =>
      let transfersToUser := filter (is_transfer_to username) history in
      ret (scan_transfers originalTxId (rev transfersToUser))
  | None => ret None
  end.

Definition is_engine_op (item : HistoryItem) : bool :=
  match op item with
  | Some (CustomJson id _) => String.eqb id "ssc-mainnet-hive"
  | _ => false
  end.

(** The loop of [checkUswapEngineTransfers] over the custom operations,
    newest first. *)
Fixpoint scan_engine (originalTxId username : string) (items : list HistoryItem)
  : option Found :=
  match items with
  | [] => None
  | item :: rest =>
      match op item with
      | Some (CustomJson _ (Some json)) =>
          match contractPayload json with
          | Some payload =>
              if String.eqb (contractName json) "tokens"
                 && String.eqb (contractAction json) "transfer"
                 && String.eqb (p_to payload) username
                 && String.eqb (p_symbol payload) "SWAP.HIVE"
                 && includes (p_memo payload) originalTxId
              then
                let memo := p_memo payload in
                Some {| f_amount := (p_quantity payload ++ " SWAP.HIVE")%string;
                        f_txId := trx_id item;
                        f_swappedQty := match_labelled "Swapped Qty" memo;
                        f_swappedPrice := match_labelled "Swapped Price" memo;
                        f_memo := memo |}
              else scan_engine originalTxId username rest
          | None => scan_engine originalTxId username rest
          end
      | _ => scan_engine originalTxId username rest
      end
  end.

Definition checkUswapEngineTransfers (originalTxId username : string)
  : M (option Found) :=
  history <- call (GetAccountHistory (BRIDGE_USER cfg)) (getAccountHistoryAsync env) ;;
  match history with
  | Some history =>
      let customJsonOps := filter is_engine_op history in
      ret (scan_engine originalTxId username (rev customJsonOps))
  | None => ret None
  end.

(** [verifyTransactionExists(txId, fromToken)], as the truth value its
    caller tests. *)
Definition verifyTransactionExists (txId fromToken : string) : M bool :=
  if String.eqb fromToken "HIVE" then
    tx <- call (GetTransaction txId) (fun n => getTransactionAsync env n txId) ;;
    match tx with
    | TxFound => ret true
    | TxNull => ret false
    | TxRejected => ret false
    end
  else
    if negb (ssc_ready env) then ret false
    else
      engineTx <- call (GetTransactionInfo txId) (fun n => getTransactionInfo env n txId) ;;
      match engineTx with
      | InfoFound transactionId => ret (negb (String.eqb transactionId ""))
      | InfoNull => ret false
      | InfoRejected => ret false
      end.

Definition check_for (token originalTxId username : string) : M (option Found) :=
  if String.eqb token "HIVE" then checkUswapHiveTransfers originalTxId username
  else checkUswapEngineTransfers originalTxId username.

Definition is_placeholder (txIdReceived : option string) : bool :=
  match txIdReceived with
  | Some t => String.eqb t "uswap-transfer" || String.eqb t "uswap-refund"
  | None => false
  end.

Definition set_txIdReceived (swap : SwapRecord) (t : string) : SwapRecord :=
  {| timestamp := timestamp swap; txIdSent := txIdSent swap;
     amountSent := amountSent swap; fromToken := fromToken swap;
     toToken := toToken swap; username := username swap;
     status := status swap;
     txIdReceived := Some t;
     amountReceived := amountReceived swap;
     swappedQty := swappedQty swap; swappedPrice := swappedPrice swap |}.

Definition set_status (swap : SwapRecord) (st : string) : SwapRecord :=
  {| timestamp := timestamp swap; txIdSent := txIdSent swap;
     amountSent := amountSent swap; fromToken := fromToken swap;
     toToken := toToken swap; username := username swap;
     status := st;
     txIdReceived := txIdReceived swap;
     amountReceived := amountReceived swap;
     swappedQty := swappedQty swap; swappedPrice := swappedPrice swap |}.

Definition set_completed (swap : SwapRecord) (result : Found) : SwapRecord :=
  {| timestamp := timestamp swap; txIdSent := txIdSent swap;
     amountSent := amountSent swap; fromToken := fromToken swap;
     toToken := toToken swap; username := username swap;
     status := "completed";
     txIdReceived := Some (f_txId result);
     amountReceived := Some (f_amount result);
     swappedQty := f_swappedQty result;
     swappedPrice := f_swappedPrice result |}.

Definition set_refunded (swap : SwapRecord) (refund : Found) : SwapRecord :=
  {| timestamp := timestamp swap; txIdSent := txIdSent swap;
     amountSent := amountSent swap; fromToken := fromToken swap;
     toToken := toToken swap; username := username swap;
     status := "refunded";
     txIdReceived := Some (f_txId refund);
     amountReceived := Some (f_amount refund);
     swappedQty := swappedQty swap; swappedPrice := swappedPrice swap |}.

Definition minimumWaitTime : Z := 30 * 1000.
Definition maximumWaitTime : Z := 10 * 60 * 1000.

(** The first block of the loop body of [loadSwapHistory]: a settled swap
    that still carries a placeholder is looked up again. *)
Definition backfill (username : string) (swap : SwapRecord) : M SwapRecord :=
  if (String.eqb (status swap) "completed" || String.eqb (status swap) "refunded")
     && is_placeholder (txIdReceived swap)
  then
    result <- check_for (toToken swap) (txIdSent swap) username ;;
    match result with
    | Some result => ret (set_txIdReceived swap (f_txId result))
    | None => ret swap
    end
  else ret swap.

(** The second block: a pending swap is resolved. *)
Definition resolve_pending (username : string) (swap : SwapRecord) : M SwapRecord :=
  if String.eqb (status swap) "pending" then
    result <- check_for (toToken swap) (txIdSent swap) username ;;
    match result with
    | Some result => ret (set_completed swap result)
    | None =>
        refund <- check_for (fromToken swap) (txIdSent swap) username ;;
        match refund with
        | Some refund => ret (set_refunded swap refund)
        | None =>
            now <- call DateNow (Date_now env) ;;
            let swapAge := (now - timestamp swap)%Z in
            if (minimumWaitTime <? swapAge)%Z && (swapAge <? maximumWaitTime)%Z then
              txExists <- verifyTransactionExists (txIdSent swap) (fromToken swap) ;;
              if negb txExists then ret (set_status swap "not-sent")
              else ret swap
            else ret swap
        end
    end
  else ret swap.

(** One turn of the loop of [loadSwapHistory]. *)
Definition check_swap (username : string) (swap : SwapRecord) : M SwapRecord :=
  swap <- backfill username swap ;;
  resolve_pending username swap.

(** The loop runs over the entries of [username]; they are the very objects
    of [history], so the array written back carries their updates. *)
Fixpoint check_all (username : string) (history : list SwapRecord)
  : M (list SwapRecord) :=
  match history with
  | [] => ret []
  | swap :: rest =>
      swap' <- (if owned_by username swap then check_swap username swap
                else ret swap) ;;
      rest' <- check_all username rest ;;
      ret (swap' :: rest')
  end.

(** [loadSwapHistory(username)], one pass: from the array [stored] that it
    reads off the store when it starts, the array it returns and the array
    it writes to the store when it ends.  Between the two it awaits the
    ledgers, and other calls run; what they do to the store is in [step],
    below.  For an empty user name nothing is read or written. *)
Definition loadSwapHistory (username : string) (stored : list SwapRecord)
  : M (list SwapRecord * list SwapRecord) :=
  if String.eqb username "" then ret ([], stored)
  else
    history <- check_all username stored ;;
    let userHistory := filter (owned_by username) history in
    ret (firstn 10 userHistory, history).

End Reconciliation.

(** Whether the loop of [loadSwapHistory] has anything to look up for an
    entry: it is pending, or it is settled with a placeholder id. *)
Definition needs_lookup (u : string) (r : SwapRecord) : bool :=
  owned_by u r
  && (String.eqb (status r) "pending"
      || ((String.eqb (status r) "completed" || String.eqb (status r) "refunded")
          && is_placeholder (txIdReceived r))).

(** *** Submission *)

(** The state of [WalletManager] that the swap module reads. *)
Record Wallet := {
  currentUser : option string;
  balance_HIVE : float;
  balance_SWAP_HIVE : float
}.

(** The names that an object literal inherits from [Object.prototype]. *)
Definition Object_prototype : list string :=
  [ "constructor"; "hasOwnProperty"; "isPrototypeOf"; "propertyIsEnumerable";
    "toLocaleString"; "toString"; "valueOf"; "__proto__";
    "__defineGetter__"; "__defineSetter__"; "__lookupGetter__";
    "__lookupSetter__" ]%string.

(** The member inherited under [name]: a built-in function, and the
    prototype itself for [__proto__].  Converted to a primitive it is a text
    that is no numeric literal. *)
Definition inherited_member (name : string) : any :=
  if String.eqb name "__proto__" then Object (Some (PStr "[object Object]"))
  else Object (Some (PStr ("function " ++ name ++ "() { [native code] }"))).

(** A number [x] in [x || 0]. *)
Definition number_or_zero (x : float) : float :=
  if is_nan x || (x =? 0) then 0 else x.

(** [WalletManager.getBalance(symbol)], that is [balances[symbol] || 0],
    where [balances] is an object literal with the keys [HIVE] and
    [SWAP.HIVE]: under a name of [Object.prototype] the look-up finds the
    inherited member, which is truthy. *)
Definition getBalance (w : Wallet) (symbol : string) : any :=
  if String.eqb symbol "HIVE" then Prim (PNum (number_or_zero (balance_HIVE w)))
  else if String.eqb symbol "SWAP.HIVE"
  then Prim (PNum (number_or_zero (balance_SWAP_HIVE w)))
  else if existsb (String.eqb symbol) Object_prototype then inherited_member symbol
  else Prim (PNum 0).

(** What is handed to the signing extension. *)
Inductive KeychainRequest :=
| RequestTransfer (account to amount memo currency : string)
| RequestCustomJson (account id keyType : string) (json : EngineJson)
    (display_msg : string).

(** Its answer: [success] and the transaction id read off [result], [None]
    when there is none. *)
Record KeychainResponse := {
  success : bool;
  transactionId : option string
}.

(** The outcome of [executeSwap]: its return value, the request made to the
    signing extension if any, and the history left in the store. *)
Record Submission := {
  ok : bool;
  requested : option KeychainRequest;
  stored : list SwapRecord
}.

Section Submit.

Variable cfg : Config.

(** [validateSwap()]: [true], or [false] for a thrown [ValidationError].
    [validateSwapAmount] uses the balance in [num > balance] only, which
    converts it to a number. *)
Definition validateSwap (w : Wallet) (currentSwap : Swap) : bool :=
  match currentUser w with
  | None => false
  | Some username =>
      if String.eqb username "" then false
      else
        let balance := getBalance w (from currentSwap) in
        match ToNumber balance with
        | Returns balance =>
            Utils.valid
              (Utils.validateSwapAmount (Num (amount currentSwap)) balance
                 (MINIMUM_SWAP cfg))
        | Throws => false
        end
  end.

Definition hive_request (amount : float) (username memo : string) : KeychainRequest :=
  RequestTransfer username (BRIDGE_USER cfg)
    (toFixed (Utils.roundTo (Num amount) 3) 3) memo "HIVE".

Definition engine_request (amount : float) (username memo : string) : KeychainRequest :=
  RequestCustomJson username "ssc-mainnet-hive" "Active"
    {| contractName := "tokens";
       contractAction := "transfer";
       contractPayload :=
         Some {| p_symbol := "SWAP.HIVE";
                 p_to := BRIDGE_USER cfg;
                 p_quantity := toFixed (Utils.roundTo (Num amount) 3) 3;
                 p_memo := memo |} |}
    "SWAP.HIVE Transfer".

(** [executeSwap()].  [keychain] is [window.hive_keychain], [None] when the
    extension is missing.  The function awaits the answer of the extension,
    and the handlers of the input fields can replace [currentSwap]
    meanwhile: [currentSwap] is the quote when the function is called and
    [later] the quote when the extension has answered, which the record is
    made from.  [now] is the clock and [history] the store when the record
    is written. *)
Definition executeSwap (w : Wallet) (currentSwap : Swap)
    (keychain : option (KeychainRequest -> KeychainResponse))
    (later : Swap) (now : Z) (history : list SwapRecord) : Submission :=
  if negb (validateSwap w currentSwap) then
    {| ok := false; requested := None; stored := history |}
  else
    let username := match currentUser w with Some u => u | None => ""%string end in
    let minReceiveFormatted :=
      toFixed (Utils.roundTo (Num (minReceive currentSwap)) 3) 3 in
    let memo := minReceiveFormatted in
    let request :=
      if String.eqb (from currentSwap) "HIVE"
      then hive_request (amount currentSwap) username memo
      else engine_request (amount currentSwap) username memo in
    match keychain with
    | None => {| ok := false; requested := None; stored := history |}
    | Some sign =>
        let response := sign request in
        if success response then
          {| ok := true;
             requested := Some request;
             stored :=
               match transactionId response with
               | Some txId =>
                   addSwapToHistory now history txId (amount later)
                     (from later) username
               | None => history
               end |}
        else {| ok := false; requested := Some request; stored := history |}
    end.

End Submit.

(** *** The store under overlapping calls

    The page runs on one thread, and a function gives up control only where
    it awaits.  [addSwapToHistory] reads and writes the store in one go.  A
    pass of [loadSwapHistory] reads the store when it starts, awaits the
    ledgers, and writes the array it read, with its updates, when it ends;
    whatever was written to the store in between is overwritten.  Passes are
    started by [UIManager.updateSwapHistory], which nothing awaits where
    [addSwapToHistory] and the balance loader call it. *)

(** A pass that has read the store and awaits an answer. *)
Record Pass := {
  pass_username : string;
  snapshot : list SwapRecord
}.

(** The [swapHistory] item of the local storage and the passes under way. *)
Record Browser := {
  swapHistory : list SwapRecord;
  passes : list Pass
}.

Inductive Event :=
| LoadSwapHistory (username : string)
    (* [loadSwapHistory(username)] is called *)
| PassEnds (n : nat) (env : Env)
    (* the [n]-th pass under way runs to its end, the ledgers having
       answered it as [env] tells *)
| AddSwapToHistory (now : Z) (txId : string) (amount : float)
    (fromToken username : string) (current : option string).
    (* [addSwapToHistory(txId, amount, fromToken, username)] is called when
       the clock reads [now] and [WalletManager.getCurrentUser()] is
       [current] *)

Section Store.

Variable cfg : Config.

(** The start of a pass.  A pass that has nothing to look up awaits nothing:
    it ends at once and writes back what it read. *)
Definition begin_pass (username : string) (b : Browser) : Browser :=
  if String.eqb username "" then b
  else if existsb (needs_lookup username) (swapHistory b) then
    {| swapHistory := swapHistory b;
       passes := passes b ++ [ {| pass_username := username;
                                  snapshot := swapHistory b |} ] |}
  else b.

(** What a pass writes when it ends. *)
Definition written (p : Pass) (env : Env) : list SwapRecord :=
  snd (fst (loadSwapHistory cfg env (pass_username p) (snapshot p) [])).

Definition step (b : Browser) (e : Event) : Browser :=
  match e with
  | LoadSwapHistory username => begin_pass username b
  | PassEnds n env =>
      match nth_error (passes b) n with
      | Some p =>
          {| swapHistory := written p env;
             passes := firstn n (passes b) ++ skipn (S n) (passes b) |}
      | None => b
      end
  | AddSwapToHistory now txId amount fromToken username current =>
      let b :=
        {| swapHistory :=
             addSwapToHistory now (swapHistory b) txId amount fromToken username;
           passes := passes b |} in
      match current with
      | Some username => begin_pass username b
      | None => b
      end
  end.

Definition run (events : list Event) (b : Browser) : Browser :=
  fold_left step events b.

End Store.

End SwapManager.

(** ** The pricing algorithm as the specification words it *)

Module Spec.

(** The numbers of the specification are binary64 numbers, and its sums,
    differences, products and quotients are the correctly rounded ones.  The
    operations that it names are defined here from what they mean, on the
    exact value of a number. *)

(** The integer [z] as a number, for [|z| < 2^63]. *)
Definition integer (z : Z) : float :=
  if (0 <=? z)%Z then of_uint63 (Uint63.of_Z z)
  else (- of_uint63 (Uint63.of_Z (- z)))%float.

(** The exact value of the finite number [(-1)^s * m * 2^e] is
    [numerator s m e / denominator e]. *)
Definition numerator (s : bool) (m : positive) (e : Z) : Z :=
  ((if s then Z.neg m else Z.pos m) * 2 ^ Z.max e 0)%Z.

Definition denominator (e : Z) : Z := (2 ^ Z.max (- e) 0)%Z.

(** The largest integer not above [x].  A number that is an integer already
    is left as it is, and so is what has no fraction to drop: a zero, an
    infinity, NaN. *)
Definition floor (x : float) : float :=
  match Prim2SF x with
  | S754_finite s m e =>
      if (denominator e =? 1)%Z then x
      else integer (numerator s m e / denominator e)
  | _ => x
  end.

(** The integer nearest to [x], and the upper one of two that are equally
    near: the largest integer not above [x + 1/2]. *)
Definition nearest (x : float) : float :=
  match Prim2SF x with
  | S754_finite s m e =>
      if (denominator e =? 1)%Z then x
      else integer ((2 * numerator s m e + denominator e) / (2 * denominator e))
  | _ => x
  end.

(** [x] rounded, and floored, to [d] decimal places: [x] is scaled by
    [10^d], brought to an integer and scaled back. *)
Definition rounded (x : float) (d : nat) : float :=
  nearest (x * integer (10 ^ Z.of_nat d)) / integer (10 ^ Z.of_nat d).

Definition floored (x : float) (d : nat) : float :=
  floor (x * integer (10 ^ Z.of_nat d)) / integer (10 ^ Z.of_nat d).

(** [max(a, b)] and [|x|]. *)
Definition max (a b : float) : float := if a <? b then b else a.

Definition magnitude (x : float) : float := if x <? 0 then - x else x.

Section Algorithm.

Variables primaryPoolSize sidePoolSize : float.
Variables baseFee minBaseFee diffCoefficient basePrice : float.

Section Quote.

Variable amountIn : float.
Variable tokenIn_is_primary : bool.

(** Steps 1 to 5 of the quote. *)
Definition fromPool : float :=
  if tokenIn_is_primary then primaryPoolSize else sidePoolSize.

Definition diff : float :=
  (amountIn * 0.5 + fromPool) / (primaryPoolSize + sidePoolSize) - 0.5.

Definition adjustedFee : float :=
  max (baseFee * (1 - 2 * magnitude diff)) minBaseFee.

Definition price : float :=
  if tokenIn_is_primary then basePrice - 2 * diff * diffCoefficient
  else 1 / basePrice - 2 * diff * diffCoefficient.

(** The expected output, rounded to 8 decimal places for the accounts and
    floored to 3 for display. *)
Definition expectedOut : float :=
  floored (rounded (amountIn * price * (1 - adjustedFee)) 8) 3.

End Quote.

End Algorithm.

(** The data-model invariant of a quote: the minimum to receive, floored to
    3 decimal places. *)
Definition minReceive_floored (expectedOut slippage : float) : float :=
  floored (expectedOut * (1 - slippage / 100)) 3.

(** The minimum to receive, rounded to 8 decimal places and then to 3. *)
Definition minReceive_rounded (expectedOut slippage : float) : float :=
  rounded (rounded (expectedOut * (1 - slippage / 100)) 8) 3.

End Spec.

(** * Properties *)

Import JS SwapManager.

(** ** Facts on binary64 comparisons *)

Lemma float_neq (a b : float) : Leibniz.eqb a b = false -> a <> b.
Proof.
  intros H E. apply Leibniz.eqb_spec in E. congruence.
Qed.

Lemma SFcompare_refl (x : spec_float) :
  x <> S754_nan -> SFcompare x x = Some Eq.
Proof.
  destruct x as [s|s| |s m e]; simpl; intros H; try congruence;
    destruct s; rewrite ?Z.compare_refl, ?Pos.compare_cont_refl; reflexivity.
Qed.

Lemma is_nan_spec (x : float) : is_nan x = true <-> Prim2SF x = S754_nan.
Proof.
  unfold is_nan. rewrite eqb_spec. unfold SFeqb. split.
  - destruct (Prim2SF x) eqn:E; auto; intros H;
      rewrite SFcompare_refl in H by congruence; discriminate.
  - intros ->. reflexivity.
Qed.



(** ** C2: how the minimum to receive is rounded *)

(** The quote of the running example with a slippage of 0.3 percent. *)
Definition quote_100_slippage_03 : Swap :=
  updateSwapCalculation CONFIG defaultFeeConfig (Num 100) "HIVE" "SWAP.HIVE" (Num 0.3).

(** C2, as stated, fails: for 100 HIVE at 0.3 percent slippage the quote
    carries 99.5 where flooring to 3 decimal places gives 99.499. *)
Lemma minReceive_is_not_floored :
  minReceive quote_100_slippage_03 = 99.5%float
  /\ Spec.minReceive_floored (expected quote_100_slippage_03)
       (slippage quote_100_slippage_03) = 99.499%float
  /\ minReceive quote_100_slippage_03
     <> Spec.minReceive_floored (expected quote_100_slippage_03)
          (slippage quote_100_slippage_03).
Proof.
  split; [ | split ].
  - vm_compute. reflexivity.
  - vm_compute. reflexivity.
  - apply float_neq. vm_compute. reflexivity.
Qed.

(** ** C3: the minimum-receive law *)

(** The law as the specification states it, for one quote. *)
Definition minimum_receive_law (q : Swap) : Prop :=
  (minReceive q <=? expected q)%float = true
  /\ ((minReceive q =? expected q)%float = true
      <-> (slippage q =? 0)%float = true).

(** C3, as stated, fails twice.  Ten million HIVE against the built-in pools
    has a negative price, and the minimum to receive is then above the
    expected output; and at a slippage of 0.0001 percent the minimum for 100
    HIVE rounds back to the expected output although the slippage is not
    zero. *)
Lemma minimum_receive_law_fails :
  ~ minimum_receive_law
      (updateSwapCalculation CONFIG defaultFeeConfig (Num 10000000)
         "HIVE" "SWAP.HIVE" (Num 0.01))
  /\ ~ minimum_receive_law
         (updateSwapCalculation CONFIG defaultFeeConfig (Num 100)
            "HIVE" "SWAP.HIVE" (Num 0.0001)).
Proof.
  split; intros [Hle Heq].
  - vm_compute in Hle. discriminate.
  - destruct Heq as [Heq _].
    assert (H : (0.0001 =? 0)%float = true) by (apply Heq; vm_compute; reflexivity).
    vm_compute in H. discriminate.
Qed.

(** ** C4: the adjusted fee and the pool imbalance *)

(** The adjusted fee that [calculateFee] uses for [amount]. *)
Definition fee_of (cfg : Config) (fc : FeeConfig) (amount : float)
    (fromToken : string) : float :=
  adjusted_base_fee fc (pool_diff cfg amount fromToken).

(** C4, as stated, fails in its direction: going from 1000 HIVE to 100 HIVE
    the imbalance measure [|diff|] decreases, and the adjusted fee goes up. *)
Lemma adjusted_fee_increases_as_diff_decreases :
  (Math_abs (pool_diff CONFIG 100 "HIVE")
     <? Math_abs (pool_diff CONFIG 1000 "HIVE"))%float = true
  /\ (fee_of CONFIG defaultFeeConfig 1000 "HIVE"
        <? fee_of CONFIG defaultFeeConfig 100 "HIVE")%float = true
  /\ ~ (forall a1 a2 : float,
          (0 <? a1)%float = true -> is_finite a1 = true ->
          (0 <? a2)%float = true -> is_finite a2 = true ->
          (Math_abs (pool_diff CONFIG a1 "HIVE")
             <=? Math_abs (pool_diff CONFIG a2 "HIVE"))%float = true ->
          (fee_of CONFIG defaultFeeConfig a1 "HIVE"
             <=? fee_of CONFIG defaultFeeConfig a2 "HIVE")%float = true).
Proof.
  split; [ | split ].
  - vm_compute. reflexivity.
  - vm_compute. reflexivity.
  - intros H.
    specialize (H 100%float 1000%float eq_refl eq_refl eq_refl eq_refl).
    assert (E : (fee_of CONFIG defaultFeeConfig 100 "HIVE"
                   <=? fee_of CONFIG defaultFeeConfig 1000 "HIVE")%float = true)
      by (apply H; vm_compute; reflexivity).
    vm_compute in E. discriminate.
Qed.

(** ** Running examples *)

(** A pending swap of 100 HIVE that alice submitted at time 0. *)
Definition alice_pending : SwapRecord := {|
  timestamp := 0;
  txIdSent := "abc123";
  amountSent := "100.000 HIVE";
  fromToken := "HIVE";
  toToken := "SWAP.HIVE";
  username := "alice";
  status := "pending";
  txIdReceived := None;
  amountReceived := None;
  swappedQty := None;
  swappedPrice := None
|}.


(** Ledgers that answer, and know nothing of the swap, read at time [now]. *)
Definition env_quiet (now : Z) : Env := {|
  getAccountHistoryAsync := fun _ => Some [];
  getTransactionAsync := fun _ _ => TxNull;
  ssc_ready := true;
  getTransactionInfo := fun _ _ => InfoNull;
  Date_now := fun _ => now
|}.

(** Ledgers that cannot be reached: every query fails. *)
Definition env_down (now : Z) : Env := {|
  getAccountHistoryAsync := fun _ => None;
  getTransactionAsync := fun _ _ => TxRejected;
  ssc_ready := true;
  getTransactionInfo := fun _ _ => InfoRejected;
  Date_now := fun _ => now
|}.


(** A bridge history with one side-chain payment to alice carrying [memo]. *)
Definition bridge_paid_engine (memo : string) : Env := {|
  getAccountHistoryAsync := fun _ =>
    Some [ {| trx_id := "def456";
              op := Some (CustomJson "ssc-mainnet-hive"
                            (Some {| contractName := "tokens";
                                     contractAction := "transfer";
                                     contractPayload :=
                                       Some {| p_to := "alice";
                                               p_symbol := "SWAP.HIVE";
                                               p_quantity := "99.799";
                                               p_memo := memo |} |})) |} ];
  getTransactionAsync := fun _ _ => TxFound;
  ssc_ready := true;
  getTransactionInfo := fun _ _ => InfoFound "abc123";
  Date_now := fun _ => 60000%Z
|}.

(** ** What a pass leaves alone *)

(** The fields of a record that identify the submitted swap. *)
Definition same_swap (old new : SwapRecord) : Prop :=
  timestamp new = timestamp old
  /\ txIdSent new = txIdSent old
  /\ amountSent new = amountSent old
  /\ fromToken new = fromToken old
  /\ toToken new = toToken old
  /\ username new = username old.

Lemma same_swap_refl r : same_swap r r.
Proof. repeat split. Qed.

Lemma check_swap_same cfg env u swap log :
  same_swap swap (fst (check_swap cfg env u swap log)).
Proof.
  unfold check_swap, bind.
  assert (Hb : same_swap swap (fst (backfill cfg env u swap log))).
  { unfold backfill. destruct (_ && _); [ | apply same_swap_refl ].
    unfold bind. destruct (check_for _ _ _ _ _ _) as [[r|] l]; repeat split. }
  destruct (backfill cfg env u swap log) as [swap1 l1]. cbn [fst] in Hb.
  assert (Hr : same_swap swap1 (fst (resolve_pending cfg env u swap1 l1))).
  { unfold resolve_pending. destruct (String.eqb _ _); [ | apply same_swap_refl ].
    unfold bind. destruct (check_for _ _ _ _ _ _) as [[r|] l2]; [repeat split | ].
    destruct (check_for _ _ _ _ _ _) as [[r|] l3]; [repeat split | ].
    unfold call. destruct (_ && _); [ | apply same_swap_refl ].
    destruct (verifyTransactionExists _ _ _ _) as [[|] l4]; repeat split. }
  destruct (resolve_pending cfg env u swap1 l1) as [swap2 l2]. cbn [fst] in *.
  unfold same_swap in *. intuition congruence.
Qed.

Lemma check_all_frame cfg env u history :
  forall log,
    Forall2 (fun old new => same_swap old new /\ (owned_by u old = false -> new = old))
      history (fst (check_all cfg env u history log)).
Proof.
  induction history as [|swap rest IH]; intros log; cbn [check_all].
  - constructor.
  - unfold bind, ret.
    pose proof (check_swap_same cfg env u swap log) as Hs.
    destruct (owned_by u swap) eqn:Ho.
    + destruct (check_swap cfg env u swap log) as [swap' l1]. cbn [fst] in Hs.
      specialize (IH l1). destruct (check_all cfg env u rest l1) as [rest' l2].
      constructor; [split; [exact Hs | intros H; congruence] | exact IH].
    + specialize (IH log). destruct (check_all cfg env u rest log) as [rest' l2].
      constructor; [split; [apply same_swap_refl | reflexivity] | exact IH].
Qed.

Lemma check_swap_nothing cfg env u swap log :
  String.eqb (status swap) "pending"
  || ((String.eqb (status swap) "completed" || String.eqb (status swap) "refunded")
      && is_placeholder (txIdReceived swap)) = false ->
  check_swap cfg env u swap log = (swap, log).
Proof.
  intros H. apply orb_false_elim in H. destruct H as [Hp Hb].
  unfold check_swap, bind, backfill. rewrite Hb.
  unfold ret, resolve_pending. rewrite Hp. reflexivity.
Qed.

Lemma check_all_nothing cfg env u history :
  forallb (fun r => negb (needs_lookup u r)) history = true ->
  forall log, check_all cfg env u history log = (history, log).
Proof.
  induction history as [|swap rest IH]; intros H log; cbn [check_all].
  - reflexivity.
  - cbn [forallb] in H. apply andb_prop in H. destruct H as [Hs Hr].
    unfold bind, ret. unfold needs_lookup in Hs.
    destruct (owned_by u swap); cbn [andb negb] in Hs.
    + rewrite check_swap_nothing by (destruct (_ || _); [discriminate | reflexivity]).
      rewrite (IH Hr). reflexivity.
    + rewrite (IH Hr). reflexivity.
Qed.

(** ** C5: the status of a record only leaves [pending] *)

(** How one reconciliation may change the status of a record. *)
Definition status_step (old new : SwapRecord) : Prop :=
  status new = status old
  \/ (status old = "pending"%string
      /\ (status new = "completed"%string
          \/ status new = "refunded"%string
          \/ status new = "not-sent"%string)).

Definition settled (r : SwapRecord) : Prop :=
  status r = "completed"%string
  \/ status r = "refunded"%string
  \/ status r = "not-sent"%string.

Lemma backfill_status cfg env u swap log :
  status (fst (backfill cfg env u swap log)) = status swap.
Proof.
  unfold backfill.
  destruct ((String.eqb (status swap) "completed"
             || String.eqb (status swap) "refunded")
            && is_placeholder (txIdReceived swap)); [ | reflexivity ].
  unfold bind.
  destruct (check_for cfg env (toToken swap) (txIdSent swap) u log) as [[r|] l];
    reflexivity.
Qed.

Lemma resolve_pending_status cfg env u swap log :
  status_step swap (fst (resolve_pending cfg env u swap log)).
Proof.
  unfold resolve_pending, status_step.
  destruct (String.eqb_spec (status swap) "pending") as [Hp|Hp];
    [ | left; reflexivity ].
  unfold bind.
  destruct (check_for cfg env (toToken swap) (txIdSent swap) u log) as [[r|] l1].
  { right. split; [assumption | left; reflexivity]. }
  destruct (check_for cfg env (fromToken swap) (txIdSent swap) u l1) as [[r|] l2].
  { right. split; [assumption | right; left; reflexivity]. }
  unfold call.
  destruct ((minimumWaitTime <? Date_now env (List.length l2) - timestamp swap)%Z
            && (Date_now env (List.length l2) - timestamp swap <? maximumWaitTime)%Z);
    [ | left; reflexivity ].
  destruct (verifyTransactionExists env (txIdSent swap) (fromToken swap)
              (DateNow :: l2)) as [[|] l3].
  - left; reflexivity.
  - right. split; [assumption | right; right; reflexivity].
Qed.

Lemma check_swap_status cfg env u swap log :
  status_step swap (fst (check_swap cfg env u swap log)).
Proof.
  unfold check_swap, bind.
  pose proof (backfill_status cfg env u swap log) as Hb.
  destruct (backfill cfg env u swap log) as [swap1 l1]. simpl in Hb.
  pose proof (resolve_pending_status cfg env u swap1 l1) as Hr.
  unfold status_step in *. rewrite Hb in Hr. exact Hr.
Qed.

Lemma check_all_status cfg env u history :
  forall log, Forall2 status_step history (fst (check_all cfg env u history log)).
Proof.
  induction history as [|swap rest IH]; intros log; simpl.
  - constructor.
  - unfold bind, ret.
    pose proof (check_swap_status cfg env u swap log) as Hs.
    destruct (owned_by u swap).
    + destruct (check_swap cfg env u swap log) as [swap' l1]. simpl in Hs.
      specialize (IH l1).
      destruct (check_all cfg env u rest l1) as [rest' l2]. simpl in *.
      constructor; assumption.
    + specialize (IH log).
      destruct (check_all cfg env u rest log) as [rest' l2]. simpl in *.
      constructor; [left; reflexivity | assumption].
Qed.

Lemma status_step_settled old new :
  status_step old new -> settled old -> status new = status old.
Proof.
  unfold status_step, settled.
  intros [H|[Hp _]] Hs; [assumption | ].
  rewrite Hp in Hs. destruct Hs as [H|[H|H]]; discriminate.
Qed.

Lemma loadSwapHistory_status cfg env username stored log :
  Forall2 status_step stored
    (snd (fst (loadSwapHistory cfg env username stored log))).
Proof.
  unfold loadSwapHistory.
  destruct (String.eqb username "").
  - simpl. induction stored; constructor; [left; reflexivity | assumption].
  - unfold bind, ret.
    pose proof (check_all_status cfg env username stored log) as Ha.
    destruct (check_all cfg env username stored log) as [h l]. exact Ha.
Qed.

Lemma Forall2_status_settled (old new : list SwapRecord) :
  Forall2 status_step old new ->
  Forall2 (fun old new => settled old -> status new = status old) old new.
Proof.
  induction 1; constructor; auto using status_step_settled.
Qed.

Lemma Forall2_same {A} (R : A -> A -> Prop) (l : list A) :
  (forall x, R x x) -> Forall2 R l l.
Proof.
  intros HR. induction l; constructor; auto.
Qed.

(** A pass that has nothing to look up writes back what it read. *)
Lemma loadSwapHistory_without_lookup cfg env username stored log :
  existsb (needs_lookup username) stored = false ->
  loadSwapHistory cfg env username stored log
  = (if String.eqb username "" then []
     else firstn 10 (filter (owned_by username) stored), stored, log).
Proof.
  intros H. unfold loadSwapHistory.
  destruct (String.eqb username ""); [reflexivity | ].
  unfold bind, ret. rewrite check_all_nothing; [reflexivity | ].
  clear -H. induction stored as [|r rest IH]; [reflexivity | ].
  cbn [existsb forallb] in *. apply orb_false_elim in H. destruct H as [Hr Hrest].
  rewrite Hr, IH by assumption. reflexivity.
Qed.


(** The store with a refund of alice's swap on the Hive ledger. *)
Definition alice_store : Browser :=
  {| swapHistory := [alice_pending]; passes := [] |}.

(** C5, as stated, fails when two passes overlap.  Both read the store while
    alice's swap is pending.  The second is told of the payment of the
    bridge and ends first: the store then holds the record as [completed].
    The first, whose queries were answered before the payment, ends next and
    writes back the array it read: the persisted status, which was
    [completed], is [pending] again. *)
Lemma settled_status_is_overwritten :
  let started :=
    run CONFIG [LoadSwapHistory "alice"; LoadSwapHistory "alice"] alice_store in
  let settled := step CONFIG started (PassEnds 1 (bridge_paid_engine "Swap of abc123")) in
  let overwritten := step CONFIG settled (PassEnds 0 (env_quiet 20000)) in
  map status (swapHistory settled) = ["completed"%string]
  /\ map status (swapHistory overwritten) = ["pending"%string]
  /\ passes overwritten = [].
Proof.
  repeat split; vm_compute; reflexivity.
Qed.

(** C5, amended.  A pass works on the array that it read off the store when
    it started.  Whatever the ledgers answer, the array it writes when it
    ends has the same entries in the same places, and the status of each is
    unchanged or has gone from [pending] to [completed], [refunded] or
    [not-sent]: an entry read as [completed], [refunded] or [not-sent] keeps
    its status (the look-up that replaces a placeholder [txIdReceived]
    included).  So a pass that runs while nothing else writes the store, a
    pass on its own in particular, takes no persisted record out of a settled
    status. *)
Theorem pass_only_leaves_pending (cfg : Config) (b : Browser) (env : Env) :
  (forall n p, nth_error (passes b) n = Some p ->
     let after := swapHistory (step cfg b (PassEnds n env)) in
     Forall2 status_step (snapshot p) after
     /\ Forall2 (fun old new => settled old -> status new = status old)
          (snapshot p) after
     /\ (swapHistory b = snapshot p ->
         Forall2 (fun old new => settled old -> status new = status old)
           (swapHistory b) after))
  /\ (forall username, passes b = [] ->
      let b' := run cfg [LoadSwapHistory username; PassEnds 0 env] b in
      passes b' = []
      /\ Forall2 status_step (swapHistory b) (swapHistory b')
      /\ Forall2 (fun old new => settled old -> status new = status old)
           (swapHistory b) (swapHistory b')).
Proof.
  split.
  - intros n p Hp. cbn [step]. rewrite Hp. cbn [swapHistory]. unfold written.
    pose proof (loadSwapHistory_status cfg env (pass_username p) (snapshot p) []) as H.
    split; [exact H | split ].
    + apply Forall2_status_settled, H.
    + intros ->. apply Forall2_status_settled, H.
  - intros username Hb. cbn [run fold_left step]. unfold begin_pass.
    assert (Hsame : Forall2 status_step (swapHistory b) (swapHistory b)).
    { apply Forall2_same. intros x. left. reflexivity. }
    destruct (String.eqb username "") eqn:Eu.
    { rewrite Hb. cbn [nth_error]. rewrite Hb.
      split; [reflexivity | split; [exact Hsame | apply Forall2_status_settled, Hsame] ]. }
    destruct (existsb (needs_lookup username) (swapHistory b)).
    + cbn [passes swapHistory]. rewrite Hb. cbn [app nth_error firstn skipn].
      unfold written. cbn [pass_username snapshot swapHistory passes].
      pose proof (loadSwapHistory_status cfg env username (swapHistory b) []) as H.
      split; [reflexivity | split; [exact H | apply Forall2_status_settled, H] ].
    + rewrite Hb. cbn [nth_error]. rewrite Hb.
      split; [reflexivity | split; [exact Hsame | apply Forall2_status_settled, Hsame] ].
Qed.

Lemma pass_only_leaves_pending_witness :
  let b' :=
    run CONFIG [LoadSwapHistory "alice"; PassEnds 0 (bridge_paid_engine "Swap of abc123")]
      alice_store in
  passes b' = []
  /\ Forall2 status_step (swapHistory alice_store) (swapHistory b')
  /\ Forall2 (fun old new => settled old -> status new = status old)
       (swapHistory alice_store) (swapHistory b').
Proof.
  apply (pass_only_leaves_pending CONFIG alice_store
           (bridge_paid_engine "Swap of abc123")).
  reflexivity.
Defined.

(** ** C6: the age window of the existence check *)

Lemma check_for_log cfg env token tx u log :
  snd (check_for cfg env token tx u log) = GetAccountHistory (BRIDGE_USER cfg) :: log.
Proof.
  unfold check_for, checkUswapHiveTransfers, checkUswapEngineTransfers, bind, call, ret.
  destruct (String.eqb token "HIVE");
    destruct (getAccountHistoryAsync env (List.length log)); reflexivity.
Qed.

Lemma backfill_pending cfg env u swap log :
  status swap = "pending"%string -> backfill cfg env u swap log = (swap, log).
Proof.
  intros Hp. unfold backfill. rewrite Hp. reflexivity.
Qed.

Lemma set_status_not_sent swap : status (set_status swap "not-sent") = "not-sent"%string.
Proof. reflexivity. Qed.

(** The pass over a pending record whose settlement and refund are both
    not found. *)
Definition unresolved_pass (cfg : Config) (env : Env) (swap : SwapRecord)
    (log : list Call) : SwapRecord * list Call :=
  let log2 :=
    GetAccountHistory (BRIDGE_USER cfg) :: GetAccountHistory (BRIDGE_USER cfg) :: log in
  let age := (Date_now env (S (S (List.length log))) - timestamp swap)%Z in
  if (30000 <? age)%Z && (age <? 600000)%Z then
    let r := verifyTransactionExists env (txIdSent swap) (fromToken swap)
               (DateNow :: log2) in
    if negb (fst r) then (set_status swap "not-sent", snd r) else (swap, snd r)
  else (swap, DateNow :: log2).

Lemma check_swap_unresolved cfg env u swap log :
  status swap = "pending"%string ->
  fst (check_for cfg env (toToken swap) (txIdSent swap) u log) = None ->
  fst (check_for cfg env (fromToken swap) (txIdSent swap) u
         (GetAccountHistory (BRIDGE_USER cfg) :: log)) = None ->
  check_swap cfg env u swap log = unresolved_pass cfg env swap log.
Proof.
  intros Hp H1 H2. unfold check_swap, bind at 1.
  rewrite (backfill_pending _ _ _ _ _ Hp).
  unfold resolve_pending. rewrite Hp. cbn [String.eqb Ascii.eqb Bool.eqb].
  unfold bind at 1.
  pose proof (check_for_log cfg env (toToken swap) (txIdSent swap) u log) as L1.
  destruct (check_for cfg env (toToken swap) (txIdSent swap) u log) as [r1 l1].
  simpl in H1, L1. subst r1 l1.
  unfold bind at 1.
  pose proof (check_for_log cfg env (fromToken swap) (txIdSent swap) u
                (GetAccountHistory (BRIDGE_USER cfg) :: log)) as L2.
  destruct (check_for cfg env (fromToken swap) (txIdSent swap) u
              (GetAccountHistory (BRIDGE_USER cfg) :: log)) as [r2 l2].
  simpl in H2, L2. subst r2 l2.
  unfold bind at 1. unfold call at 1. unfold unresolved_pass.
  cbn [List.length]. unfold minimumWaitTime, maximumWaitTime.
  change (30 * 1000)%Z with 30000%Z. change (10 * 60 * 1000)%Z with 600000%Z.
  destruct ((30000 <? _)%Z && (_ <? 600000)%Z); [ | reflexivity ].
  unfold bind, ret. cbv zeta.
  destruct (verifyTransactionExists env (txIdSent swap) (fromToken swap) _)
    as [[|] l3]; reflexivity.
Qed.

(** What the existence check of a pass learns about the submitted transaction
    of a record when it is call number [n]: the ledger holds it; the ledger
    answers that it does not (no transaction, or one without an id); the
    query is rejected; or, for the side chain, no query can be made because
    the client is not set up. *)
Inductive Existence :=
| Confirmed
| ReportedAbsent
| QueryRejected
| ClientMissing.

Definition existence (env : Env) (swap : SwapRecord) (n : nat) : Existence :=
  if String.eqb (fromToken swap) "HIVE" then
    match getTransactionAsync env n (txIdSent swap) with
    | TxFound => Confirmed
    | TxNull => ReportedAbsent
    | TxRejected => QueryRejected
    end
  else if ssc_ready env then
    match getTransactionInfo env n (txIdSent swap) with
    | InfoFound transactionId =>
        if String.eqb transactionId "" then ReportedAbsent else Confirmed
    | InfoNull => ReportedAbsent
    | InfoRejected => QueryRejected
    end
  else ClientMissing.

(** The call that the existence check adds to the log. *)
Definition existence_query (env : Env) (swap : SwapRecord) : list Call :=
  if String.eqb (fromToken swap) "HIVE" then [GetTransaction (txIdSent swap)]
  else if ssc_ready env then [GetTransactionInfo (txIdSent swap)]
  else [].

Lemma verifyTransactionExists_existence env swap log :
  verifyTransactionExists env (txIdSent swap) (fromToken swap) log
  = (match existence env swap (List.length log) with
     | Confirmed => true
     | _ => false
     end, existence_query env swap ++ log).
Proof.
  unfold verifyTransactionExists, existence, existence_query, bind, call, ret.
  destruct (String.eqb (fromToken swap) "HIVE").
  - destruct (getTransactionAsync env (List.length log) (txIdSent swap)); reflexivity.
  - destruct (ssc_ready env); cbn [negb]; [ | reflexivity ].
    destruct (getTransactionInfo env (List.length log) (txIdSent swap)) as [ | |t];
      try reflexivity.
    destruct (String.eqb t ""); reflexivity.
Qed.

(** The pass over a pending record whose settlement and refund are not
    found, by the age of the record and the outcome of the existence
    check. *)
Lemma unresolved_pass_cases cfg env swap log :
  let log2 :=
    GetAccountHistory (BRIDGE_USER cfg) :: GetAccountHistory (BRIDGE_USER cfg) :: log in
  let age := (Date_now env (List.length log2) - timestamp swap)%Z in
  unresolved_pass cfg env swap log
  = if (30000 <? age)%Z && (age <? 600000)%Z then
      (match existence env swap (S (List.length log2)) with
       | Confirmed => swap
       | _ => set_status swap "not-sent"
       end, existence_query env swap ++ DateNow :: log2)
    else (swap, DateNow :: log2).
Proof.
  cbv zeta. unfold unresolved_pass. cbn [List.length].
  destruct (_ && _); [ | reflexivity ]. cbv zeta.
  rewrite verifyTransactionExists_existence. cbn [fst snd List.length].
  destruct (existence env swap _); reflexivity.
Qed.

(** The ledgers answer every history query and the existence query of the
    Hive ledger is rejected. *)
Definition env_existence_rejected : Env := {|
  getAccountHistoryAsync := fun _ => Some [];
  getTransactionAsync := fun _ _ => TxRejected;
  ssc_ready := true;
  getTransactionInfo := fun _ _ => InfoNull;
  Date_now := fun _ => 60000%Z
|}.

(** C6, as stated, fails in its last clause: a record is marked [not-sent]
    although no existence check has reported the transaction absent.  Here
    the bridge history is read, holds nothing for the swap, and the query
    for the submitted transaction is rejected by the node. *)
Lemma not_sent_without_a_report_of_absence :
  existence env_existence_rejected alice_pending 3 = QueryRejected
  /\ existence env_existence_rejected alice_pending 3 <> ReportedAbsent
  /\ check_swap CONFIG env_existence_rejected "alice" alice_pending []
     = (set_status alice_pending "not-sent",
        [GetTransaction "abc123"; DateNow;
         GetAccountHistory "uswap"; GetAccountHistory "uswap"]).
Proof.
  split; [reflexivity | split; [discriminate | reflexivity] ].
Qed.

(** C6, amended.  Take a pending record for which a pass finds neither the
    settlement nor a refund.  If its age is at most 30 seconds, or at least
    10 minutes, the pass leaves the record as it is and makes no call after
    reading the clock (no existence check).  If its age is strictly between
    the two, the existence check is made, with one query to the origin
    ledger unless that is the side chain and its client is not set up; the
    record is left as it is when the ledger holds the transaction and is
    marked [not-sent] in every other case, that is when the ledger reports
    the transaction absent, when the query is rejected, and when the client
    is missing. *)
Theorem pending_age_window
    (cfg : Config) (env : Env) (u : string) (swap : SwapRecord) (log : list Call) :
  status swap = "pending"%string ->
  fst (check_for cfg env (toToken swap) (txIdSent swap) u log) = None ->
  fst (check_for cfg env (fromToken swap) (txIdSent swap) u
         (GetAccountHistory (BRIDGE_USER cfg) :: log)) = None ->
  let log2 :=
    GetAccountHistory (BRIDGE_USER cfg) :: GetAccountHistory (BRIDGE_USER cfg) :: log in
  let age := (Date_now env (List.length log2) - timestamp swap)%Z in
  let answer := existence env swap (S (List.length log2)) in
  let after := check_swap cfg env u swap log in
  ((age <= 30000)%Z \/ (600000 <= age)%Z ->
   fst after = swap /\ snd after = DateNow :: log2)
  /\ ((30000 < age < 600000)%Z ->
      snd after = existence_query env swap ++ DateNow :: log2
      /\ (answer = Confirmed -> fst after = swap)
      /\ (answer = ReportedAbsent \/ answer = QueryRejected \/ answer = ClientMissing ->
          fst after = set_status swap "not-sent"))
  /\ (status (fst after) = "not-sent"%string
      <-> (30000 < age < 600000)%Z
          /\ (answer = ReportedAbsent \/ answer = QueryRejected
              \/ answer = ClientMissing)).
Proof.
  intros Hp H1 H2 log2 age answer after.
  subst after. rewrite (check_swap_unresolved _ _ _ _ _ Hp H1 H2).
  rewrite unresolved_pass_cases. fold log2. fold age. fold answer.
  destruct (30000 <? age)%Z eqn:Elo; destruct (age <? 600000)%Z eqn:Ehi;
    cbn [andb fst snd];
    try apply Z.ltb_lt in Elo; try apply Z.ltb_ge in Elo;
    try apply Z.ltb_lt in Ehi; try apply Z.ltb_ge in Ehi.
  - split; [intros; lia | split ].
    + intros _. split; [reflexivity | ].
      split; [intros -> ; reflexivity | intros [-> |[-> | ->]]; reflexivity].
    + destruct answer; rewrite ?set_status_not_sent, ?Hp.
      * split; [discriminate | intros [_ [H|[H|H]]]; discriminate].
      * split; [intros _; split; [lia | auto] | reflexivity].
      * split; [intros _; split; [lia | auto] | reflexivity].
      * split; [intros _; split; [lia | auto] | reflexivity].
  - split; [intros _; split; reflexivity | split; [intros; lia | ] ].
    rewrite Hp. split; [discriminate | intros [H _]; lia].
  - split; [intros _; split; reflexivity | split; [intros; lia | ] ].
    rewrite Hp. split; [discriminate | intros [H _]; lia].
  - lia.
Qed.

Lemma pending_age_window_witness :
  let log2 := [GetAccountHistory "uswap"; GetAccountHistory "uswap"] in
  let age := (60000 - 0)%Z in
  let answer := existence (env_quiet 60000) alice_pending 3 in
  let after := check_swap CONFIG (env_quiet 60000) "alice" alice_pending [] in
  (answer = ReportedAbsent
   /\ after = (set_status alice_pending "not-sent",
               GetTransaction "abc123" :: DateNow :: log2))
  /\ ((age <= 30000)%Z \/ (600000 <= age)%Z ->
      fst after = alice_pending /\ snd after = DateNow :: log2)
  /\ ((30000 < age < 600000)%Z ->
      snd after = existence_query (env_quiet 60000) alice_pending ++ DateNow :: log2
      /\ (answer = Confirmed -> fst after = alice_pending)
      /\ (answer = ReportedAbsent \/ answer = QueryRejected \/ answer = ClientMissing ->
          fst after = set_status alice_pending "not-sent"))
  /\ (status (fst after) = "not-sent"%string
      <-> (30000 < age < 600000)%Z
          /\ (answer = ReportedAbsent \/ answer = QueryRejected
              \/ answer = ClientMissing)).
Proof.
  split; [split; reflexivity | ].
  apply (pending_age_window CONFIG (env_quiet 60000) "alice" alice_pending []);
    reflexivity.
Defined.

(** ** C7: what a failed query does to a pending record *)

(** C7, as stated, fails: with both ledgers unreachable, a pass over a
    pending record that is one minute old marks it [not-sent]. *)
Lemma failed_queries_change_status :
  (forall n, getAccountHistoryAsync (env_down 60000) n = None)
  /\ (forall n t, getTransactionAsync (env_down 60000) n t = TxRejected)
  /\ status alice_pending = "pending"%string
  /\ status (fst (check_swap CONFIG (env_down 60000) "alice" alice_pending []))
     = "not-sent"%string
  /\ map status
       (snd (fst (loadSwapHistory CONFIG (env_down 60000) "alice" [alice_pending] [])))
     = ["not-sent"%string].
Proof.
  repeat split; reflexivity.
Qed.

Lemma check_for_failed cfg env token tx u log :
  getAccountHistoryAsync env (List.length log) = None ->
  fst (check_for cfg env token tx u log) = None.
Proof.
  intros Hdown. unfold check_for.
  destruct (String.eqb token "HIVE");
    unfold checkUswapHiveTransfers, checkUswapEngineTransfers, bind, call, ret;
    rewrite Hdown; reflexivity.
Qed.

Lemma check_for_down cfg env token tx u log :
  (forall n, getAccountHistoryAsync env n = None) ->
  fst (check_for cfg env token tx u log) = None.
Proof.
  intros Hdown. apply check_for_failed, Hdown.
Qed.

Lemma verifyTransactionExists_rejected env tx token log :
  (forall n t, getTransactionAsync env n t = TxRejected) ->
  (forall n t, getTransactionInfo env n t = InfoRejected) ->
  fst (verifyTransactionExists env tx token log) = false.
Proof.
  intros Ht Hi. unfold verifyTransactionExists, bind, call, ret.
  destruct (String.eqb token "HIVE").
  - rewrite Ht. reflexivity.
  - destruct (ssc_ready env); cbn [negb]; [rewrite Hi | ]; reflexivity.
Qed.

(** C7, amended.  A failed query is read as a negative answer.  A history
    query of the bridge account that fails is read as a history without the
    operation looked for: the look-up reports nothing found, and the pass
    goes on.  When the two look-ups of a pending record report nothing
    found, for whatever reason, then outside the age window (30 seconds, 10
    minutes) the pass leaves the record as it is, and inside the window an
    existence query that is rejected marks the record [not-sent], just as
    an answer that the transaction is absent does.  In particular, when the
    two history queries fail, the record is never marked [completed] or
    [refunded]. *)
Theorem failed_queries_read_as_negative
    (cfg : Config) (env : Env) (u : string) (swap : SwapRecord) (log : list Call) :
  status swap = "pending"%string ->
  let n := List.length log in
  let age := (Date_now env (2 + n) - timestamp swap)%Z in
  let swap' := fst (check_swap cfg env u swap log) in
  (forall token tx log',
     getAccountHistoryAsync env (List.length log') = None ->
     check_for cfg env token tx u log'
     = (None, GetAccountHistory (BRIDGE_USER cfg) :: log'))
  /\ (fst (check_for cfg env (toToken swap) (txIdSent swap) u log) = None ->
      fst (check_for cfg env (fromToken swap) (txIdSent swap) u
             (GetAccountHistory (BRIDGE_USER cfg) :: log)) = None ->
      (~ (30000 < age < 600000)%Z -> swap' = swap)
      /\ ((30000 < age < 600000)%Z ->
          existence env swap (3 + n) = QueryRejected ->
          swap' = set_status swap "not-sent"))
  /\ (getAccountHistoryAsync env n = None ->
      getAccountHistoryAsync env (1 + n) = None ->
      (status swap' = "pending"%string \/ status swap' = "not-sent"%string)
      /\ (~ (30000 < age < 600000)%Z -> swap' = swap)
      /\ ((30000 < age < 600000)%Z ->
          existence env swap (3 + n) = QueryRejected ->
          swap' = set_status swap "not-sent")).
Proof.
  intros Hp n age swap'.
  assert (Hcases :
    fst (check_for cfg env (toToken swap) (txIdSent swap) u log) = None ->
    fst (check_for cfg env (fromToken swap) (txIdSent swap) u
           (GetAccountHistory (BRIDGE_USER cfg) :: log)) = None ->
    (status swap' = "pending"%string \/ status swap' = "not-sent"%string)
    /\ (~ (30000 < age < 600000)%Z -> swap' = swap)
    /\ ((30000 < age < 600000)%Z ->
        existence env swap (3 + n) = QueryRejected ->
        swap' = set_status swap "not-sent")).
  { intros H1 H2. subst swap'.
    rewrite (check_swap_unresolved _ _ _ _ _ Hp H1 H2), unresolved_pass_cases.
    cbn [List.length]. change (S (S (List.length log))) with (2 + n)%nat.
    fold age. change (S (2 + n)) with (3 + n)%nat.
    destruct (30000 <? age)%Z eqn:Elo; destruct (age <? 600000)%Z eqn:Ehi;
      cbn [andb fst];
      try apply Z.ltb_lt in Elo; try apply Z.ltb_ge in Elo;
      try apply Z.ltb_lt in Ehi; try apply Z.ltb_ge in Ehi;
      try (split; [left; exact Hp | split; [reflexivity | intros; lia] ]).
    split; [ | split; [intros; lia | intros _ ->; reflexivity] ].
    destruct (existence env swap (3 + n)); [left; exact Hp | right .. ]; reflexivity. }
  split; [ | split ].
  - intros token tx log' Hfail.
    rewrite (surjective_pairing (check_for cfg env token tx u log')).
    rewrite check_for_log, (check_for_failed _ _ _ _ _ _ Hfail). reflexivity.
  - intros H1 H2. apply Hcases; assumption.
  - intros F1 F2. apply Hcases; apply check_for_failed; assumption.
Qed.

Lemma failed_queries_read_as_negative_witness :
  let age := (60000 - 0)%Z in
  let swap' :=
    fst (check_swap CONFIG env_existence_rejected "alice" alice_pending []) in
  swap' = set_status alice_pending "not-sent"
  /\ (fst (check_for CONFIG env_existence_rejected "SWAP.HIVE" "abc123" "alice" [])
      = None ->
      fst (check_for CONFIG env_existence_rejected "HIVE" "abc123" "alice"
             [GetAccountHistory "uswap"]) = None ->
      (~ (30000 < age < 600000)%Z -> swap' = alice_pending)
      /\ ((30000 < age < 600000)%Z ->
          existence env_existence_rejected alice_pending 3 = QueryRejected ->
          swap' = set_status alice_pending "not-sent")).
Proof.
  split; [reflexivity | ].
  apply (failed_queries_read_as_negative CONFIG env_existence_rejected "alice"
           alice_pending []).
  reflexivity.
Defined.

(** ** C8: the history keeps the ten latest swaps of a user *)

(** The arguments of one call of [addSwapToHistory] and the clock it reads. *)
Record Submitted := {
  s_now : Z;
  s_txId : string;
  s_amount : float;
  s_fromToken : string
}.

Definition add_for (u : string) (history : list SwapRecord) (c : Submitted)
  : list SwapRecord :=
  addSwapToHistory (s_now c) history (s_txId c) (s_amount c) (s_fromToken c) u.

Definition record_of (u : string) (c : Submitted) : SwapRecord :=
  swapRecord (s_now c) (s_txId c) (s_amount c) (s_fromToken c) u.

Section HistoryCap.

Variable u : string.

Let mine := owned_by u.
Let others := fun h : SwapRecord => negb (owned_by u h).

Lemma filter_id {A} (p : A -> bool) (l : list A) :
  Forall (fun x => p x = true) l -> filter p l = l.
Proof.
  induction 1 as [|x l Hx _ IH]; simpl; [reflexivity | ].
  rewrite Hx, IH. reflexivity.
Qed.

Lemma filter_none {A} (p : A -> bool) (l : list A) :
  Forall (fun x => p x = false) l -> filter p l = [].
Proof.
  induction 1 as [|x l Hx _ IH]; simpl; [reflexivity | ].
  rewrite Hx, IH. reflexivity.
Qed.

Lemma Forall_filter {A} (p : A -> bool) (l : list A) :
  Forall (fun x => p x = true) (filter p l).
Proof.
  apply Forall_forall. intros x Hx. apply filter_In in Hx. tauto.
Qed.

Lemma Forall_firstn {A} (P : A -> Prop) (n : nat) (l : list A) :
  Forall P l -> Forall P (firstn n l).
Proof.
  intros H. revert n. induction H; intros [|n]; simpl; constructor; auto.
Qed.


Lemma record_of_mine c : mine (record_of u c) = true.
Proof. unfold mine, owned_by. simpl. apply String.eqb_refl. Qed.


Lemma add_for_shape history c :
  add_for u history c
  = firstn 10 (record_of u c :: filter mine history) ++ filter others history.
Proof.
  unfold add_for, addSwapToHistory. fold (record_of u c). fold mine. fold others.
  cbn [filter]. unfold others at 1. fold mine. rewrite record_of_mine. reflexivity.
Qed.

Lemma add_for_mine history c :
  filter mine (add_for u history c)
  = firstn 10 (record_of u c :: filter mine history).
Proof.
  rewrite add_for_shape, filter_app.
  rewrite (filter_id mine (firstn 10 _)).
  - rewrite (filter_none mine (filter others history)); [apply app_nil_r | ].
    apply Forall_forall. intros x Hx. apply filter_In in Hx.
    destruct Hx as [_ Hx]. unfold others in Hx. fold mine in Hx.
    destruct (mine x); [discriminate | reflexivity].
  - apply Forall_firstn. constructor; [apply record_of_mine | apply Forall_filter].
Qed.




End HistoryCap.



(** What a pass may do to an entry: the swap stays the same, and an entry of
    another user stays as it is. *)
Definition kept (u : string) (old new : SwapRecord) : Prop :=
  same_swap old new /\ (owned_by u old = false -> new = old).

Lemma kept_refl u r : kept u r r.
Proof. split; [apply same_swap_refl | reflexivity]. Qed.








Lemma loadSwapHistory_kept cfg env u stored log :
  Forall2 (kept u) stored (snd (fst (loadSwapHistory cfg env u stored log))).
Proof.
  unfold loadSwapHistory. destruct (String.eqb u "").
  - cbn. apply Forall2_same, kept_refl.
  - unfold bind, ret.
    pose proof (check_all_frame cfg env u stored log) as Hf.
    destruct (check_all cfg env u stored log) as [h l]. exact Hf.
Qed.










(** ** C9: the memo of the submission and the key of the reconciliation *)


(** Alice swaps 100 SWAP.HIVE at 0.01 percent slippage; the signing
    extension accepts and answers with the transaction id [abc123]; the
    quote is not touched meanwhile. *)
Definition alice_wallet : Wallet :=
  {| currentUser := Some "alice"%string; balance_HIVE := 0; balance_SWAP_HIVE := 500 |}.

Definition alice_quote : Swap :=
  updateSwapCalculation CONFIG defaultFeeConfig (Num 100) "SWAP.HIVE" "HIVE" (Str "0.01").

Definition alice_keychain : option (KeychainRequest -> KeychainResponse) :=
  Some (fun _ => {| success := true; transactionId := Some "abc123"%string |}).












(** The request that alice's submission makes. *)
Definition alice_request : KeychainRequest :=
  RequestCustomJson "alice" "ssc-mainnet-hive" "Active"
    {| contractName := "tokens"; contractAction := "transfer";
       contractPayload :=
         Some {| p_to := "uswap"; p_symbol := "SWAP.HIVE";
                 p_quantity := "100.000"; p_memo := "99.789" |} |}
    "SWAP.HIVE Transfer".


(** ** C10: the numeric helpers on malformed input *)

Lemma Prim2SF_zero_eqb (x : float) (s : bool) :
  Prim2SF x = S754_zero s -> (x =? 0)%float = true.
Proof.
  intros H. rewrite eqb_spec, H. reflexivity.
Qed.

Lemma Prim2SF_zero_not_nan (x : float) (s : bool) :
  Prim2SF x = S754_zero s -> is_nan x = false.
Proof.
  intros H. destruct (is_nan x) eqn:E; [ | reflexivity ].
  apply is_nan_spec in E. congruence.
Qed.

(** Rounding a zero to [d] decimal places gives a zero, for the two
    precisions the quote uses. *)
Lemma roundTo_zero (x : float) (s : bool) (d : nat) :
  d = 8%nat \/ d = 3%nat ->
  Prim2SF x = S754_zero s ->
  exists s', Prim2SF (Utils.roundTo (Num x) d) = S754_zero s'.
Proof.
  intros Hd H. unfold Utils.roundTo, isNaN.
  rewrite (Prim2SF_zero_not_nan x s H).
  assert (Hm : exists m e, Prim2SF (Math_pow10 d) = S754_finite false m e).
  { destruct Hd as [-> | ->]; vm_compute; eauto. }
  destruct Hm as (m & e & Hm).
  assert (Hmul : Prim2SF (x * Math_pow10 d) = S754_zero (xorb s false)).
  { rewrite mul_spec, H, Hm. reflexivity. }
  assert (Hround : Math_round (x * Math_pow10 d) = (x * Math_pow10 d)%float).
  { unfold Math_round. rewrite Hmul. reflexivity. }
  rewrite Hround. exists (xorb (xorb s false) false).
  rewrite div_spec, Hmul, Hm. reflexivity.
Qed.

Lemma mul_zero_l (f : float) :
  Prim2SF (0 * f) = S754_nan \/ exists s, Prim2SF (0 * f) = S754_zero s.
Proof.
  rewrite mul_spec. change (Prim2SF 0) with (S754_zero false).
  destruct (Prim2SF f) as [s|s| |s m e]; cbn [SF64mul SFmul]; eauto.
Qed.

Lemma parseNumber_not_nan (v : JS.value) : is_nan (Utils.parseNumber v 0) = false.
Proof.
  unfold Utils.parseNumber, isNaN.
  destruct v as [ | |x|s]; try reflexivity.
  - destruct (is_nan x) eqn:E; [reflexivity | exact E].
  - destruct (String.eqb s ""); [reflexivity | ].
    destruct (is_nan (parseFloat s)) eqn:E; [reflexivity | exact E].
Qed.

Lemma isPositiveNumber_parsed (v : JS.value) :
  Utils.isPositiveNumber (Num (Utils.parseNumber v 0)) = Utils.isPositiveNumber v.
Proof.
  unfold Utils.isPositiveNumber.
  pose proof (parseNumber_not_nan v) as Hp.
  set (p := Utils.parseNumber v 0) in *.
  unfold Utils.parseNumber, isNaN. rewrite Hp. reflexivity.
Qed.

(** The guard of [roundTo] and [floorTo] on a value of any type. *)
Definition fails_the_guard (v : any) : bool :=
  match v with
  | Prim (PNum x) => isNaN x
  | _ => true
  end.

(** [b === 0] *)
Definition is_zero_number (v : any) : bool :=
  match v with
  | Prim (PNum z) => (z =? 0)%float
  | _ => false
  end.

Lemma convertible_numeric (v : any) :
  convertible v = true -> exists x, ToNumeric v = Returns (Number x).
Proof.
  unfold convertible, ToNumber, ToNumeric.
  destruct v as [[ | |b|y|s|z| ]|[[ | |b|y|s|z| ]|]];
    cbn [and_then ToPrimitive ToNumber_prim]; try discriminate; eauto.
Qed.

Lemma convertible_number (v : any) :
  convertible v = true -> exists x, ToNumber v = Returns x.
Proof.
  unfold convertible. destruct (ToNumber v); [eauto | discriminate].
Qed.

Lemma arithmetic_convertible (o : operator) (a b : any) :
  convertible a = true -> convertible b = true ->
  exists x, arithmetic o a b = Returns (Prim (PNum x)).
Proof.
  intros Ha Hb. unfold arithmetic.
  destruct (convertible_numeric a Ha) as [x ->].
  destruct (convertible_numeric b Hb) as [y ->].
  cbn [and_then]. eauto.
Qed.

Lemma roundTo_returns pow10 (value decimals : any) :
  convertible decimals = true ->
  exists r, Utils.Dyn.roundTo pow10 value decimals = Returns r.
Proof.
  intros Hd. unfold Utils.Dyn.roundTo.
  destruct value as [[ | |b|y|s|z| ]|p]; eauto.
  destruct (isNaN y); eauto.
  assert (Hc : convertible (Utils.Dyn.or_default decimals (Prim (PNum 3))) = true).
  { destruct decimals as [[ | |b|x|s|z| ]|p]; try exact Hd; reflexivity. }
  destruct (convertible_number _ Hc) as [d ->]. cbn [and_then]. eauto.
Qed.

Lemma floorTo_returns pow10 (value decimals : any) :
  convertible decimals = true ->
  exists r, Utils.Dyn.floorTo pow10 value decimals = Returns r.
Proof.
  intros Hd. unfold Utils.Dyn.floorTo.
  destruct value as [[ | |b|y|s|z| ]|p]; eauto.
  destruct (isNaN y); eauto.
  assert (Hc : convertible (Utils.Dyn.or_default decimals (Prim (PNum 3))) = true).
  { destruct decimals as [[ | |b|x|s|z| ]|p]; try exact Hd; reflexivity. }
  destruct (convertible_number _ Hc) as [d ->]. cbn [and_then]. eauto.
Qed.

Lemma parseNumber_returns (value defaultValue : any) :
  convertible value = true ->
  exists r, Utils.Dyn.parseNumber value defaultValue = Returns r
            /\ (r = value \/ r = Utils.Dyn.or_default defaultValue (Prim (PNum 0))
                \/ exists x, r = Prim (PNum x)).
Proof.
  intros Hv. unfold Utils.Dyn.parseNumber.
  destruct (convertible_number value Hv) as [n Hn].
  destruct value as [[ | |b|y|s|z| ]|p]; try discriminate Hv;
    try (rewrite Hn; cbn [and_then]; destruct (isNaN n)); eauto.
  destruct (String.eqb s ""); eauto.
  destruct (isNaN (parseFloat s)); eauto 6.
Qed.

Lemma isPositiveNumber_returns (value : any) :
  convertible value = true ->
  exists r, Utils.Dyn.isPositiveNumber value = Returns r.
Proof.
  intros Hv. unfold Utils.Dyn.isPositiveNumber.
  destruct (parseNumber_returns value (Prim PUndefined) Hv) as (num & -> & Hnum).
  cbn [and_then].
  assert (Hc : convertible num = true).
  { destruct Hnum as [-> |[-> |[x ->]]]; [exact Hv | reflexivity | reflexivity]. }
  unfold greater_than_zero.
  destruct (convertible_numeric num Hc) as [x ->]. cbn [and_then].
  destruct (zero <? x)%float; eauto.
  destruct (convertible_number num Hc) as [n ->]. cbn [and_then]. eauto.
Qed.

(** On the values the quote is computed from, and with the count of decimal
    places a number of the program, the helpers of the two models agree. *)
Lemma roundTo_agrees pow10 (v : JS.value) (decimals : nat) :
  pow10 (of_Z (Z.of_nat decimals)) = Math_pow10 decimals ->
  Utils.Dyn.roundTo pow10 (of_value v) (Prim (PNum (of_Z (Z.of_nat decimals))))
  = Returns (Utils.roundTo v decimals)
  /\ Utils.Dyn.floorTo pow10 (of_value v) (Prim (PNum (of_Z (Z.of_nat decimals))))
     = Returns (Utils.floorTo v decimals).
Proof.
  intros Hpow. unfold Utils.Dyn.roundTo, Utils.Dyn.floorTo, Utils.roundTo, Utils.floorTo.
  destruct v as [ | |x|s]; cbn [of_value]; try (split; reflexivity).
  destruct (isNaN x); [split; reflexivity | ].
  cbn [Utils.Dyn.or_default ToNumber ToPrimitive ToNumber_prim and_then].
  rewrite Hpow. split; reflexivity.
Qed.

Lemma parseNumber_agrees (v : JS.value) (defaultValue : float) :
  Utils.Dyn.parseNumber (of_value v) (Prim (PNum defaultValue))
  = Returns (Prim (PNum (Utils.parseNumber v defaultValue))).
Proof.
  unfold Utils.Dyn.parseNumber, Utils.parseNumber.
  destruct v as [ | |x|s]; cbn [of_value Utils.Dyn.or_default]; try reflexivity.
  - cbn [ToNumber ToPrimitive ToNumber_prim and_then]. destruct (isNaN x); reflexivity.
  - destruct (String.eqb s ""); [reflexivity | ].
    destruct (isNaN (parseFloat s)); reflexivity.
Qed.

Lemma safeDivide_agrees pow10 (a b : float) :
  pow10 8%float = Math_pow10 8 ->
  Utils.Dyn.safeDivide pow10 (Prim (PNum a)) (Prim (PNum b))
  = Returns (Utils.safeDivide a b).
Proof.
  intros Hpow. unfold Utils.Dyn.safeDivide, Utils.safeDivide.
  destruct (b =? 0)%float; [reflexivity | ].
  cbn [arithmetic ToNumeric ToPrimitive ToNumber_prim and_then].
  unfold Utils.Dyn.roundTo, Utils.roundTo.
  destruct (isNaN (a / b)); [reflexivity | ].
  cbn [Utils.Dyn.or_default ToNumber ToPrimitive ToNumber_prim and_then].
  rewrite Hpow. reflexivity.
Qed.

(** C10, as stated, fails: the helpers throw on a BigInt.  [parseNumber(1n)]
    throws in [isNaN]; [safeDivide(1n, 2)], [safeMultiply(1n, 2)] and
    [safeSubtract(1n, 2)] throw in the arithmetic; and [roundTo(1.5, 2n)]
    throws in [Math.pow].  So does a call of the quote with the amount [1n],
    whose first step is [parseNumber]. *)
Lemma helpers_throw_on_a_BigInt :
  Utils.Dyn.parseNumber (Prim (PBigInt 1)) (Prim PUndefined) = Throws
  /\ Utils.Dyn.isPositiveNumber (Prim (PBigInt 1)) = Throws
  /\ (forall pow10,
        Utils.Dyn.safeDivide pow10 (Prim (PBigInt 1)) (Prim (PNum 2)) = Throws
        /\ Utils.Dyn.safeMultiply pow10 (Prim (PBigInt 1)) (Prim (PNum 2)) = Throws
        /\ Utils.Dyn.safeSubtract pow10 (Prim (PBigInt 1)) (Prim (PNum 2)) = Throws
        /\ Utils.Dyn.roundTo pow10 (Prim (PNum 1.5)) (Prim (PBigInt 2)) = Throws
        /\ Utils.Dyn.floorTo pow10 (Prim (PNum 1.5)) (Prim (PBigInt 2)) = Throws).
Proof.
  repeat split.
Qed.

(** C10, amended.  [roundTo] and [floorTo] return 0 for every value that is
    not a number or is NaN, whatever the decimals argument is (it is not
    looked at); [safeDivide] returns 0 whenever the divisor is the number 0
    or -0, whatever the dividend is.  The helpers return without throwing
    on all arguments that convert to a number, that is on everything but a
    BigInt, a Symbol and an object whose conversion throws or yields one of
    these.  On the text, numbers, [null] and [undefined] that the page hands
    to the quote, the helpers are the functions that the quote is computed
    with, and [updateSwapCalculation] yields the zero quote for an amount
    that does not parse to a positive finite number, whatever the slippage
    is. *)
Theorem numeric_helpers_answer_zero
    (pow10 : float -> float) (value decimals a b : any)
    (cfg : Config) (fc : FeeConfig) (amount slippage : JS.value)
    (fromToken toToken : string) :
  (fails_the_guard value = true ->
   Utils.Dyn.roundTo pow10 value decimals = Returns 0%float
   /\ Utils.Dyn.floorTo pow10 value decimals = Returns 0%float)
  /\ (is_zero_number b = true -> Utils.Dyn.safeDivide pow10 a b = Returns 0%float)
  /\ (convertible value = true -> convertible decimals = true ->
      convertible a = true -> convertible b = true ->
      (exists r, Utils.Dyn.roundTo pow10 value decimals = Returns r)
      /\ (exists r, Utils.Dyn.floorTo pow10 value decimals = Returns r)
      /\ (exists r, Utils.Dyn.safeSubtract pow10 a b = Returns r)
      /\ (exists r, Utils.Dyn.safeMultiply pow10 a b = Returns r)
      /\ (exists r, Utils.Dyn.safeDivide pow10 a b = Returns r)
      /\ (exists r, Utils.Dyn.parseNumber value a = Returns r)
      /\ (exists r, Utils.Dyn.isPositiveNumber value = Returns r))
  /\ (forall (v : JS.value) (d : nat) (x y : float),
        pow10 (of_Z (Z.of_nat d)) = Math_pow10 d ->
        pow10 8%float = Math_pow10 8 ->
        Utils.Dyn.roundTo pow10 (of_value v) (Prim (PNum (of_Z (Z.of_nat d))))
        = Returns (Utils.roundTo v d)
        /\ Utils.Dyn.floorTo pow10 (of_value v) (Prim (PNum (of_Z (Z.of_nat d))))
           = Returns (Utils.floorTo v d)
        /\ Utils.Dyn.safeDivide pow10 (Prim (PNum x)) (Prim (PNum y))
           = Returns (Utils.safeDivide x y)
        /\ Utils.Dyn.parseNumber (of_value v) (Prim (PNum x))
           = Returns (Prim (PNum (Utils.parseNumber v x))))
  /\ (Utils.isPositiveNumber amount = false ->
      let q := updateSwapCalculation cfg fc amount fromToken toToken slippage in
      expected q = 0%float /\ fee q = 0%float /\ feePercent q = 0%float
      /\ (minReceive q =? 0)%float = true).
Proof.
  split; [ | split; [ | split; [ | split ] ] ].
  - intros Hv. unfold Utils.Dyn.roundTo, Utils.Dyn.floorTo.
    destruct value as [[ | |v|x|s|z| ]|p]; try (split; reflexivity).
    cbn [fails_the_guard] in Hv. rewrite Hv. split; reflexivity.
  - intros Hb. unfold Utils.Dyn.safeDivide.
    destruct b as [[ | |v|z|s|z| ]|p]; try discriminate Hb.
    cbn [is_zero_number] in Hb. rewrite Hb. reflexivity.
  - intros Hv Hd Ha Hb.
    assert (H8 : convertible (Prim (PNum 8)) = true) by reflexivity.
    split; [apply roundTo_returns, Hd | ].
    split; [apply floorTo_returns, Hd | ].
    split; [ | split; [ | split; [ | split ] ] ].
    + unfold Utils.Dyn.safeSubtract.
      destruct (arithmetic_convertible Minus a b Ha Hb) as [x ->].
      apply roundTo_returns, H8.
    + unfold Utils.Dyn.safeMultiply.
      destruct (arithmetic_convertible Times a b Ha Hb) as [x ->].
      apply roundTo_returns, H8.
    + unfold Utils.Dyn.safeDivide.
      destruct (arithmetic_convertible Divide a b Ha Hb) as [x ->].
      cbn [and_then].
      destruct b as [[ | |v|z|s|z| ]|p]; try apply roundTo_returns, H8.
      destruct (z =? 0)%float; [eauto | apply roundTo_returns, H8].
    + destruct (parseNumber_returns value a Hv) as (r & Hr & _). eauto.
    + apply isPositiveNumber_returns, Hv.
  - intros v d x y Hpow Hpow8.
    destruct (roundTo_agrees pow10 v d Hpow) as [Hr Hf].
    split; [exact Hr | split; [exact Hf | split ] ].
    + apply safeDivide_agrees. exact Hpow8.
    + apply parseNumber_agrees.
  - intros Hamount.
    unfold updateSwapCalculation, calculateExpectedOutput.
    rewrite isPositiveNumber_parsed, Hamount.
    cbn [negb out_expected out_fee out_feePercent expected fee feePercent minReceive].
    repeat split. unfold Utils.safeMultiply.
    set (f := (1 - Utils.parseNumber slippage 0.01 / 100)%float).
    destruct (mul_zero_l f) as [Hnan | [s Hz]].
    + apply is_nan_spec in Hnan. unfold Utils.roundTo at 2. unfold isNaN.
      rewrite Hnan. vm_compute. reflexivity.
    + destruct (roundTo_zero _ s 8 (or_introl eq_refl) Hz) as [s1 H1].
      destruct (roundTo_zero _ s1 3 (or_intror eq_refl) H1) as [s2 H2].
      apply (Prim2SF_zero_eqb _ s2 H2).
Qed.

(** A power function that is exact on counts of decimal places. *)
Definition pow10_of_count (x : float) : float :=
  match Prim2SF x with
  | S754_finite false m e =>
      Math_pow10 (Z.to_nat (if (0 <=? e)%Z then Z.pos m * 2 ^ e
                            else Z.shiftr (Z.pos m) (- e)))
  | _ => 1%float
  end.

(** The helpers on the text of an input field, on a boolean and on a BigInt,
    where the guard answers before anything is converted. *)
Lemma numeric_helpers_answer_zero_witness :
  (Utils.Dyn.roundTo pow10_of_count (Prim (PStr "12 HIVE")) (Prim (PNum 3))
   = Returns 0%float
   /\ Utils.Dyn.floorTo pow10_of_count (Prim (PStr "12 HIVE")) (Prim (PNum 3))
      = Returns 0%float)
  /\ Utils.Dyn.safeDivide pow10_of_count (Prim PSymbol) (Prim (PNum (-0)))
     = Returns 0%float
  /\ (exists r,
        Utils.Dyn.isPositiveNumber (Prim (PStr "12 HIVE")) = Returns r)
  /\ Utils.Dyn.roundTo pow10_of_count (of_value (Num 99.7996)) (Prim (PNum 3))
     = Returns (Utils.roundTo (Num 99.7996) 3)
  /\ let q := updateSwapCalculation CONFIG defaultFeeConfig (Str "abc")
                "HIVE" "SWAP.HIVE" (Str "0.5") in
     expected q = 0%float /\ fee q = 0%float /\ feePercent q = 0%float
     /\ (minReceive q =? 0)%float = true.
Proof.
  pose proof (numeric_helpers_answer_zero pow10_of_count (Prim (PStr "12 HIVE"))
                (Prim (PNum 3)) (Prim PSymbol) (Prim (PNum (-0))) CONFIG
                defaultFeeConfig (Str "abc") (Str "0.5") "HIVE" "SWAP.HIVE")
    as (H1 & H2 & _ & H4 & H5).
  pose proof (numeric_helpers_answer_zero pow10_of_count (Prim (PStr "12 HIVE"))
                (Prim (PNum 3)) (Prim (PBool true)) (Prim (PNum 2)) CONFIG
                defaultFeeConfig (Str "abc") (Str "0.5") "HIVE" "SWAP.HIVE")
    as (_ & _ & H3 & _).
  split; [apply H1; reflexivity | ].
  split; [apply H2; reflexivity | ].
  split; [apply H3; reflexivity | ].
  split; [apply (H4 (Num 99.7996) 3%nat 1%float 1%float); reflexivity | ].
  apply H5. reflexivity.
Defined.

(** * Further components *)

(** ** js/utils.js: user names *)

Module Username.

(** [String.prototype.toLowerCase] on one code unit of the Latin-1 range. *)
Definition to_lower (c : ascii) : ascii :=
  let n := nat_of_ascii c in
  if ((65 <=? n)%nat && (n <=? 90)%nat)
     || ((192 <=? n)%nat && (n <=? 222)%nat && negb (n =? 215)%nat)
  then ascii_of_nat (n + 32) else c.

Definition toLowerCase (s : string) : string :=
  string_of_list_ascii (map to_lower (list_ascii_of_string s)).

(** [String.prototype.trim]: white space is dropped at both ends. *)
Definition trim_list (l : list ascii) : list ascii :=
  rev (skip_spaces (rev (skip_spaces l))).

Definition trim (s : string) : string :=
  string_of_list_ascii (trim_list (list_ascii_of_string s)).

(** [sanitizeUsername(username)] *)
Definition sanitizeUsername (username : string) : string :=
  if String.eqb username "" then EmptyString
  else trim (toLowerCase username).

(** The character class [[a-z0-9\-\.]]. *)
Definition is_username_char (c : ascii) : bool :=
  let n := nat_of_ascii c in
  ((97 <=? n)%nat && (n <=? 122)%nat) || is_digit c
  || Ascii.eqb c "-" || Ascii.eqb c ".".

(** [isValidUsername(username)]: the test of [/^[a-z0-9\-\.]{3,16}$/]. *)
Definition isValidUsername (username : string) : bool :=
  if String.eqb username "" then false
  else
    let l := list_ascii_of_string username in
    forallb is_username_char l
    && (3 <=? List.length l)%nat && (List.length l <=? 16)%nat.

End Username.

(** ** js/utils.js: retry with exponential backoff *)

Module Retry.

Section Retry.

Variables A E : Type.

(** What [retry] leaves behind: the value returned or the error thrown
    ([None] is [undefined], thrown when no attempt was made), the number of
    calls of [fn], and the delays slept, in order. *)
Record Outcome := {
  result : A + option E;
  calls : nat;
  sleeps : list Z
}.

(** The loop of [retry] from [attempt] on, with [remaining] iterations left
    before [attempt] exceeds [maxAttempts].  [fn n] is what the [n]-th call
    of the operation yields. *)
Fixpoint retry_loop (fn : nat -> A + E) (maxAttempts : nat) (delayMs : Z)
    (attempt remaining : nat) (lastError : option E) (slept : list Z) : Outcome :=
  match remaining with
  | O => {| result := inr lastError; calls := attempt - 1; sleeps := slept |}
  | S remaining' =>
      match fn attempt with
      | inl v => {| result := inl v; calls := attempt; sleeps := slept |}
      | inr error =>
          let slept' :=
            if (attempt <? maxAttempts)%nat
            then slept ++ [(delayMs * 2 ^ (Z.of_nat attempt - 1))%Z]
            else slept in
          retry_loop fn maxAttempts delayMs (S attempt) remaining' (Some error) slept'
      end
  end.

(** [retry(fn, maxAttempts = 3, delayMs = 1000)] *)
Definition retry (fn : nat -> A + E) (maxAttempts : nat) (delayMs : Z) : Outcome :=
  retry_loop fn maxAttempts delayMs 1 maxAttempts None [].

End Retry.

Arguments result {A E} _.
Arguments calls {A E} _.
Arguments sleeps {A E} _.
Arguments retry {A E} _ _ _.
Arguments retry_loop {A E} _ _ _ _ _ _ _.

End Retry.

(** ** js/config.js: the fee configuration document *)

Module FeeDocument.

(** The [data] of the answer of the fee server, as the JSON parser delivers
    it: a field can hold a number, a string, a boolean, [null], an array or
    an object, and a missing field is [undefined]. *)
Record FeeData := {
  d_BASE_FEE : JS.any;
  d_MIN_BASE_FEE : JS.any;
  d_DIFF_COEFFICIENT : JS.any;
  d_BASE_PRICE_HIVE_TO_SHIVE : JS.any
}.

(** One assignment [feeConfig.F = Utils.parseNumber(response.data.F,
    feeConfig.F)].  The field then holds the value that [parseNumber]
    returned; the fee formulas use a field in arithmetic only, which reads
    its number, and the configuration of the model keeps that number. *)
Definition assigned (v : JS.any) (current : float) : JS.outcome float :=
  JS.and_then (Utils.Dyn.parseNumber v (JS.Prim (JS.PNum current))) JS.ToNumber.

(** [fetchFeeConfig()]: the fee configuration after the call. [response] is
    [None] when the request fails or times out, and [Some None] when the
    answer carries no data.  The four assignments run in turn inside one
    [try]: when one throws, the ones before it stand. *)
Definition fetchFeeConfig (feeConfig : FeeConfig) (response : option (option FeeData))
  : FeeConfig :=
  match response with
  | Some (Some data) =>
      match assigned (d_BASE_FEE data) (BASE_FEE feeConfig) with
      | JS.Throws => feeConfig
      | JS.Returns base =>
          let feeConfig :=
            {| BASE_FEE := base;
               MIN_BASE_FEE := MIN_BASE_FEE feeConfig;
               DIFF_COEFFICIENT := DIFF_COEFFICIENT feeConfig;
               BASE_PRICE_HIVE_TO_SHIVE := BASE_PRICE_HIVE_TO_SHIVE feeConfig |} in
          match assigned (d_MIN_BASE_FEE data) (MIN_BASE_FEE feeConfig) with
          | JS.Throws => feeConfig
          | JS.Returns minimum =>
              let feeConfig :=
                {| BASE_FEE := BASE_FEE feeConfig;
                   MIN_BASE_FEE := minimum;
                   DIFF_COEFFICIENT := DIFF_COEFFICIENT feeConfig;
                   BASE_PRICE_HIVE_TO_SHIVE := BASE_PRICE_HIVE_TO_SHIVE feeConfig |} in
              match assigned (d_DIFF_COEFFICIENT data) (DIFF_COEFFICIENT feeConfig) with
              | JS.Throws => feeConfig
              | JS.Returns coefficient =>
                  let feeConfig :=
                    {| BASE_FEE := BASE_FEE feeConfig;
                       MIN_BASE_FEE := MIN_BASE_FEE feeConfig;
                       DIFF_COEFFICIENT := coefficient;
                       BASE_PRICE_HIVE_TO_SHIVE := BASE_PRICE_HIVE_TO_SHIVE feeConfig |} in
                  match assigned (d_BASE_PRICE_HIVE_TO_SHIVE data)
                          (BASE_PRICE_HIVE_TO_SHIVE feeConfig) with
                  | JS.Throws => feeConfig
                  | JS.Returns basePrice =>
                      {| BASE_FEE := BASE_FEE feeConfig;
                         MIN_BASE_FEE := MIN_BASE_FEE feeConfig;
                         DIFF_COEFFICIENT := DIFF_COEFFICIENT feeConfig;
                         BASE_PRICE_HIVE_TO_SHIVE := basePrice |}
                  end
              end
          end
      end
  | _ => feeConfig
  end.

End FeeDocument.

(** ** Properties of the user-name helpers *)

Import Username.

Lemma username_char_plain (c : ascii) :
  is_username_char c = true -> to_lower c = c /\ is_space c = false.
Proof.
  destruct c as [b0 b1 b2 b3 b4 b5 b6 b7].
  destruct b0, b1, b2, b3, b4, b5, b6, b7; vm_compute; intros H;
    try discriminate; split; reflexivity.
Qed.

Lemma to_lower_plain (c : ascii) :
  to_lower (to_lower c) = to_lower c /\ is_space (to_lower c) = is_space c.
Proof.
  destruct c as [b0 b1 b2 b3 b4 b5 b6 b7].
  destruct b0, b1, b2, b3, b4, b5, b6, b7; vm_compute; split; reflexivity.
Qed.

Definition starts_clean (l : list ascii) : Prop :=
  match l with
  | [] => True
  | c :: _ => is_space c = false
  end.

Lemma skip_spaces_clean l : starts_clean (skip_spaces l).
Proof.
  induction l as [|c l IH]; simpl; [exact I | ].
  destruct (is_space c) eqn:E; [exact IH | exact E].
Qed.

Lemma skip_spaces_id l : starts_clean l -> skip_spaces l = l.
Proof.
  destruct l as [|c l]; simpl; [reflexivity | ]. intros ->. reflexivity.
Qed.

Lemma skip_spaces_suffix l : exists p, l = p ++ skip_spaces l.
Proof.
  induction l as [|c l [p IH]]; simpl.
  - exists []. reflexivity.
  - destruct (is_space c).
    + exists (c :: p). simpl. congruence.
    + exists []. reflexivity.
Qed.

Lemma starts_clean_prefix (a b : list ascii) :
  a <> [] -> starts_clean (a ++ b) -> starts_clean a.
Proof.
  destruct a as [|c a]; [congruence | ]. intros _ H. exact H.
Qed.

(** Trimming leaves a list that starts and ends clean, and such a list is
    not changed by trimming. *)
Lemma trim_list_clean l :
  starts_clean (trim_list l) /\ starts_clean (rev (trim_list l)).
Proof.
  unfold trim_list. rewrite rev_involutive.
  split; [ | apply skip_spaces_clean ].
  destruct (skip_spaces_suffix (rev (skip_spaces l))) as [p Hp].
  set (b := skip_spaces (rev (skip_spaces l))) in *.
  destruct b as [|c b'] eqn:Eb; [exact I | ].
  assert (Ha : skip_spaces l = rev (c :: b') ++ rev p).
  { rewrite <- rev_app_distr, <- Hp, rev_involutive. reflexivity. }
  apply (starts_clean_prefix (rev (c :: b')) (rev p)).
  - intros H. apply (f_equal (@List.length _)) in H.
    rewrite length_rev in H. discriminate.
  - rewrite <- Ha. apply skip_spaces_clean.
Qed.

Lemma trim_list_id l :
  starts_clean l -> starts_clean (rev l) -> trim_list l = l.
Proof.
  intros H1 H2. unfold trim_list.
  rewrite (skip_spaces_id l H1), (skip_spaces_id (rev l) H2).
  apply rev_involutive.
Qed.

Lemma forallb_starts_clean (l : list ascii) :
  forallb (fun c => negb (is_space c)) l = true -> starts_clean l.
Proof.
  destruct l as [|c l]; simpl; [trivial | ].
  intros H. apply andb_prop in H. destruct H as [H _].
  destruct (is_space c); [discriminate | reflexivity].
Qed.

Lemma sanitizeUsername_valid (username : string) :
  isValidUsername username = true -> sanitizeUsername username = username.
Proof.
  unfold isValidUsername, sanitizeUsername.
  destruct (String.eqb username ""); [discriminate | ].
  intros H. apply andb_prop in H. destruct H as [H _].
  apply andb_prop in H. destruct H as [H _].
  unfold trim, toLowerCase.
  set (l := list_ascii_of_string username) in *.
  assert (Hmap : map to_lower l = l).
  { induction l as [|c l IH]; [reflexivity | ].
    simpl in H. apply andb_prop in H. destruct H as [Hc Hl].
    simpl. rewrite (proj1 (username_char_plain c Hc)), (IH Hl). reflexivity. }
  assert (Hns : forall k : list ascii,
             forallb is_username_char k = true ->
             forallb (fun c => negb (is_space c)) k = true).
  { induction k as [|c k IH]; [reflexivity | ].
    simpl. intros Hk. apply andb_prop in Hk. destruct Hk as [Hc Hk].
    rewrite (proj2 (username_char_plain c Hc)), (IH Hk). reflexivity. }
  rewrite list_ascii_of_string_of_list_ascii, Hmap, trim_list_id.
  - subst l. apply string_of_list_ascii_of_string.
  - apply forallb_starts_clean, Hns, H.
  - apply forallb_starts_clean, Hns.
    rewrite forallb_forall in *. intros c Hc. apply H, in_rev, Hc.
Qed.

(** A user name that [isValidUsername] accepts is left as it is by
    [sanitizeUsername]: no valid name is altered before it is used. *)
Theorem valid_username_is_sanitized (username : string) :
  isValidUsername username = true -> sanitizeUsername username = username.
Proof. exact (sanitizeUsername_valid username). Qed.

Lemma valid_username_is_sanitized_witness :
  sanitizeUsername "user-1.x" = "user-1.x"%string.
Proof.
  apply (valid_username_is_sanitized "user-1.x"). reflexivity.
Defined.

Lemma app_same_length {A} (a a' b b' : list A) :
  List.length a = List.length a' -> a ++ b = a' ++ b' -> b = b'.
Proof.
  revert a'. induction a as [|x a IH]; intros [|x' a'] Hl H;
    try discriminate; [exact H | ].
  simpl in Hl, H. injection H as _ H. injection Hl as Hl. exact (IH a' Hl H).
Qed.

Lemma map_to_lower_trim (l : list ascii) :
  map to_lower (trim_list (map to_lower l)) = trim_list (map to_lower l).
Proof.
  assert (Hsk : forall k, map to_lower (skip_spaces (map to_lower k))
                          = skip_spaces (map to_lower k)).
  { induction k as [|c k IH]; [reflexivity | ].
    simpl. destruct (is_space (to_lower c)); [exact IH | ].
    simpl. rewrite (proj1 (to_lower_plain c)), map_map.
    f_equal. apply map_ext. intros a. apply to_lower_plain. }
  unfold trim_list.
  destruct (skip_spaces_suffix (map to_lower l)) as [p Hp].
  set (a := skip_spaces (map to_lower l)) in *.
  assert (Ha : map to_lower a = a) by apply Hsk.
  destruct (skip_spaces_suffix (rev a)) as [q Hq].
  set (b := skip_spaces (rev a)) in *.
  assert (Hb : map to_lower b = b).
  { assert (Hr : map to_lower (rev a) = rev a) by (rewrite map_rev, Ha; reflexivity).
    rewrite Hq, map_app in Hr.
    apply (app_same_length (map to_lower q) q); [apply length_map | exact Hr]. }
  rewrite map_rev, Hb. reflexivity.
Qed.

(** Sanitizing twice is sanitizing once. *)
Theorem sanitizeUsername_idempotent (username : string) :
  sanitizeUsername (sanitizeUsername username) = sanitizeUsername username.
Proof.
  destruct (String.eqb username "") eqn:E0.
  { apply String.eqb_eq in E0. subst username. reflexivity. }
  assert (Hs : sanitizeUsername username = trim (toLowerCase username)).
  { unfold sanitizeUsername. rewrite E0. reflexivity. }
  rewrite Hs. unfold sanitizeUsername.
  destruct (String.eqb (trim (toLowerCase username)) "") eqn:E.
  - apply String.eqb_eq in E. congruence.
  - unfold trim, toLowerCase.
    rewrite !list_ascii_of_string_of_list_ascii.
    set (l := list_ascii_of_string username).
    rewrite map_to_lower_trim.
    destruct (trim_list_clean (map to_lower l)) as [H1 H2].
    rewrite (trim_list_id _ H1 H2). reflexivity.
Qed.

(** ** Properties of [retry] *)

Import Retry.

(** The delays slept after failed attempts [first], [first + 1], ... *)
Definition backoff (delayMs : Z) (first count : nat) : list Z :=
  map (fun i => (delayMs * 2 ^ (Z.of_nat i - 1))%Z) (seq first count).

Lemma backoff_snoc delayMs first count :
  backoff delayMs first (S count)
  = backoff delayMs first count ++ [(delayMs * 2 ^ (Z.of_nat (first + count) - 1))%Z].
Proof.
  unfold backoff. rewrite seq_S, map_app. reflexivity.
Qed.

Section RetryFacts.

Context {A E : Type}.
Variable fn : nat -> A + E.
Variable maxAttempts : nat.
Variable delayMs : Z.

(** The loop, entered at [attempt] when the attempts before failed. *)
Lemma retry_loop_succeeds (k : nat) (v : A) :
  fn k = inl v ->
  (forall i, (i < k)%nat -> (1 <= i)%nat -> exists e, fn i = inr e) ->
  (k <= maxAttempts)%nat ->
  forall remaining attempt last,
    (1 <= attempt)%nat -> (attempt <= k)%nat ->
    (attempt + remaining = S maxAttempts)%nat ->
    retry_loop fn maxAttempts delayMs attempt remaining last
      (backoff delayMs 1 (attempt - 1))
    = {| result := inl v; calls := k; sleeps := backoff delayMs 1 (k - 1) |}.
Proof.
  intros Hk Hfail Hmax.
  induction remaining as [|remaining IH]; intros attempt last H1 Hle Hsum; [lia | ].
  cbn [retry_loop].
  destruct (Nat.eq_dec attempt k) as [->|Hne].
  - rewrite Hk. reflexivity.
  - destruct (Hfail attempt) as [e He]; [lia | lia | ]. rewrite He.
    assert (Hlt : (attempt <? maxAttempts)%nat = true) by (apply Nat.ltb_lt; lia).
    rewrite Hlt.
    replace (backoff delayMs 1 (attempt - 1) ++ [(delayMs * 2 ^ (Z.of_nat attempt - 1))%Z])
      with (backoff delayMs 1 (S attempt - 1)).
    + apply IH; lia.
    + replace (S attempt - 1)%nat with (S (attempt - 1)) by lia.
      rewrite backoff_snoc. replace (1 + (attempt - 1))%nat with attempt by lia.
      reflexivity.
Qed.

Lemma retry_loop_exhausted :
  (forall i, (1 <= i)%nat -> (i <= maxAttempts)%nat -> exists e, fn i = inr e) ->
  forall remaining attempt last,
    (1 <= attempt)%nat ->
    (attempt + remaining = S maxAttempts)%nat ->
    let r := retry_loop fn maxAttempts delayMs attempt remaining last
               (backoff delayMs 1 (Nat.min (attempt - 1) (maxAttempts - 1))) in
    calls r = maxAttempts
    /\ sleeps r = backoff delayMs 1 (maxAttempts - 1)
    /\ (result r = inr last /\ remaining = O
        \/ exists e, fn maxAttempts = inr e /\ result r = inr (Some e)).
Proof.
  intros Hfail.
  induction remaining as [|remaining IH]; intros attempt last H1 Hsum; cbn [retry_loop].
  - cbn [calls sleeps result].
    split; [lia | split; [ | left; split; reflexivity ] ].
    f_equal. lia.
  - destruct (Hfail attempt) as [e He]; [lia | lia | ]. rewrite He.
    assert (Hacc :
      (if (attempt <? maxAttempts)%nat
       then backoff delayMs 1 (Nat.min (attempt - 1) (maxAttempts - 1))
            ++ [(delayMs * 2 ^ (Z.of_nat attempt - 1))%Z]
       else backoff delayMs 1 (Nat.min (attempt - 1) (maxAttempts - 1)))
      = backoff delayMs 1 (Nat.min (S attempt - 1) (maxAttempts - 1))).
    { destruct (attempt <? maxAttempts)%nat eqn:Hlt.
      - apply Nat.ltb_lt in Hlt.
        replace (Nat.min (S attempt - 1) (maxAttempts - 1)) with (S (attempt - 1)) by lia.
        replace (Nat.min (attempt - 1) (maxAttempts - 1)) with (attempt - 1)%nat by lia.
        rewrite backoff_snoc. replace (1 + (attempt - 1))%nat with attempt by lia.
        reflexivity.
      - apply Nat.ltb_ge in Hlt. f_equal. lia. }
    rewrite Hacc.
    destruct (IH (S attempt) (Some e)) as (Hc & Hs & Hr); [lia | lia | ].
    split; [exact Hc | split; [exact Hs | ] ].
    right. destruct Hr as [[Hr Hz]|Hr]; [ | exact Hr].
    exists e. assert (attempt = maxAttempts) by lia. subst attempt.
    split; [exact He | exact Hr].
Qed.

End RetryFacts.

(** When the operation first succeeds at its [k]-th call, with [k] within
    [maxAttempts], [retry] returns that value after exactly [k] calls, having
    slept [delayMs * 2^(i-1)] after each failed call [i]. *)
Theorem retry_returns_first_success
    {A E : Type} (fn : nat -> A + E) (maxAttempts : nat) (delayMs : Z)
    (k : nat) (v : A) :
  (1 <= k)%nat -> (k <= maxAttempts)%nat ->
  fn k = inl v ->
  (forall i, (i < k)%nat -> (1 <= i)%nat -> exists e, fn i = inr e) ->
  retry fn maxAttempts delayMs
  = {| result := inl v; calls := k; sleeps := backoff delayMs 1 (k - 1) |}.
Proof.
  intros H1 Hmax Hk Hfail. unfold retry.
  apply (retry_loop_succeeds fn maxAttempts delayMs k v Hk Hfail Hmax
           maxAttempts 1%nat None); lia.
Qed.

Lemma retry_returns_first_success_witness :
  retry (fun i => if (i <? 3)%nat then inr i else inl "ok"%string) 5 1000
  = {| result := inl "ok"%string; calls := 3; sleeps := [1000; 2000]%Z |}.
Proof.
  apply (retry_returns_first_success
           (fun i => if (i <? 3)%nat then inr i else inl "ok"%string) 5 1000 3 "ok"%string).
  - lia.
  - lia.
  - reflexivity.
  - intros i Hi _. exists i.
    destruct (i <? 3)%nat eqn:E; [reflexivity | apply Nat.ltb_ge in E; lia].
Defined.

(** When every call fails, [retry] gives up after exactly [maxAttempts]
    calls and throws the error of the last one ([undefined] when
    [maxAttempts] is 0); it has slept after each failed call but the last,
    [maxAttempts - 1] delays in all. *)
Theorem retry_gives_up_after_maxAttempts
    {A E : Type} (fn : nat -> A + E) (maxAttempts : nat) (delayMs : Z) :
  (forall i, (1 <= i)%nat -> (i <= maxAttempts)%nat -> exists e, fn i = inr e) ->
  let r := retry fn maxAttempts delayMs in
  calls r = maxAttempts
  /\ sleeps r = backoff delayMs 1 (maxAttempts - 1)
  /\ (maxAttempts = O /\ result r = inr None
      \/ exists e, fn maxAttempts = inr e /\ result r = inr (Some e)).
Proof.
  intros Hfail r.
  destruct (retry_loop_exhausted fn maxAttempts delayMs Hfail maxAttempts 1%nat None)
    as (Hc & Hs & Hr); [lia | lia | ].
  cbn [Nat.sub Nat.min] in Hc, Hs, Hr.
  split; [exact Hc | split; [exact Hs | ] ].
  destruct Hr as [[Hr Hz]|Hr]; [left; split; [exact Hz | exact Hr] | right; exact Hr].
Qed.

Lemma retry_gives_up_after_maxAttempts_witness :
  let r := retry (fun i => @inr string nat i) 3 1000 in
  calls r = 3%nat
  /\ sleeps r = backoff 1000 1 (3 - 1)
  /\ (3%nat = O /\ result r = inr None
      \/ exists e, (fun i => @inr string nat i) 3%nat = inr e /\ result r = inr (Some e)).
Proof.
  apply (retry_gives_up_after_maxAttempts (fun i => @inr string nat i) 3 1000).
  intros i _ _. exists i. reflexivity.
Defined.

(** ** js/config.js: the swap button *)

Module SwapButton.

(** The [liquidity] object of [MarketManager]. *)
Record Liquidity := {
  hive : float;
  swapHive : float
}.

(** A number after [Utils.deepClone], that is through [JSON.stringify] and
    [JSON.parse]: NaN and the infinities come back as [null], and -0 as 0. *)
Definition json_number (x : float) : JS.value :=
  if is_finite x then Num (if x =? 0 then 0 else x) else Null.

(** [WalletManager.getBalances()[token]].  Under a name inherited from
    [Object.prototype] the clone holds a function, which [parseNumber] reads
    as its default, as it reads [undefined]. *)
Definition cloned_balance (w : Wallet) (token : string) : JS.value :=
  if String.eqb token "HIVE" then json_number (balance_HIVE w)
  else if String.eqb token "SWAP.HIVE" then json_number (balance_SWAP_HIVE w)
  else Undefined.

(** A number in a condition: [0], [-0] and NaN are falsy. *)
Definition falsy (x : float) : bool := is_nan x || (x =? 0).

Definition or_default (given : option string) (current : string) : string :=
  match given with
  | Some s => if String.eqb s "" then current else s
  | None => current
  end.

(** [validateSwapButton(inputAmount = null, inputFrom = null, inputTo = null)]:
    whether the button ends up enabled. *)
Definition validateSwapButton (cfg : Config) (fc : FeeConfig) (w : Wallet)
    (liquidity : Liquidity) (currentSwap : Swap)
    (inputAmount : option float) (inputFrom inputTo : option string) : bool :=
  let amount :=
    match inputAmount with Some a => a | None => amount currentSwap end in
  let fromToken := or_default inputFrom (from currentSwap) in
  let toToken := or_default inputTo (to currentSwap) in
  if falsy amount || negb (Utils.isPositiveNumber (Num amount)) || (amount <=? 0)
  then false
  else if amount <? MINIMUM_SWAP cfg then false
  else
    let availableBalance := Utils.parseNumber (cloned_balance w fromToken) 0 in
    if availableBalance <? amount then false
    else
      let expectedOutput :=
        out_expected (calculateExpectedOutput cfg fc amount fromToken toToken) in
      let availableLiquidity :=
        Utils.parseNumber
          (json_number (if String.eqb toToken "HIVE" then hive liquidity
                        else swapHive liquidity)) 0 in
      if availableLiquidity <? expectedOutput then false else true.

End SwapButton.

(** ** Properties of the numeric parsing and of the fee document *)

Import FeeDocument SwapButton.

Lemma parseNumber_default_not_nan (value : JS.value) (defaultValue : float) :
  is_nan defaultValue = false ->
  is_nan (Utils.parseNumber value defaultValue) = false.
Proof.
  intros Hd. unfold Utils.parseNumber, isNaN.
  destruct value as [ | |x|s]; try exact Hd.
  - destruct (is_nan x) eqn:E; [exact Hd | exact E].
  - destruct (String.eqb s ""); [exact Hd | ].
    destruct (is_nan (parseFloat s)) eqn:E; [exact Hd | exact E].
Qed.

(** [parseNumber] never yields NaN unless the default it is given is NaN:
    what it returns is the default or a number that is not NaN. *)
Theorem parseNumber_never_NaN (value : JS.value) (defaultValue : float) :
  is_nan defaultValue = false ->
  is_nan (Utils.parseNumber value defaultValue) = false.
Proof. exact (parseNumber_default_not_nan value defaultValue). Qed.

Lemma parseNumber_never_NaN_witness :
  is_nan (Utils.parseNumber (Str "12.5 HIVE") 0) = false.
Proof.
  apply (parseNumber_never_NaN (Str "12.5 HIVE") 0). reflexivity.
Defined.

Definition no_NaN (fc : FeeConfig) : Prop :=
  is_nan (BASE_FEE fc) = false
  /\ is_nan (MIN_BASE_FEE fc) = false
  /\ is_nan (DIFF_COEFFICIENT fc) = false
  /\ is_nan (BASE_PRICE_HIVE_TO_SHIVE fc) = false.

(** The values that leave a field as it is: a missing field, [null], the
    empty text, a text that [parseFloat] cannot read, and any other value
    whose number is NaN. *)
Definition unusable (v : JS.any) : Prop :=
  v = Prim PUndefined \/ v = Prim PNull \/ v = Prim (PStr "")
  \/ (exists s, v = Prim (PStr s) /\ is_nan (parseFloat s) = true)
  \/ ((forall s, v <> Prim (PStr s))
      /\ exists x, ToNumber v = Returns x /\ is_nan x = true).

(** What one assignment of [fetchFeeConfig] does to a field that holds
    [current], for the value [v] of the document: [new] is the field
    afterwards. *)
Definition field_rule (v : JS.any) (current new : float) : Prop :=
  (unusable v -> new = current)
  /\ (forall s, v = Prim (PStr s) -> s <> ""%string ->
      is_nan (parseFloat s) = false -> new = parseFloat s)
  /\ (forall x, (forall s, v <> Prim (PStr s)) -> v <> Prim PNull ->
      ToNumber v = Returns x -> is_nan x = false -> new = x).

Lemma assigned_not_nan (v : JS.any) (current x : float) :
  is_nan current = false -> assigned v current = Returns x -> is_nan x = false.
Proof.
  intros Hc. unfold assigned, Utils.Dyn.parseNumber, Utils.Dyn.or_default, isNaN.
  destruct v as [[ | |b|y|s|z| ]|[p|]]; cbn [and_then ToNumber ToPrimitive ToNumber_prim];
    try (intros H; injection H as <-; exact Hc); try discriminate.
  - destruct b; intros H; injection H as <-; reflexivity.
  - destruct (is_nan y) eqn:E; cbn [and_then ToNumber ToPrimitive ToNumber_prim];
      intros H; injection H as <-; assumption.
  - destruct (String.eqb s ""); [intros H; injection H as <-; exact Hc | ].
    destruct (is_nan (parseFloat s)) eqn:E;
      cbn [and_then ToNumber ToPrimitive ToNumber_prim];
      intros H; injection H as <-; assumption.
  - destruct (ToNumber_prim p) as [n|] eqn:En; cbn [and_then]; [ | discriminate ].
    destruct (is_nan n) eqn:E; cbn [and_then ToNumber ToPrimitive ToNumber_prim].
    + intros H; injection H as <-; exact Hc.
    + rewrite En. intros H; injection H as <-. exact E.
Qed.

Lemma assigned_rule (v : JS.any) (current x : float) :
  assigned v current = Returns x -> field_rule v current x.
Proof.
  unfold assigned, Utils.Dyn.parseNumber, Utils.Dyn.or_default, isNaN, field_rule, unusable.
  intros H. split; [ | split ].
  - intros [->|[->|[->|[(s & -> & Hs)|(Hns & y & Hy & Hnan)]]]];
      cbn [and_then ToNumber ToPrimitive ToNumber_prim String.eqb] in H;
      try (injection H as <-; reflexivity).
    + rewrite Hs in H. destruct (String.eqb s "");
        cbn [and_then ToNumber ToPrimitive ToNumber_prim] in H;
        injection H as <-; reflexivity.
    + destruct v as [[ | |b|z|s|z| ]|[p|]];
        try (cbn [and_then ToNumber ToPrimitive ToNumber_prim] in H;
             injection H as <-; reflexivity);
        try (exfalso; apply (Hns s); reflexivity);
        rewrite Hy in H; cbn [and_then] in H; rewrite Hnan in H;
        cbn [and_then ToNumber ToPrimitive ToNumber_prim] in H;
        injection H as <-; reflexivity.
  - intros s -> Hne Hs. apply String.eqb_neq in Hne. rewrite Hne, Hs in H.
    cbn [and_then ToNumber ToPrimitive ToNumber_prim] in H.
    injection H as <-. reflexivity.
  - intros y Hns Hnull Hy Hnan.
    destruct v as [[ | |b|z|s|z| ]|[p|]];
      try congruence; try (exfalso; apply (Hns s); reflexivity);
      try (cbn in Hy; injection Hy as <-; discriminate Hnan);
      rewrite Hy in H; cbn [and_then] in H; rewrite Hnan in H;
      cbn [and_then] in H; congruence.
Qed.

Lemma assigned_convertible (v : JS.any) (current : float) :
  convertible v = true -> exists x, assigned v current = Returns x.
Proof.
  unfold convertible, assigned, Utils.Dyn.parseNumber, Utils.Dyn.or_default, isNaN.
  destruct v as [[ | |b|y|s|z| ]|[p|]];
    cbn [and_then ToNumber ToPrimitive ToNumber_prim]; try discriminate; eauto.
  - destruct (is_nan (if b then one else zero)); cbn; eauto.
  - destruct (is_nan y); cbn; eauto.
  - intros _. destruct (String.eqb s ""); cbn; eauto.
    destruct (is_nan (parseFloat s)); cbn; eauto.
  - destruct (ToNumber_prim p) as [n|] eqn:En; [ | discriminate ]. intros _.
    cbn [and_then]. destruct (is_nan n); cbn [and_then ToNumber ToPrimitive];
      rewrite ?En; cbn; eauto.
Qed.

(** Refreshing the fee configuration never installs NaN: if no field of the
    configuration is NaN before [fetchFeeConfig], none is after it, whatever
    the server answers.  A failed request or an answer without data leaves
    the configuration as it is.  For a document whose four values convert
    to numbers without throwing (as every JSON value does), each field
    follows [field_rule]: a value that is missing, [null], the empty text, a
    text that [parseFloat] cannot read, or of which the number is NaN leaves
    the field as it is; the number read off a text by [parseFloat] is
    installed; and every other value is installed with its number, a boolean
    ([true] is 1) or an array with one numeric element included. *)
Theorem fetchFeeConfig_keeps_numbers
    (feeConfig : FeeConfig) (response : option (option FeeData)) :
  no_NaN feeConfig ->
  no_NaN (fetchFeeConfig feeConfig response)
  /\ (response = None \/ response = Some None ->
      fetchFeeConfig feeConfig response = feeConfig)
  /\ (forall data, response = Some (Some data) ->
      convertible (d_BASE_FEE data) = true ->
      convertible (d_MIN_BASE_FEE data) = true ->
      convertible (d_DIFF_COEFFICIENT data) = true ->
      convertible (d_BASE_PRICE_HIVE_TO_SHIVE data) = true ->
      let after := fetchFeeConfig feeConfig response in
      field_rule (d_BASE_FEE data) (BASE_FEE feeConfig) (BASE_FEE after)
      /\ field_rule (d_MIN_BASE_FEE data) (MIN_BASE_FEE feeConfig) (MIN_BASE_FEE after)
      /\ field_rule (d_DIFF_COEFFICIENT data) (DIFF_COEFFICIENT feeConfig)
           (DIFF_COEFFICIENT after)
      /\ field_rule (d_BASE_PRICE_HIVE_TO_SHIVE data)
           (BASE_PRICE_HIVE_TO_SHIVE feeConfig) (BASE_PRICE_HIVE_TO_SHIVE after)).
Proof.
  intros (H1 & H2 & H3 & H4). split; [ | split ].
  - destruct response as [[data|]|]; cbn [fetchFeeConfig];
      [ | repeat split; assumption | repeat split; assumption ].
    destruct (assigned (d_BASE_FEE data) _) as [b|] eqn:E1;
      [ | repeat split; assumption ].
    cbn [BASE_FEE MIN_BASE_FEE DIFF_COEFFICIENT BASE_PRICE_HIVE_TO_SHIVE].
    pose proof (assigned_not_nan _ _ _ H1 E1) as N1.
    destruct (assigned (d_MIN_BASE_FEE data) _) as [m|] eqn:E2;
      [ | repeat split; assumption ].
    pose proof (assigned_not_nan _ _ _ H2 E2) as N2.
    destruct (assigned (d_DIFF_COEFFICIENT data) _) as [c|] eqn:E3;
      [ | repeat split; assumption ].
    pose proof (assigned_not_nan _ _ _ H3 E3) as N3.
    destruct (assigned (d_BASE_PRICE_HIVE_TO_SHIVE data) _) as [q|] eqn:E4;
      [ | repeat split; assumption ].
    pose proof (assigned_not_nan _ _ _ H4 E4) as N4.
    repeat split; assumption.
  - intros [->| ->]; reflexivity.
  - intros data -> C1 C2 C3 C4. cbn [fetchFeeConfig].
    destruct (assigned_convertible _ (BASE_FEE feeConfig) C1) as [b E1].
    destruct (assigned_convertible _ (MIN_BASE_FEE feeConfig) C2) as [m E2].
    destruct (assigned_convertible _ (DIFF_COEFFICIENT feeConfig) C3) as [c E3].
    destruct (assigned_convertible _ (BASE_PRICE_HIVE_TO_SHIVE feeConfig) C4) as [q E4].
    rewrite E1. cbn [BASE_FEE MIN_BASE_FEE DIFF_COEFFICIENT BASE_PRICE_HIVE_TO_SHIVE].
    rewrite E2, E3, E4.
    cbn [BASE_FEE MIN_BASE_FEE DIFF_COEFFICIENT BASE_PRICE_HIVE_TO_SHIVE].
    split; [ | split; [ | split ] ]; apply assigned_rule; assumption.
Qed.

(** A document with a text, a boolean, an array holding 0.5 and a missing
    field. *)
Definition fee_document : FeeData := {|
  d_BASE_FEE := Prim (PStr "0.003");
  d_MIN_BASE_FEE := Prim (PBool true);
  d_DIFF_COEFFICIENT := Object (Some (PStr "0.5"));
  d_BASE_PRICE_HIVE_TO_SHIVE := Prim PUndefined
|}.

Lemma fetchFeeConfig_keeps_numbers_witness :
  no_NaN (fetchFeeConfig defaultFeeConfig (Some (Some fee_document)))
  /\ fetchFeeConfig defaultFeeConfig (Some (Some fee_document))
     = {| BASE_FEE := 0.003; MIN_BASE_FEE := 1; DIFF_COEFFICIENT := 0.5;
          BASE_PRICE_HIVE_TO_SHIVE := 1 |}.
Proof.
  split; [ | vm_compute; reflexivity ].
  apply (fetchFeeConfig_keeps_numbers defaultFeeConfig).
  repeat split; reflexivity.
Defined.

(** ** The swap button and the validation of a submission *)

(** When the button is enabled for the current quote and a user is loaded,
    the validation that [executeSwap] runs passes: an enabled button never
    leads to a validation error at submission. *)
Theorem enabled_button_passes_validateSwap
    (cfg : Config) (fc : FeeConfig) (w : Wallet) (liquidity : Liquidity)
    (currentSwap : Swap) (user : string) :
  validateSwapButton cfg fc w liquidity currentSwap None None None = true ->
  currentUser w = Some user -> user <> EmptyString ->
  validateSwap cfg w currentSwap = true.
Proof.
  unfold validateSwapButton, or_default. intros H Hu Hne.
  set (a := amount currentSwap) in *.
  destruct (falsy a) eqn:Hf; [discriminate | ].
  destruct (Utils.isPositiveNumber (Num a)) eqn:Hp; [ | discriminate ].
  destruct (a <=? 0) eqn:Hle; [discriminate | ]. cbn [negb orb] in H.
  destruct (a <? MINIMUM_SWAP cfg) eqn:Hmin; [discriminate | ].
  destruct (Utils.parseNumber (cloned_balance w (from currentSwap)) 0 <? a) eqn:Hb;
    [discriminate | ].
  clear H. unfold falsy in Hf. apply orb_false_elim in Hf. destruct Hf as [Hnan Hz].
  assert (Hnum : Utils.parseNumber (Num a) 0 = a).
  { unfold Utils.parseNumber, isNaN. rewrite Hnan. reflexivity. }
  assert (Hpos : (0 <? a) = true).
  { unfold Utils.isPositiveNumber in Hp. rewrite Hnum in Hp.
    apply andb_prop in Hp. tauto. }
  unfold validateSwap. rewrite Hu.
  destruct (String.eqb_spec user ""); [congruence | ].
  assert (Hbal : exists b, ToNumber (getBalance w (from currentSwap)) = Returns b
                           /\ (b <? a) = false).
  { revert Hb. unfold getBalance, cloned_balance, json_number, number_or_zero.
    assert (Hcase : forall b,
              (Utils.parseNumber
                 (if is_finite b then Num (if b =? 0 then 0 else b) else Null) 0 <? a)
              = false ->
              ((if is_nan b || (b =? 0) then 0 else b) <? a) = false).
    { intros b. unfold is_finite.
      destruct (is_nan b) eqn:En; cbn [orb negb].
      - cbn [Utils.parseNumber]. trivial.
      - destruct (is_infinity b) eqn:Ei; cbn [negb].
        + cbn [Utils.parseNumber]. congruence.
        + unfold Utils.parseNumber, isNaN.
          destruct (b =? 0) eqn:Ez.
          * change (is_nan 0) with false. cbn. trivial.
          * rewrite En. trivial. }
    destruct (String.eqb (from currentSwap) "HIVE");
      [intros H; eexists; split; [reflexivity | apply Hcase, H] | ].
    destruct (String.eqb (from currentSwap) "SWAP.HIVE");
      [intros H; eexists; split; [reflexivity | apply Hcase, H] | ].
    cbn [Utils.parseNumber]. congruence. }
  destruct Hbal as (b & -> & Hbal).
  unfold Utils.validateSwapAmount. fold a. rewrite Hnum, Hp, Hmin, Hbal. reflexivity.
Qed.

Lemma enabled_button_passes_validateSwap_witness :
  validateSwap CONFIG alice_wallet alice_quote = true.
Proof.
  apply (enabled_button_passes_validateSwap CONFIG defaultFeeConfig alice_wallet
           {| hive := 24900; swapHive := 24900 |} alice_quote "alice");
    [ vm_compute; reflexivity | reflexivity | discriminate ].
Defined.

(** ** Submission: what [executeSwap] records *)

(** [executeSwap] writes to the history only when the signing extension
    accepted the request and answered with a transaction id: whenever it
    returns [false] the history is untouched; when the validation fails or
    the extension is missing no request is made at all; and a changed
    history is the old one with a record added by [addSwapToHistory] for
    the returned id and the user loaded when the swap was validated.  The
    amount and the input token of that record are those of [currentSwap]
    when the extension has answered, whatever the request said: the
    handlers of the input fields may have replaced the quote meanwhile. *)
Theorem executeSwap_records_only_accepted
    (cfg : Config) (w : Wallet) (currentSwap : Swap)
    (keychain : option (KeychainRequest -> KeychainResponse))
    (later : Swap) (now : Z) (history : list SwapRecord) :
  let sub := executeSwap cfg w currentSwap keychain later now history in
  (ok sub = false -> stored sub = history)
  /\ (validateSwap cfg w currentSwap = false \/ keychain = None ->
      requested sub = None /\ ok sub = false)
  /\ (stored sub = history
      \/ exists sign request txId user,
           keychain = Some sign
           /\ requested sub = Some request
           /\ sign request = {| success := true; transactionId := Some txId |}
           /\ currentUser w = Some user
           /\ stored sub
              = addSwapToHistory now history txId (amount later) (from later) user).
Proof.
  unfold executeSwap.
  destruct (validateSwap cfg w currentSwap) eqn:Hv; cbn [negb].
  2:{ cbn. repeat split; auto. }
  set (request := if String.eqb (from currentSwap) "HIVE" then _ else _).
  destruct keychain as [sign|]; cbn zeta.
  2:{ cbn. repeat split; auto. }
  destruct (sign request) as [[|] [txId|]] eqn:Hs;
    cbn [success transactionId ok stored requested].
  - split; [intros H; discriminate H | split ].
    + intros [H|H]; discriminate H.
    + right. unfold validateSwap in Hv.
      destruct (currentUser w) as [user|] eqn:Hu; [ | discriminate Hv ].
      exists sign, request, txId, user. auto.
  - split; [intros H; discriminate H
           | split; [intros [H|H]; discriminate H | left; reflexivity] ].
  - split; [reflexivity | split; [intros [H|H]; discriminate H | left; reflexivity] ].
  - split; [reflexivity | split; [intros [H|H]; discriminate H | left; reflexivity] ].
Qed.

(** Alice's request for 100 SWAP.HIVE is accepted while the amount field has
    been changed to 5 HIVE: the record says 5 HIVE. *)
Lemma record_follows_the_later_quote :
  let later :=
    updateSwapCalculation CONFIG defaultFeeConfig (Num 5) "HIVE" "SWAP.HIVE" (Str "0.01") in
  let sub := executeSwap CONFIG alice_wallet alice_quote alice_keychain later 0 [] in
  requested sub = Some alice_request
  /\ map amountSent (stored sub) = ["5.000 HIVE"%string]
  /\ map txIdSent (stored sub) = ["abc123"%string].
Proof.
  repeat split; vm_compute; reflexivity.
Qed.

(** ** Reconciliation: what a pass leaves alone *)

(** When a pass ends, the store holds the array that the pass read when it
    started, entry for entry: no entry of that array is added, dropped or
    moved, the entries of other users are as they were read, and what
    identifies a swap (time, submitted id and amount, tokens, user) is as it
    was read.  What the store held just before the pass ended plays no part:
    an entry added, and an update written, since the pass started are gone.
    What the pass returns are at most ten records, all of the user and all
    in the array written. *)
Theorem loadSwapHistory_frame
    (cfg : Config) (b : Browser) (n : nat) (env : Env) (p : Pass) :
  nth_error (passes b) n = Some p ->
  let u := pass_username p in
  let after := step cfg b (PassEnds n env) in
  let returned := fst (fst (loadSwapHistory cfg env u (snapshot p) [])) in
  Forall2 (kept u) (snapshot p) (swapHistory after)
  /\ (forall store,
       swapHistory (step cfg {| swapHistory := store; passes := passes b |}
                      (PassEnds n env))
       = swapHistory after)
  /\ (List.length returned <= 10)%nat
  /\ Forall (fun r => owned_by u r = true /\ In r (swapHistory after)) returned.
Proof.
  intros Hp u after returned. subst after returned.
  cbn [step passes]. rewrite Hp. cbn [swapHistory]. unfold written. fold u.
  split; [apply loadSwapHistory_kept | split; [reflexivity | ] ].
  unfold loadSwapHistory. destruct (String.eqb u "").
  - cbn. split; [lia | constructor].
  - unfold bind, ret.
    destruct (check_all cfg env u (snapshot p) []) as [h l]. cbn [fst snd].
    split; [rewrite length_firstn; lia | ].
    apply Forall_forall. intros r Hr.
    assert (Hin : In r (filter (owned_by u) h)).
    { rewrite <- (firstn_skipn 10 (filter (owned_by u) h)).
      apply in_or_app. left. exact Hr. }
    apply filter_In in Hin. tauto.
Qed.

(** Alice's pass is under way when bob's swap is added to the store; the
    pass ends and writes what it read, without bob's record. *)
Lemma loadSwapHistory_frame_witness :
  let b :=
    step CONFIG (step CONFIG alice_store (LoadSwapHistory "alice"))
      (AddSwapToHistory 5 "b0b001" 7 "SWAP.HIVE" "bob" None) in
  let after := step CONFIG b (PassEnds 0 (env_quiet 20)) in
  (map username (swapHistory b) = ["bob"; "alice"]%string
   /\ map username (swapHistory after) = ["alice"%string])
  /\ Forall2 (kept "alice") [alice_pending] (swapHistory after).
Proof.
  split; [split; reflexivity | ].
  apply (loadSwapHistory_frame CONFIG
           (step CONFIG (step CONFIG alice_store (LoadSwapHistory "alice"))
              (AddSwapToHistory 5 "b0b001" 7 "SWAP.HIVE" "bob" None))
           0 (env_quiet 20)
           {| pass_username := "alice"; snapshot := [alice_pending] |}).
  reflexivity.
Defined.

(** A pass over a history in which the user has no pending entry and no
    placeholder to replace calls neither ledger nor the clock and leaves the
    store exactly as it is; so does every pass for an empty user name. *)
Theorem loadSwapHistory_settled_is_silent
    (cfg : Config) (env : Env) (u : string)
    (stored : list SwapRecord) (log : list Call) :
  u = EmptyString \/ forallb (fun r => negb (needs_lookup u r)) stored = true ->
  snd (loadSwapHistory cfg env u stored log) = log
  /\ snd (fst (loadSwapHistory cfg env u stored log)) = stored
  /\ fst (fst (loadSwapHistory cfg env u stored log))
     = if String.eqb u "" then [] else firstn 10 (filter (owned_by u) stored).
Proof.
  intros H. unfold loadSwapHistory.
  destruct (String.eqb_spec u "") as [Hu|Hu]; [repeat split | ].
  destruct H as [H|H]; [congruence | ].
  unfold bind, ret. rewrite (check_all_nothing cfg env u stored H). repeat split.
Qed.

Definition alice_completed : SwapRecord :=
  set_completed alice_pending
    {| f_amount := "99.791 SWAP.HIVE"; f_txId := "def456";
       f_swappedQty := None; f_swappedPrice := None; f_memo := "abc123" |}.

Lemma loadSwapHistory_settled_is_silent_witness :
  snd (loadSwapHistory CONFIG (env_down 60000) "alice" [alice_completed] []) = []
  /\ snd (fst (loadSwapHistory CONFIG (env_down 60000) "alice" [alice_completed] []))
     = [alice_completed]
  /\ fst (fst (loadSwapHistory CONFIG (env_down 60000) "alice" [alice_completed] []))
     = if String.eqb "alice" "" then []
       else firstn 10 (filter (owned_by "alice") [alice_completed]).
Proof.
  apply (loadSwapHistory_settled_is_silent CONFIG (env_down 60000) "alice"
           [alice_completed] []).
  right. reflexivity.
Defined.

(** ** Reconciliation: which transfer settles a swap *)

(** Whether an entry of the bridge history is a transfer from the bridge to
    [u] whose memo contains [tx]. *)
Definition settles (cfg : Config) (u tx : string) (item : HistoryItem) : bool :=
  match op item with
  | Some (Transfer from to _ memo) =>
      String.eqb from (BRIDGE_USER cfg) && String.eqb to u && includes memo tx
  | _ => false
  end.

Definition found_in (item : HistoryItem) (amount memo : string) : Found :=
  {| f_amount := amount;
     f_txId := trx_id item;
     f_swappedQty := match_labelled "Swapped Qty" memo;
     f_swappedPrice := match_labelled "Swapped Price" memo;
     f_memo := memo |}.

Lemma scan_transfers_skip cfg u tx (l1 l2 : list HistoryItem) :
  Forall (fun it => is_transfer_to cfg u it = true) l1 ->
  Forall (fun it => settles cfg u tx it = false) l1 ->
  scan_transfers tx (l1 ++ l2) = scan_transfers tx l2.
Proof.
  induction l1 as [|it l1 IH]; intros Ht Hs; [reflexivity | ].
  inversion Ht as [|? ? Hit Ht']; inversion Hs as [|? ? His Hs']; subst.
  cbn [app scan_transfers]. unfold is_transfer_to in Hit. unfold settles in His.
  destruct (op it) as [[from to amount memo|id json|type]|]; try discriminate.
  rewrite Hit in His. cbn [andb] in His. rewrite His. apply IH; assumption.
Qed.

(** When several transfers of the bridge history could settle a swap,
    [checkUswapHiveTransfers] reports the newest one: the entry that
    matches (a transfer from the bridge to the user whose memo contains the
    submitted id) and is followed by no other match. *)
Theorem checkUswapHiveTransfers_reports_newest
    (cfg : Config) (env : Env) (tx u : string) (log : list Call)
    (older newer : list HistoryItem) (item : HistoryItem) (amount memo : string) :
  getAccountHistoryAsync env (List.length log) = Some (older ++ item :: newer) ->
  op item = Some (Transfer (BRIDGE_USER cfg) u amount memo) ->
  includes memo tx = true ->
  Forall (fun it => settles cfg u tx it = false) newer ->
  fst (checkUswapHiveTransfers cfg env tx u log) = Some (found_in item amount memo).
Proof.
  intros Hh Hop Hm Hnew.
  unfold checkUswapHiveTransfers, bind, call, ret. rewrite Hh. cbn [fst].
  rewrite filter_app. cbn [filter].
  assert (Hit : is_transfer_to cfg u item = true).
  { unfold is_transfer_to. rewrite Hop, !String.eqb_refl. reflexivity. }
  rewrite Hit, rev_app_distr. cbn [rev]. rewrite <- app_assoc. cbn [app].
  rewrite (scan_transfers_skip cfg u tx).
  - cbn [scan_transfers]. rewrite Hop, Hm. reflexivity.
  - apply Forall_forall. intros it Hin. apply in_rev, filter_In in Hin. tauto.
  - apply Forall_forall. intros it Hin. apply in_rev, filter_In in Hin.
    rewrite Forall_forall in Hnew. apply Hnew. tauto.
Qed.

Definition two_payments : Env := {|
  getAccountHistoryAsync := fun _ =>
    Some [ {| trx_id := "old111";
              op := Some (Transfer "uswap" "alice" "1.000 HIVE" "abc123") |};
           {| trx_id := "new222";
              op := Some (Transfer "uswap" "alice" "2.000 HIVE" "refund abc123") |};
           {| trx_id := "other3";
              op := Some (Transfer "uswap" "bob" "3.000 HIVE" "abc123") |} ];
  getTransactionAsync := fun _ _ => TxFound;
  ssc_ready := true;
  getTransactionInfo := fun _ _ => InfoNull;
  Date_now := fun _ => 0%Z
|}.

Lemma checkUswapHiveTransfers_reports_newest_witness :
  fst (checkUswapHiveTransfers CONFIG two_payments "abc123" "alice" [])
  = Some (found_in
            {| trx_id := "new222";
               op := Some (Transfer "uswap" "alice" "2.000 HIVE" "refund abc123") |}
            "2.000 HIVE" "refund abc123").
Proof.
  apply (checkUswapHiveTransfers_reports_newest CONFIG two_payments "abc123" "alice" []
           [ {| trx_id := "old111";
                op := Some (Transfer "uswap" "alice" "1.000 HIVE" "abc123") |} ]
           [ {| trx_id := "other3";
                op := Some (Transfer "uswap" "bob" "3.000 HIVE" "abc123") |} ]).
  - reflexivity.
  - reflexivity.
  - reflexivity.
  - repeat constructor.
Defined.

Lemma scan_transfers_memo tx items found :
  scan_transfers tx items = Some found -> includes (f_memo found) tx = true.
Proof.
  induction items as [|item rest IH]; cbn [scan_transfers]; [discriminate | ].
  destruct (op item) as [[from to amount memo|id json|type]|]; try exact IH.
  destruct (includes memo tx) eqn:E; [ | exact IH ].
  intros H. injection H as <-. exact E.
Qed.

Lemma scan_engine_memo tx u items found :
  scan_engine tx u items = Some found -> includes (f_memo found) tx = true.
Proof.
  induction items as [|item rest IH]; cbn [scan_engine]; [discriminate | ].
  destruct (op item) as [[from to amount memo|id [json|]|type]|]; try exact IH.
  destruct (contractPayload json) as [payload|]; [ | exact IH ].
  destruct (_ && includes (p_memo payload) tx) eqn:E; [ | exact IH ].
  intros H. injection H as <-. cbn [f_memo].
  apply andb_prop in E. tauto.
Qed.

Lemma check_for_memo cfg env token tx u log found :
  fst (check_for cfg env token tx u log) = Some found ->
  includes (f_memo found) tx = true.
Proof.
  unfold check_for, checkUswapHiveTransfers, checkUswapEngineTransfers, bind, call, ret.
  destruct (String.eqb token "HIVE");
    destruct (getAccountHistoryAsync env (List.length log)); cbn [fst];
    try discriminate; [apply scan_transfers_memo | apply scan_engine_memo].
Qed.

(** The three ways a pass over a pending record can go. *)
Lemma check_swap_pending_cases cfg env u swap log :
  status swap = "pending"%string ->
  (exists found,
     fst (check_for cfg env (toToken swap) (txIdSent swap) u log) = Some found
     /\ fst (check_swap cfg env u swap log) = set_completed swap found)
  \/ (exists found,
        fst (check_for cfg env (fromToken swap) (txIdSent swap) u
               (GetAccountHistory (BRIDGE_USER cfg) :: log)) = Some found
        /\ fst (check_swap cfg env u swap log) = set_refunded swap found)
  \/ check_swap cfg env u swap log = unresolved_pass cfg env swap log.
Proof.
  intros Hp.
  destruct (fst (check_for cfg env (toToken swap) (txIdSent swap) u log))
    as [r1|] eqn:E1.
  { left. exists r1. split; [reflexivity | ].
    unfold check_swap, bind at 1. rewrite (backfill_pending _ _ _ _ _ Hp).
    unfold resolve_pending. rewrite Hp. cbn [String.eqb Ascii.eqb Bool.eqb].
    unfold bind at 1.
    destruct (check_for cfg env (toToken swap) (txIdSent swap) u log) as [r l].
    cbn [fst] in E1. subst r. reflexivity. }
  destruct (fst (check_for cfg env (fromToken swap) (txIdSent swap) u
                   (GetAccountHistory (BRIDGE_USER cfg) :: log))) as [r2|] eqn:E2.
  { right. left. exists r2. split; [reflexivity | ].
    unfold check_swap, bind at 1. rewrite (backfill_pending _ _ _ _ _ Hp).
    unfold resolve_pending. rewrite Hp. cbn [String.eqb Ascii.eqb Bool.eqb].
    unfold bind at 1.
    pose proof (check_for_log cfg env (toToken swap) (txIdSent swap) u log) as L1.
    destruct (check_for cfg env (toToken swap) (txIdSent swap) u log) as [r l].
    cbn [fst snd] in E1, L1. subst r l. unfold bind at 1.
    destruct (check_for cfg env (fromToken swap) (txIdSent swap) u
                (GetAccountHistory (BRIDGE_USER cfg) :: log)) as [r l].
    cbn [fst] in E2. subst r. reflexivity. }
  right. right. apply check_swap_unresolved; assumption.
Qed.

Lemma unresolved_pass_status cfg env swap log :
  status swap = "pending"%string ->
  status (fst (unresolved_pass cfg env swap log)) = "pending"%string
  \/ status (fst (unresolved_pass cfg env swap log)) = "not-sent"%string.
Proof.
  intros Hp. unfold unresolved_pass. destruct (_ && _); [ | left; exact Hp ].
  cbv zeta. destruct (verifyTransactionExists _ _ _ _) as [[|] l]; cbn [fst negb];
    [left; exact Hp | right; reflexivity].
Qed.

(** A pending record is marked [completed] or [refunded] only on evidence:
    the look-up on the ledger of the output token (for [completed]) or of the
    input token (for [refunded]) reported an operation of the bridge whose
    memo contains the id of the submitted transaction, and the record takes
    its [txIdReceived] and [amountReceived] from that operation. *)
Theorem settled_status_has_evidence
    (cfg : Config) (env : Env) (u : string) (swap : SwapRecord) (log : list Call) :
  status swap = "pending"%string ->
  let swap' := fst (check_swap cfg env u swap log) in
  (status swap' = "completed"%string ->
   exists found,
     fst (check_for cfg env (toToken swap) (txIdSent swap) u log) = Some found
     /\ txIdReceived swap' = Some (f_txId found)
     /\ amountReceived swap' = Some (f_amount found)
     /\ includes (f_memo found) (txIdSent swap) = true)
  /\ (status swap' = "refunded"%string ->
      exists found,
        fst (check_for cfg env (fromToken swap) (txIdSent swap) u
               (GetAccountHistory (BRIDGE_USER cfg) :: log)) = Some found
        /\ txIdReceived swap' = Some (f_txId found)
        /\ amountReceived swap' = Some (f_amount found)
        /\ includes (f_memo found) (txIdSent swap) = true).
Proof.
  intros Hp swap'. subst swap'.
  destruct (check_swap_pending_cases cfg env u swap log Hp)
    as [(f & Hf & ->)|[(f & Hf & ->)| ->]].
  - split; [ | intros H; discriminate H ]. intros _. exists f.
    repeat split; [exact Hf | apply (check_for_memo _ _ _ _ _ _ _ Hf)].
  - split; [intros H; discriminate H | ]. intros _. exists f.
    repeat split; [exact Hf | apply (check_for_memo _ _ _ _ _ _ _ Hf)].
  - destruct (unresolved_pass_status cfg env swap log Hp) as [H|H];
      rewrite H; split; intros H'; discriminate H'.
Qed.

(** Alice's pending swap when the side-chain history of the bridge holds a
    payment to her whose memo names the submitted transaction. *)
Lemma settled_status_has_evidence_witness :
  let env := bridge_paid_engine "Swap of abc123" in
  let swap' := fst (check_swap CONFIG env "alice" alice_pending []) in
  (status swap' = "completed"%string
   /\ txIdReceived swap' = Some "def456"%string
   /\ amountReceived swap' = Some "99.799 SWAP.HIVE"%string)
  /\ (status swap' = "completed"%string ->
      exists found,
        fst (check_for CONFIG env "SWAP.HIVE" "abc123" "alice" []) = Some found
        /\ txIdReceived swap' = Some (f_txId found)
        /\ amountReceived swap' = Some (f_amount found)
        /\ includes (f_memo found) "abc123" = true)
  /\ (status swap' = "refunded"%string ->
      exists found,
        fst (check_for CONFIG env "HIVE" "abc123" "alice"
               [GetAccountHistory "uswap"]) = Some found
        /\ txIdReceived swap' = Some (f_txId found)
        /\ amountReceived swap' = Some (f_amount found)
        /\ includes (f_memo found) "abc123" = true).
Proof.
  split; [repeat split; reflexivity | ].
  apply (settled_status_has_evidence CONFIG (bridge_paid_engine "Swap of abc123")
           "alice" alice_pending []).
  reflexivity.
Defined.

(** When the side-chain client is not set ([APIManager.getSSC()] is null),
    the existence check of a swap sent in SWAP.HIVE answers "absent" without
    asking anything: a pending record of that kind whose settlement and
    refund are not found, and whose age is inside the window, is marked
    [not-sent] although no existence query was made. *)
Theorem missing_client_marks_not_sent
    (cfg : Config) (env : Env) (u : string) (swap : SwapRecord) (log : list Call) :
  status swap = "pending"%string ->
  fromToken swap <> "HIVE"%string ->
  ssc_ready env = false ->
  fst (check_for cfg env (toToken swap) (txIdSent swap) u log) = None ->
  fst (check_for cfg env (fromToken swap) (txIdSent swap) u
         (GetAccountHistory (BRIDGE_USER cfg) :: log)) = None ->
  (30000 < Date_now env (S (S (List.length log))) - timestamp swap < 600000)%Z ->
  check_swap cfg env u swap log
  = (set_status swap "not-sent",
     DateNow :: GetAccountHistory (BRIDGE_USER cfg)
       :: GetAccountHistory (BRIDGE_USER cfg) :: log).
Proof.
  intros Hp Hfrom Hssc H1 H2 Hage.
  rewrite (check_swap_unresolved _ _ _ _ _ Hp H1 H2). unfold unresolved_pass.
  assert (Hw : ((30000 <? Date_now env (S (S (List.length log))) - timestamp swap)%Z
                && (Date_now env (S (S (List.length log))) - timestamp swap <? 600000)%Z)
               = true).
  { apply andb_true_intro. split; apply Z.ltb_lt; lia. }
  rewrite Hw. unfold verifyTransactionExists.
  destruct (String.eqb_spec (fromToken swap) "HIVE"); [congruence | ].
  rewrite Hssc. reflexivity.
Qed.

Definition alice_engine_pending : SwapRecord :=
  swapRecord 0 "abc123" 100 "SWAP.HIVE" "alice".

Definition env_no_client : Env := {|
  getAccountHistoryAsync := fun _ => Some [];
  getTransactionAsync := fun _ _ => TxFound;
  ssc_ready := false;
  getTransactionInfo := fun _ _ => InfoFound "abc123";
  Date_now := fun _ => 60000%Z
|}.

Lemma missing_client_marks_not_sent_witness :
  check_swap CONFIG env_no_client "alice" alice_engine_pending []
  = (set_status alice_engine_pending "not-sent",
     [DateNow; GetAccountHistory "uswap"; GetAccountHistory "uswap"]).
Proof.
  apply (missing_client_marks_not_sent CONFIG env_no_client "alice"
           alice_engine_pending []);
    try reflexivity; [discriminate | split; reflexivity ].
Defined.

(** ** The history after one more swap *)

(** After any call of [addSwapToHistory] the store starts with the new,
    pending record; it holds the entries of the user (the ten newest at
    most) in front of all entries of other users, which keep their order;
    and it has grown by one entry at most. *)
Theorem addSwapToHistory_shape
    (now : Z) (history : list SwapRecord) (txId : string) (amount : float)
    (fromToken u : string) :
  let history' := addSwapToHistory now history txId amount fromToken u in
  hd_error history' = Some (swapRecord now txId amount fromToken u)
  /\ history'
     = filter (owned_by u) history'
       ++ filter (fun r => negb (owned_by u r)) history
  /\ (List.length (filter (owned_by u) history') <= 10)%nat
  /\ (List.length history' <= S (List.length history))%nat.
Proof.
  set (c := {| s_now := now; s_txId := txId; s_amount := amount;
               s_fromToken := fromToken |}).
  change (addSwapToHistory now history txId amount fromToken u)
    with (add_for u history c).
  change (swapRecord now txId amount fromToken u) with (record_of u c).
  cbv zeta.
  pose proof (add_for_mine u history c) as Hm.
  pose proof (add_for_shape u history c) as Hs.
  split; [ | split; [ | split ] ].
  - rewrite Hs. reflexivity.
  - rewrite Hm. exact Hs.
  - rewrite Hm. apply firstn_le_length.
  - rewrite Hs, length_app, length_firstn.
    pose proof (filter_length (owned_by u) history) as Hl.
    cbn [List.length]. lia.
Qed.

(** ** The adjusted fee and its floor *)

Lemma SFcompare_antisym (x y : spec_float) :
  SFcompare y x = option_map CompOpp (SFcompare x y).
Proof.
  destruct x as [sx|sx| |sx mx ex], y as [sy|sy| |sy my ey]; cbn;
    try reflexivity;
    try (destruct sx; reflexivity); try (destruct sy; reflexivity);
    try (destruct sx, sy; reflexivity).
  destruct sx, sy; cbn; try reflexivity.
  - rewrite (Z.compare_antisym ex ey).
    destruct (ex ?= ey)%Z; cbn; try reflexivity.
    rewrite (Pos.compare_cont_antisym mx my Eq). reflexivity.
  - rewrite (Z.compare_antisym ex ey).
    destruct (ex ?= ey)%Z; cbn; try reflexivity.
    rewrite (Pos.compare_cont_antisym mx my Eq). reflexivity.
Qed.

Lemma float_compare_cases (a b : float) :
  is_nan a = false -> is_nan b = false ->
  exists c, SFcompare (Prim2SF a) (Prim2SF b) = Some c.
Proof.
  intros Ha Hb.
  assert (Ha' : Prim2SF a <> S754_nan).
  { intros H. apply is_nan_spec in H. congruence. }
  assert (Hb' : Prim2SF b <> S754_nan).
  { intros H. apply is_nan_spec in H. congruence. }
  destruct (Prim2SF a), (Prim2SF b); cbn; try congruence; eauto.
Qed.

(** [Math.max] of two numbers is one of them and is below neither. *)
Lemma Math_max_spec (a b : float) :
  is_nan (Math_max a b) = false ->
  (a <=? Math_max a b) = true /\ (b <=? Math_max a b) = true
  /\ (Math_max a b = a \/ Math_max a b = b).
Proof.
  unfold Math_max. destruct (is_nan a) eqn:Ha; [intros H; discriminate H | ].
  destruct (is_nan b) eqn:Hb; [intros H; discriminate H | ]. cbn [orb]. intros _.
  destruct (float_compare_cases a b Ha Hb) as [c Hc].
  pose proof (SFcompare_antisym (Prim2SF a) (Prim2SF b)) as Hanti.
  rewrite Hc in Hanti. cbn in Hanti.
  assert (Haa : (a <=? a) = true).
  { rewrite leb_spec. unfold SFleb. rewrite SFcompare_refl; [reflexivity | ].
    intros H. apply is_nan_spec in H. congruence. }
  assert (Hbb : (b <=? b) = true).
  { rewrite leb_spec. unfold SFleb. rewrite SFcompare_refl; [reflexivity | ].
    intros H. apply is_nan_spec in H. congruence. }
  assert (Hab : (a <? b) = match c with Lt => true | _ => false end).
  { rewrite ltb_spec. unfold SFltb. rewrite Hc. reflexivity. }
  assert (Hba : (b <? a) = match c with Gt => true | _ => false end).
  { rewrite ltb_spec. unfold SFltb. rewrite Hanti. destruct c; reflexivity. }
  assert (Hle : (a <=? b) = match c with Gt => false | _ => true end).
  { rewrite leb_spec. unfold SFleb. rewrite Hc. destruct c; reflexivity. }
  assert (Hge : (b <=? a) = match c with Lt => false | _ => true end).
  { rewrite leb_spec. unfold SFleb. rewrite Hanti. destruct c; reflexivity. }
  rewrite Hab, Hba. destruct c.
  - destruct (get_sign a); rewrite ?Hle, ?Hge; auto.
  - rewrite Hle. auto.
  - rewrite Hge. auto.
Qed.

(** Whenever the adjusted fee is a number, it is the larger of the minimum
    base fee and the base fee scaled by [1 - 2|diff|]: never below the
    minimum, and never below the scaled base fee. *)
Theorem adjusted_fee_at_least_minimum (fc : FeeConfig) (diff : float) :
  is_nan (adjusted_base_fee fc diff) = false ->
  (MIN_BASE_FEE fc <=? adjusted_base_fee fc diff) = true
  /\ (BASE_FEE fc * (1 - 2 * Math_abs diff) <=? adjusted_base_fee fc diff) = true
  /\ (adjusted_base_fee fc diff = MIN_BASE_FEE fc
      \/ adjusted_base_fee fc diff = BASE_FEE fc * (1 - 2 * Math_abs diff)).
Proof.
  unfold adjusted_base_fee. intros H.
  destruct (Math_max_spec _ _ H) as (H1 & H2 & H3). tauto.
Qed.

Lemma adjusted_fee_at_least_minimum_witness :
  (MIN_BASE_FEE defaultFeeConfig
     <=? adjusted_base_fee defaultFeeConfig (pool_diff CONFIG 100 "HIVE")) = true.
Proof.
  apply (adjusted_fee_at_least_minimum defaultFeeConfig (pool_diff CONFIG 100 "HIVE")).
  reflexivity.
Defined.

(** ** js/utils.js: debounce and throttle *)

Module Timers.

Section Timers.

(** The arguments of one invocation. *)
Variable Args : Type.

(** What happens to a debounced or throttled function: it is invoked, or
    the timer it has pending fires. *)
Inductive Event :=
| Invoke (args : Args)
| TimerFires.

(** [debounce(func, waitMs)]: the closure keeps the one pending timer
    ([timeout]) with the arguments its callback [later] will pass on.  The
    state is that timer; the result lists the arguments [func] was run
    with, in order. *)
Definition debounce_step (pending : option Args) (e : Event)
  : option Args * list Args :=
  match e with
  | Invoke args => (Some args, [])
  | TimerFires =>
      match pending with
      | Some args => (None, [args])
      | None => (None, [])
      end
  end.

Fixpoint debounce_run (pending : option Args) (events : list Event)
  : option Args * list Args :=
  match events with
  | [] => (pending, [])
  | e :: rest =>
      let '(pending', ran) := debounce_step pending e in
      let '(final, ran') := debounce_run pending' rest in
      (final, ran ++ ran')
  end.

(** [throttle(func, limitMs)]: the closure keeps [inThrottle]; the timer
    set with a run clears it. *)
Definition throttle_step (inThrottle : bool) (e : Event) : bool * list Args :=
  match e with
  | Invoke args => if inThrottle then (true, []) else (true, [args])
  | TimerFires => (false, [])
  end.

Fixpoint throttle_run (inThrottle : bool) (events : list Event)
  : bool * list Args :=
  match events with
  | [] => (inThrottle, [])
  | e :: rest =>
      let '(t, ran) := throttle_step inThrottle e in
      let '(final, ran') := throttle_run t rest in
      (final, ran ++ ran')
  end.

End Timers.

Arguments Invoke {Args} _.
Arguments TimerFires {Args}.

End Timers.

(** ** Properties of debounce and throttle *)

Import Timers.

Lemma debounce_run_app {Args} (pending : option Args) (e1 e2 : list (Event Args)) :
  debounce_run Args pending (e1 ++ e2)
  = let '(p1, r1) := debounce_run Args pending e1 in
    let '(p2, r2) := debounce_run Args p1 e2 in
    (p2, r1 ++ r2).
Proof.
  revert pending. induction e1 as [|e rest IH]; intros pending; cbn [app debounce_run].
  - destruct (debounce_run Args pending e2). reflexivity.
  - destruct (debounce_step Args pending e) as [p ran].
    rewrite IH. destruct (debounce_run Args p rest) as [p1 r1].
    destruct (debounce_run Args p1 e2) as [p2 r2]. rewrite app_assoc. reflexivity.
Qed.

Lemma debounce_burst {Args} (pending : option Args) (burst : list Args) (last : Args) :
  debounce_run Args pending (map Invoke (burst ++ [last])) = (Some last, []).
Proof.
  revert pending. induction burst as [|a burst IH]; intros pending.
  - reflexivity.
  - cbn [app map debounce_run debounce_step]. rewrite IH. reflexivity.
Qed.

(** A debounced function that is invoked any number of times before its
    timer fires runs once when the timer fires, with the arguments of the
    last invocation; the earlier invocations of the burst are dropped, and
    a further firing runs nothing. *)
Theorem debounce_runs_last_of_burst
    {Args} (pending : option Args) (burst : list Args) (last : Args) :
  debounce_run Args pending (map Invoke (burst ++ [last]) ++ [TimerFires])
  = (None, [last])
  /\ debounce_run Args pending
       (map Invoke (burst ++ [last]) ++ [TimerFires; TimerFires])
     = (None, [last]).
Proof.
  split; rewrite debounce_run_app, debounce_burst; reflexivity.
Qed.

Lemma throttle_run_throttled {Args} (calls : list Args) :
  throttle_run Args true (map Invoke calls) = (true, []).
Proof.
  induction calls as [|a calls IH]; [reflexivity | ].
  cbn [map throttle_run throttle_step]. rewrite IH. reflexivity.
Qed.

(** A throttled function runs the first invocation at once and drops every
    invocation that arrives before its timer fires: those are not queued,
    and the first invocation after the firing runs at once again. *)
Theorem throttle_drops_until_timer
    {Args} (first : Args) (dropped : list Args) (next : Args) :
  throttle_run Args false (Invoke first :: map Invoke dropped) = (true, [first])
  /\ throttle_run Args false
       (Invoke first :: map Invoke dropped ++ [TimerFires; Invoke next])
     = (true, [first; next]).
Proof.
  split.
  - cbn [throttle_run throttle_step]. rewrite throttle_run_throttled. reflexivity.
  - cbn [throttle_run throttle_step].
    assert (H : forall l, throttle_run Args true
                  (map Invoke l ++ [TimerFires; Invoke next]) = (true, [next])).
    { induction l as [|a l IH]; [reflexivity | ].
      cbn [map app throttle_run throttle_step]. rewrite IH. reflexivity. }
    rewrite H. reflexivity.
Qed.

(** ** The API node helper ([window.apiManager]) *)

Module ApiManager.

(** [CONFIG.HIVE_RPC_NODES] and [CONFIG.ENGINE_RPC_NODES] *)
Definition HIVE_RPC_NODES : list string :=
  [ "https://api.deathwing.me"; "https://hive.roelandp.nl";
    "https://api.openhive.network"; "https://rpc.ausbit.dev";
    "https://hived.emre.sh"; "https://hive-api.arcange.eu";
    "https://api.hive.blog"; "https://api.c0ff33a.uk";
    "https://rpc.ecency.com"; "https://anyx.io"; "https://techcoderx.com";
    "https://api.hive.blue"; "https://rpc.mahdiyari.info" ]%string.

Definition ENGINE_RPC_NODES : list string :=
  [ "https://api.primersion.com"; "https://api2.hive-engine.com/rpc";
    "https://enginerpc.com"; "https://api.hive-engine.com/rpc";
    "https://herpc.actifit.io"; "https://herpc.dtools.dev" ]%string.

(** The [type] argument: the panels pass ['hive'] or ['engine']. *)
Inductive NodeType := hive | engine.

(** The two entries of [localStorage] the helper keeps, [customHiveNodes]
    and [customEngineNodes], each the JSON text of an array of strings
    (absent reads as the empty array). *)
Record Storage := {
  customHiveNodes : list string;
  customEngineNodes : list string
}.

Definition getCustomNodes (type : NodeType) (st : Storage) : list string :=
  match type with
  | hive => customHiveNodes st
  | engine => customEngineNodes st
  end.


Definition defaults (type : NodeType) : list string :=
  match type with
  | hive => HIVE_RPC_NODES
  | engine => ENGINE_RPC_NODES
  end.

(** [Array.prototype.includes] on an array of strings. *)
Definition includes (l : list string) (url : string) : bool :=
  existsb (String.eqb url) l.

(** [[...new Set(l)]]: the elements of [l] in the order of their first
    occurrence, those of [seen] left out. *)
Fixpoint set_of (seen l : list string) : list string :=
  match l with
  | [] => []
  | x :: rest =>
      if includes seen x then set_of seen rest
      else x :: set_of (x :: seen) rest
  end.

(** [getAPIs(type)] *)
Definition getAPIs (type : NodeType) (st : Storage) : list string :=
  set_of [] (defaults type ++ getCustomNodes type st).

(** [isDefault(type, url)] *)
Definition isDefault (type : NodeType) (url : string) : bool :=
  includes (defaults type) url.







End ApiManager.

(** ** Properties of the API node helper *)

Import ApiManager.

Lemma includes_In (l : list string) (url : string) :
  includes l url = true <-> In url l.
Proof.
  unfold includes. rewrite existsb_exists. split.
  - intros [x [Hin Heq]]. apply String.eqb_eq in Heq. subst. exact Hin.
  - intros Hin. exists url. split; [exact Hin | apply String.eqb_refl].
Qed.

Lemma includes_not_In (l : list string) (url : string) :
  includes l url = false <-> ~ In url l.
Proof.
  rewrite <- includes_In. destruct (includes l url); split; intros H;
    try reflexivity; try discriminate; try congruence.
Qed.

Lemma set_of_In (seen l : list string) (url : string) :
  In url (set_of seen l) <-> In url l /\ ~ In url seen.
Proof.
  revert seen. induction l as [|x rest IH]; intros seen; cbn [set_of].
  - cbn. tauto.
  - destruct (includes seen x) eqn:E.
    + apply includes_In in E. rewrite IH. cbn [In]. split.
      * intros [H1 H2]. tauto.
      * intros [[H1|H1] H2]; [subst; contradiction | tauto].
    + apply includes_not_In in E. cbn [In]. rewrite IH. cbn [In]. split.
      * intros [H|[H1 H2]]; [subst; tauto | tauto].
      * intros [[H1|H1] H2]; [tauto | ].
        destruct (String.eqb x url) eqn:Ex.
        -- apply String.eqb_eq in Ex. tauto.
        -- apply String.eqb_neq in Ex. right. split; [exact H1 | ].
           intros [H|H]; [congruence | tauto].
Qed.

Lemma set_of_NoDup (seen l : list string) : NoDup (set_of seen l).
Proof.
  revert seen. induction l as [|x rest IH]; intros seen; cbn [set_of].
  - constructor.
  - destruct (includes seen x) eqn:E; [apply IH | ].
    constructor; [ | apply IH].
    rewrite set_of_In. cbn [In]. tauto.
Qed.

Lemma getAPIs_In (type : NodeType) (st : Storage) (url : string) :
  In url (getAPIs type st)
  <-> isDefault type url = true \/ In url (getCustomNodes type st).
Proof.
  unfold getAPIs, isDefault.
  rewrite set_of_In, in_app_iff, includes_In. cbn [In]. tauto.
Qed.

(** The list [getAPIs] shows has no duplicates, and a node is in it exactly
    when it is a default node of the type or one of its custom nodes. *)
Theorem getAPIs_is_the_union (type : NodeType) (st : Storage) :
  NoDup (getAPIs type st)
  /\ forall url, In url (getAPIs type st)
                 <-> isDefault type url = true \/ In url (getCustomNodes type st).
Proof.
  split; [apply set_of_NoDup | apply getAPIs_In].
Qed.














(** ** js/market.js: the liquidity of the bridge *)

Module MarketManager.

Section Fetch.

(** The errors the network calls reject with. *)
Variable E : Type.

(** What one call of [hive.api.getAccountsAsync] or of [ssc.find] yields:
    an error, or what it resolves to: [None] for [null] or [undefined], or
    an array, each account or balance row given by its [balance] field. *)
Definition Reply : Type := option (list JS.value) + E.

(** [queryHiveEngine]: a rejection when the client is missing or the query
    fails, and otherwise [result || []]. *)
Definition queryHiveEngine (reply : Reply) : list JS.value + E :=
  match reply with
  | inl (Some rows) => inl rows
  | inl None => inl []
  | inr e => inr e
  end.

Definition set_HIVEPOOL (h : float) (cfg : Config) : Config := {|
  DECIMAL := DECIMAL cfg;
  HIVEPOOL := h;
  SHIVEPOOL := SHIVEPOOL cfg;
  BRIDGE_USER := BRIDGE_USER cfg;
  MINIMUM_SWAP := MINIMUM_SWAP cfg
|}.

Definition set_SHIVEPOOL (s : float) (cfg : Config) : Config := {|
  DECIMAL := DECIMAL cfg;
  HIVEPOOL := HIVEPOOL cfg;
  SHIVEPOOL := s;
  BRIDGE_USER := BRIDGE_USER cfg;
  MINIMUM_SWAP := MINIMUM_SWAP cfg
|}.

(** The two requests of [fetchLiquidity], each retried twice. *)
Definition accounts_request (getAccounts : nat -> Reply)
  : Retry.Outcome (option (list JS.value)) E :=
  Retry.retry getAccounts 2 1000.

Definition tokens_request (find : nat -> Reply)
  : Retry.Outcome (list JS.value) E :=
  Retry.retry (fun n => queryHiveEngine (find n)) 2 1000.

(** [fetchLiquidity()]: [CONFIG] and [liquidity] afterwards.  [getAccounts n]
    and [find n] are what the [n]-th call for the account and for the token
    balance of the bridge yields; the updates of the display are left out. *)
Definition fetchLiquidity (cfg : Config) (liquidity : SwapButton.Liquidity)
    (getAccounts find : nat -> Reply) : Config * SwapButton.Liquidity :=
  match Retry.result (accounts_request getAccounts),
        Retry.result (tokens_request find) with
  | inl accounts, inl tokens =>
      let '(cfg1, liquidity1) :=
        match accounts with
        | Some (account :: _) =>
            let h := Utils.parseNumber account 0 in
            (set_HIVEPOOL h cfg,
             {| SwapButton.hive := h;
                SwapButton.swapHive := SwapButton.swapHive liquidity |})
        | _ => (cfg, liquidity)
        end in
      match tokens with
      | token :: _ =>
          let s := Utils.parseNumber token 0 in
          (set_SHIVEPOOL s cfg1,
           {| SwapButton.hive := SwapButton.hive liquidity1;
              SwapButton.swapHive := s |})
      | [] => (cfg1, liquidity1)
      end
  | _, _ => (cfg, liquidity)
  end.

End Fetch.

Arguments queryHiveEngine {E} _.
Arguments accounts_request {E} _.
Arguments tokens_request {E} _.
Arguments fetchLiquidity {E} _ _ _ _.

End MarketManager.

(** ** js/wallet.js: the balances of the user *)

Module WalletManager.

(** The state of the module: [currentUser] and [balances], and [lastFetch]
    ([None] is [null]). *)
Record State := {
  wallet : Wallet;
  lastFetch : option Z
}.

Definition CACHE_DURATION : Z := 10000.

Definition initial : State := {|
  wallet := {| currentUser := None; balance_HIVE := 0; balance_SWAP_HIVE := 0 |};
  lastFetch := None
|}.

Section Load.

Variable E : Type.

(** What a fetch throws: the validation error of an account that does not
    exist, or what [retry] threw. *)
Inductive FetchError :=
| AccountNotFound
| Rejected (error : option E).

(** [fetchHiveBalance(username)]: the balance or the error, and the number
    of calls made. *)
Definition fetchHiveBalance (getAccounts : nat -> MarketManager.Reply E)
  : (float + FetchError) * nat :=
  let r := Retry.retry getAccounts 3 1000 in
  (match Retry.result r with
   | inl (Some (account :: _)) =>
       inl (Utils.floorTo (Num (Utils.parseNumber account 0)) 3)
   | inl _ => inr AccountNotFound
   | inr error => inr (Rejected error)
   end, Retry.calls r).

(** [fetchSwapHiveBalance(username)] *)
Definition fetchSwapHiveBalance (find : nat -> MarketManager.Reply E)
  : (float + FetchError) * nat :=
  let r := Retry.retry (fun n => MarketManager.queryHiveEngine (find n)) 3 1000 in
  (match Retry.result r with
   | inl (token :: _) => inl (Utils.floorTo (Num (Utils.parseNumber token 0)) 3)
   | inl [] => inl (Utils.floorTo (Num 0) 3)
   | inr error => inr (Rejected error)
   end, Retry.calls r).

(** What a call of [loadBalance] leaves: the balances it returns ([None]
    is [null]), the state, and the calls made for the account and for the
    token balance. *)
Record Loaded := {
  returned : option (float * float);
  state : State;
  accountCalls : nat;
  balanceCalls : nat
}.

Definition balances (st : State) : float * float :=
  (balance_HIVE (wallet st), balance_SWAP_HIVE (wallet st)).

(** The cache test of [loadBalance]. *)
Definition cached (st : State) (sanitized : string) (now : Z) : bool :=
  match currentUser (wallet st) with
  | Some user => String.eqb user sanitized
  | None => false
  end
  && match lastFetch st with
     | Some t => negb (t =? 0)%Z && (now - t <? CACHE_DURATION)%Z
     | None => false
     end.

(** [loadBalance(username)] at time [now]; [getAccounts user n] and
    [find user n] are what the [n]-th call for [user] yields.  The updates
    of the display that follow a load are left out. *)
Definition loadBalance (getAccounts find : string -> nat -> MarketManager.Reply E)
    (username : string) (now : Z) (st : State) : Loaded :=
  let sanitized := Username.sanitizeUsername username in
  if negb (Username.isValidUsername sanitized) then
    {| returned := None; state := st; accountCalls := 0; balanceCalls := 0 |}
  else if cached st sanitized now then
    {| returned := Some (balances st); state := st;
       accountCalls := 0; balanceCalls := 0 |}
  else
    let '(hiveBalance, n1) := fetchHiveBalance (getAccounts sanitized) in
    let '(swapHiveBalance, n2) := fetchSwapHiveBalance (find sanitized) in
    match hiveBalance, swapHiveBalance with
    | inl h, inl s =>
        {| returned := Some (h, s);
           state := {| wallet := {| currentUser := Some sanitized;
                                    balance_HIVE := h;
                                    balance_SWAP_HIVE := s |};
                       lastFetch := Some now |};
           accountCalls := n1; balanceCalls := n2 |}
    | _, _ =>
        {| returned := None; state := st; accountCalls := n1; balanceCalls := n2 |}
    end.

(** [refreshBalance()] *)
Definition refreshBalance (getAccounts find : string -> nat -> MarketManager.Reply E)
    (now : Z) (st : State) : Loaded :=
  match currentUser (wallet st) with
  | Some user =>
      if String.eqb user "" then
        {| returned := None; state := st; accountCalls := 0; balanceCalls := 0 |}
      else
        loadBalance getAccounts find user now
          {| wallet := wallet st; lastFetch := None |}
  | None =>
      {| returned := None; state := st; accountCalls := 0; balanceCalls := 0 |}
  end.

End Load.

Arguments AccountNotFound {E}.
Arguments Rejected {E} _.
Arguments fetchHiveBalance {E} _.
Arguments fetchSwapHiveBalance {E} _.
Arguments loadBalance {E} _ _ _ _ _.
Arguments refreshBalance {E} _ _ _ _.

End WalletManager.

(** ** Properties of the liquidity and balance loads *)

Import MarketManager WalletManager.

Lemma retry_loop_calls {A E : Type} (fn : nat -> A + E) (maxAttempts : nat)
    (delayMs : Z) (remaining attempt : nat) (last : option E) (slept : list Z) :
  (1 <= remaining)%nat ->
  let r := Retry.retry_loop fn maxAttempts delayMs attempt remaining last slept in
  (attempt <= Retry.calls r)%nat /\ (Retry.calls r < attempt + remaining)%nat.
Proof.
  revert attempt last slept.
  induction remaining as [|remaining IH]; intros attempt last slept H; [lia | ].
  cbn [Retry.retry_loop]. destruct (fn attempt) as [v|e]; cbn [Retry.calls].
  - lia.
  - destruct remaining as [|remaining'].
    + cbn [Retry.retry_loop Retry.calls]. lia.
    + specialize (IH (S attempt) (Some e)
                     (if (attempt <? maxAttempts)%nat
                      then slept ++ [(delayMs * 2 ^ (Z.of_nat attempt - 1))%Z]
                      else slept)).
      cbv zeta in IH. destruct IH as [IH1 IH2]; lia.
Qed.

Lemma retry_calls {A E : Type} (fn : nat -> A + E) (maxAttempts : nat) (delayMs : Z) :
  (1 <= maxAttempts)%nat ->
  (1 <= Retry.calls (Retry.retry fn maxAttempts delayMs) <= maxAttempts)%nat.
Proof.
  intros H. unfold Retry.retry.
  pose proof (retry_loop_calls fn maxAttempts delayMs maxAttempts 1 None [] H) as Hc.
  cbv zeta in Hc. lia.
Qed.

(** [fetchLiquidity] changes nothing but the two pools; each pool is either
    left as it was, in [CONFIG] and in [liquidity] alike, or set in both to
    the same number, which is not NaN; and when one of the two requests
    fails after its retries, neither pool is touched. *)
Theorem fetchLiquidity_updates_pools_together
    {E : Type} (cfg : Config) (liquidity : SwapButton.Liquidity)
    (getAccounts find : nat -> Reply E) :
  let '(cfg', liquidity') := fetchLiquidity cfg liquidity getAccounts find in
  DECIMAL cfg' = DECIMAL cfg
  /\ BRIDGE_USER cfg' = BRIDGE_USER cfg
  /\ MINIMUM_SWAP cfg' = MINIMUM_SWAP cfg
  /\ (HIVEPOOL cfg' = HIVEPOOL cfg
        /\ SwapButton.hive liquidity' = SwapButton.hive liquidity
      \/ HIVEPOOL cfg' = SwapButton.hive liquidity'
         /\ is_nan (HIVEPOOL cfg') = false)
  /\ (SHIVEPOOL cfg' = SHIVEPOOL cfg
        /\ SwapButton.swapHive liquidity' = SwapButton.swapHive liquidity
      \/ SHIVEPOOL cfg' = SwapButton.swapHive liquidity'
         /\ is_nan (SHIVEPOOL cfg') = false)
  /\ ((exists e, Retry.result (accounts_request getAccounts) = inr e)
      \/ (exists e, Retry.result (tokens_request find) = inr e) ->
      cfg' = cfg /\ liquidity' = liquidity).
Proof.
  unfold fetchLiquidity.
  destruct (Retry.result (accounts_request getAccounts)) as [accounts|e1].
  2:{ repeat split; auto. }
  destruct (Retry.result (tokens_request find)) as [tokens|e2].
  2:{ repeat split; auto. }
  assert (Hno : (exists e : option E, @inl _ (option E) accounts = inr e)
                \/ (exists e : option E, @inl _ (option E) tokens = inr e) ->
                False).
  { intros [[e H]|[e H]]; discriminate H. }
  destruct accounts as [[|account rest]|]; destruct tokens as [|token rest'];
    cbn [set_HIVEPOOL set_SHIVEPOOL DECIMAL BRIDGE_USER MINIMUM_SWAP HIVEPOOL
         SHIVEPOOL SwapButton.hive SwapButton.swapHive];
    repeat split;
    try (left; split; reflexivity);
    try (right; split; [reflexivity | apply parseNumber_not_nan]);
    try (exfalso; apply Hno; assumption).
Qed.

(** [loadBalance] is all or nothing.  When it returns [null] the state is
    as before; when it returns balances they are the ones now stored, for
    the sanitized name, which is a valid one, and either the state is as
    before (the cache answered, with no call made) or both balances were
    fetched anew and [lastFetch] is the time of the call.  Each of the two
    balances costs at most three calls. *)
Theorem loadBalance_all_or_nothing
    {E : Type} (getAccounts find : string -> nat -> Reply E)
    (username : string) (now : Z) (st : State) :
  let r := loadBalance getAccounts find username now st in
  match returned r with
  | None => state r = st
  | Some b =>
      balances (state r) = b
      /\ currentUser (wallet (state r)) = Some (Username.sanitizeUsername username)
      /\ Username.isValidUsername (Username.sanitizeUsername username) = true
      /\ (state r = st /\ accountCalls r = 0%nat /\ balanceCalls r = 0%nat
          \/ lastFetch (state r) = Some now
             /\ (1 <= accountCalls r)%nat /\ (1 <= balanceCalls r)%nat)
  end
  /\ (accountCalls r <= 3)%nat /\ (balanceCalls r <= 3)%nat.
Proof.
  cbv zeta. unfold loadBalance.
  destruct (Username.isValidUsername (Username.sanitizeUsername username)) eqn:Ev;
    cbn [negb]; [ | cbn; repeat split; lia].
  destruct (cached st (Username.sanitizeUsername username) now) eqn:Ec.
  - cbn [returned state accountCalls balanceCalls]. repeat split; try lia.
    + unfold cached in Ec. apply andb_prop in Ec. destruct Ec as [Ec _].
      destruct (currentUser (wallet st)) as [user|]; [ | discriminate].
      apply String.eqb_eq in Ec. congruence.
    + left. repeat split.
  - unfold fetchHiveBalance, fetchSwapHiveBalance.
    pose proof (retry_calls (getAccounts (Username.sanitizeUsername username))
                  3 1000 ltac:(lia)) as H1.
    pose proof (retry_calls
                  (fun n => queryHiveEngine
                              (find (Username.sanitizeUsername username) n))
                  3 1000 ltac:(lia)) as H2.
    destruct (Retry.result (Retry.retry
                (getAccounts (Username.sanitizeUsername username)) 3 1000))
      as [[[|account rest]|]|e1];
    destruct (Retry.result (Retry.retry
                (fun n => queryHiveEngine
                            (find (Username.sanitizeUsername username) n)) 3 1000))
      as [[|token rest']|e2];
    cbn [returned state accountCalls balanceCalls wallet currentUser lastFetch];
    repeat split; try lia; right; repeat split; lia.
Qed.

(** Once a valid user is loaded, [refreshBalance] fetches both balances
    for exactly that user whatever the age of the cache, and the user stays
    loaded whether the fetch succeeds or not. *)
Theorem refreshBalance_ignores_cache
    {E : Type} (getAccounts find : string -> nat -> Reply E)
    (now : Z) (st : State) (user : string) :
  currentUser (wallet st) = Some user ->
  Username.isValidUsername user = true ->
  let r := refreshBalance getAccounts find now st in
  accountCalls r = snd (fetchHiveBalance (getAccounts user))
  /\ balanceCalls r = snd (fetchSwapHiveBalance (find user))
  /\ (1 <= accountCalls r)%nat /\ (1 <= balanceCalls r)%nat
  /\ currentUser (wallet (state r)) = Some user
  /\ (returned r = None -> state r = {| wallet := wallet st; lastFetch := None |}).
Proof.
  intros Hu Hv. cbv zeta. unfold refreshBalance. rewrite Hu.
  assert (E0 : String.eqb user "" = false).
  { destruct (String.eqb user "") eqn:E0; [ | reflexivity].
    apply String.eqb_eq in E0. subst user. discriminate Hv. }
  rewrite E0. unfold loadBalance.
  rewrite (sanitizeUsername_valid user Hv), Hv. cbn [negb].
  unfold cached. cbn [lastFetch]. rewrite andb_false_r.
  unfold fetchHiveBalance, fetchSwapHiveBalance.
  pose proof (retry_calls (getAccounts user) 3 1000 ltac:(lia)) as H1.
  pose proof (retry_calls (fun n => queryHiveEngine (find user n))
                3 1000 ltac:(lia)) as H2.
  destruct (Retry.result (Retry.retry (getAccounts user) 3 1000))
    as [[[|account rest]|]|e1];
  destruct (Retry.result (Retry.retry
              (fun n => queryHiveEngine (find user n)) 3 1000))
    as [[|token rest']|e2];
  cbn [returned state accountCalls balanceCalls wallet currentUser lastFetch snd];
  repeat split; try lia; try exact Hu; try discriminate.
Qed.

Definition alice_loaded : State := {|
  wallet := {| currentUser := Some "alice"%string;
               balance_HIVE := 12.5; balance_SWAP_HIVE := 3 |};
  lastFetch := Some 1700000000000%Z
|}.

Definition chain_replies (user : string) (n : nat) : Reply string :=
  if (n <? 2)%nat then inr "timeout"%string else inl (Some [Str "20.000 HIVE"]).

Definition engine_replies (user : string) (n : nat) : Reply string :=
  inl (Some [Str "7.25"]).

Lemma refreshBalance_ignores_cache_witness :
  let r := refreshBalance chain_replies engine_replies 1700000000001%Z alice_loaded in
  accountCalls r = snd (fetchHiveBalance (chain_replies "alice"))
  /\ balanceCalls r = snd (fetchSwapHiveBalance (engine_replies "alice"))
  /\ (1 <= accountCalls r)%nat /\ (1 <= balanceCalls r)%nat
  /\ currentUser (wallet (state r)) = Some "alice"%string
  /\ (returned r = None
      -> state r = {| wallet := wallet alice_loaded; lastFetch := None |}).
Proof.
  apply (refreshBalance_ignores_cache chain_replies engine_replies 1700000000001%Z
           alice_loaded "alice"); reflexivity.
Defined.

(** ** Numbers that are never NaN *)

Local Open Scope Z_scope.

Lemma shr_1_nonneg (mrs : shr_record) : 0 <= shr_m mrs -> 0 <= shr_m (shr_1 mrs).
Proof.
  destruct mrs as [m r s]. cbn [shr_m shr_1].
  destruct m as [|[p|p|]|p]; cbn [shr_m]; lia.
Qed.

Lemma iter_shr_1_nonneg (p : positive) (mrs : shr_record) :
  0 <= shr_m mrs -> 0 <= shr_m (iter_pos shr_1 p mrs).
Proof.
  revert mrs. induction p as [p IH|p IH|]; intros mrs H; cbn [iter_pos].
  - apply IH, IH, shr_1_nonneg, H.
  - apply IH, IH, H.
  - apply shr_1_nonneg, H.
Qed.

Lemma shr_fexp_nonneg (m e : Z) (l : location) :
  0 <= m -> 0 <= shr_m (fst (shr_fexp prec emax m e l)).
Proof.
  intros H. unfold shr_fexp, shr.
  assert (H0 : 0 <= shr_m (shr_record_of_loc m l)).
  { destruct l as [|[ | | ]]; exact H. }
  destruct (fexp prec emax (Zdigits2 m + e) - e) as [|p|p]; cbn [fst];
    [exact H0 | apply iter_shr_1_nonneg, H0 | exact H0].
Qed.

(** Rounding a mantissa that is not negative never gives NaN. *)
Lemma binary_round_aux_not_nan (s : bool) (m e : Z) (l : location) :
  0 <= m -> binary_round_aux prec emax s m e l <> S754_nan.
Proof.
  intros H. unfold binary_round_aux.
  pose proof (shr_fexp_nonneg m e l H) as H1.
  destruct (shr_fexp prec emax m e l) as [mrs' e']. cbn [fst] in H1.
  assert (H2 : 0 <= round_nearest_even (shr_m mrs') (loc_of_shr_record mrs')).
  { unfold round_nearest_even.
    destruct (loc_of_shr_record mrs') as [|[ | | ]]; try lia.
    destruct (Z.even (shr_m mrs')); lia. }
  pose proof (shr_fexp_nonneg _ e' loc_Exact H2) as H3.
  destruct (shr_fexp prec emax
              (round_nearest_even (shr_m mrs') (loc_of_shr_record mrs')) e' loc_Exact)
    as [mrs'' e'']. cbn [fst] in H3.
  destruct (shr_m mrs'') as [|p|p]; [discriminate | | lia].
  destruct (e'' <=? emax - prec); discriminate.
Qed.

Lemma binary_round_not_nan (s : bool) (m : positive) (e : Z) :
  binary_round prec emax s m e <> S754_nan.
Proof.
  unfold binary_round.
  destruct (shl_align m e (fexp prec emax (Z.pos (digits2_pos m) + e))) as [mz ez].
  apply binary_round_aux_not_nan. lia.
Qed.

Lemma binary_normalize_not_nan (m e : Z) (szero : bool) :
  binary_normalize prec emax m e szero <> S754_nan.
Proof.
  destruct m; cbn [binary_normalize]; [discriminate | | ]; apply binary_round_not_nan.
Qed.

Lemma not_nan_spec (x : float) : is_nan x = false <-> Prim2SF x <> S754_nan.
Proof.
  rewrite <- is_nan_spec. destruct (is_nan x); split; congruence.
Qed.

Lemma SF2Prim_not_nan (x : spec_float) :
  x <> S754_nan -> is_nan (SF2Prim x) = false.
Proof.
  intros H. destruct x as [[|]|[|]| |s m e]; try reflexivity; [congruence | ].
  apply not_nan_spec. cbn [SF2Prim].
  assert (Hl : Prim2SF (Z.ldexp (of_uint63 (Uint63.of_Z (Z.pos m))) e) <> S754_nan).
  { rewrite FloatLemmas.Z_ldexp_spec, of_uint63_spec.
    pose proof (binary_normalize_not_nan
                  (Uint63.to_Z (Uint63.of_Z (Z.pos m))) 0 false) as Hn.
    destruct (binary_normalize prec emax (Uint63.to_Z (Uint63.of_Z (Z.pos m))) 0 false)
      as [s0|s0| |s0 m0 e0]; cbn [SFldexp]; try discriminate; [congruence | ].
    apply binary_round_not_nan. }
  destruct s; [ | exact Hl].
  rewrite opp_spec.
  destruct (Prim2SF (Z.ldexp (of_uint63 (Uint63.of_Z (Z.pos m))) e));
    cbn [SFopp]; congruence.
Qed.

Lemma of_Z_not_nan (z : Z) : is_nan (of_Z z) = false.
Proof. apply SF2Prim_not_nan, binary_normalize_not_nan. Qed.

(** A number that is finite and not zero. *)
Definition finite_nonzero (x : float) : bool :=
  match Prim2SF x with
  | S754_finite _ _ _ => true
  | _ => false
  end.

Lemma mul_not_nan (x y : float) :
  is_nan x = false -> finite_nonzero y = true -> is_nan (x * y) = false.
Proof.
  rewrite !not_nan_spec, mul_spec. unfold finite_nonzero.
  destruct (Prim2SF y) as [sy|sy| |sy my ey]; try discriminate.
  destruct (Prim2SF x) as [sx|sx| |sx mx ex]; intros Hx _;
    cbn [SF64mul SFmul]; try discriminate; [congruence | ].
  apply binary_round_aux_not_nan. lia.
Qed.

Lemma div_not_nan (x y : float) :
  is_nan x = false -> finite_nonzero y = true -> is_nan (x / y) = false.
Proof.
  rewrite !not_nan_spec, div_spec. unfold finite_nonzero.
  destruct (Prim2SF y) as [sy|sy| |sy my ey]; try discriminate.
  destruct (Prim2SF x) as [sx|sx| |sx mx ex]; intros Hx _;
    cbn [SF64div SFdiv]; try discriminate; [congruence | ].
  unfold SFdiv_core_binary.
  set (m' := match _ - _ - _ with Z0 => _ | Z.pos _ => _ | Z.neg _ => _ end).
  assert (Hm : 0 <= m').
  { subst m'. destruct (_ - _ - _); [lia | | lia].
    rewrite Z.shiftl_mul_pow2 by lia. apply Z.mul_nonneg_nonneg; [lia | ].
    apply Z.pow_nonneg. lia. }
  pose proof (Z.div_pos m' (Z.pos my) Hm ltac:(lia)) as Hq.
  unfold Z.div in Hq.
  destruct (Z.div_eucl m' (Z.pos my)) as [q r]. cbn [fst] in Hq.
  apply binary_round_aux_not_nan. exact Hq.
Qed.

Lemma Math_round_not_nan (x : float) : is_nan x = false -> is_nan (Math_round x) = false.
Proof.
  intros H. unfold Math_round.
  destruct (Prim2SF x) as [s|s| |s m e]; try exact H.
  destruct (0 <=? e); [exact H | ].
  destruct (_ =? 0); [destruct s; reflexivity | apply of_Z_not_nan].
Qed.

Lemma Math_floor_not_nan (x : float) : is_nan x = false -> is_nan (Math_floor x) = false.
Proof.
  intros H. unfold Math_floor.
  destruct (Prim2SF x) as [s|s| |s m e]; try exact H.
  destruct (0 <=? e); [exact H | apply of_Z_not_nan].
Qed.

(** The powers of ten up to the largest finite one. *)
Lemma Math_pow10_finite (d : nat) :
  (d <= 308)%nat -> finite_nonzero (Math_pow10 d) = true.
Proof.
  intros H.
  assert (Hall : forallb (fun d => finite_nonzero (Math_pow10 d)) (seq 0 309) = true)
    by (vm_compute; reflexivity).
  rewrite forallb_forall in Hall. apply Hall. apply in_seq. lia.
Qed.

Lemma roundTo_not_nan (value : JS.value) (decimals : nat) :
  (decimals <= 308)%nat -> is_nan (Utils.roundTo value decimals) = false.
Proof.
  intros Hd. unfold Utils.roundTo, isNaN.
  destruct value as [ | |v|s]; try reflexivity.
  destruct (is_nan v) eqn:Ev; [reflexivity | ].
  apply div_not_nan; [ | apply Math_pow10_finite, Hd].
  apply Math_round_not_nan, mul_not_nan; [exact Ev | apply Math_pow10_finite, Hd].
Qed.

Lemma floorTo_not_nan (value : JS.value) (decimals : nat) :
  (decimals <= 308)%nat -> is_nan (Utils.floorTo value decimals) = false.
Proof.
  intros Hd. unfold Utils.floorTo, isNaN.
  destruct value as [ | |v|s]; try reflexivity.
  destruct (is_nan v) eqn:Ev; [reflexivity | ].
  apply div_not_nan; [ | apply Math_pow10_finite, Hd].
  apply Math_floor_not_nan, mul_not_nan; [exact Ev | apply Math_pow10_finite, Hd].
Qed.

(** The rounding helpers never return NaN, whatever they are given: with
    at most 308 decimal places, for which the multiplier is finite,
    [roundTo] and [floorTo] return a number that is not NaN, and so do
    [safeSubtract], [safeMultiply] and [safeDivide]. *)
Theorem rounding_helpers_never_NaN (value : JS.value) (decimals : nat) (a b : float) :
  (decimals <= 308)%nat ->
  is_nan (Utils.roundTo value decimals) = false
  /\ is_nan (Utils.floorTo value decimals) = false
  /\ is_nan (Utils.safeSubtract a b) = false
  /\ is_nan (Utils.safeMultiply a b) = false
  /\ is_nan (Utils.safeDivide a b) = false.
Proof.
  intros Hd. repeat split.
  - apply roundTo_not_nan, Hd.
  - apply floorTo_not_nan, Hd.
  - apply roundTo_not_nan. lia.
  - apply roundTo_not_nan. lia.
  - unfold Utils.safeDivide. destruct (b =? 0)%float; [reflexivity | ].
    apply roundTo_not_nan. lia.
Qed.

Lemma rounding_helpers_never_NaN_witness :
  is_nan (Utils.roundTo (Num nan) 3) = false
  /\ is_nan (Utils.floorTo (Num infinity) 3) = false
  /\ is_nan (Utils.safeSubtract infinity infinity) = false
  /\ is_nan (Utils.safeMultiply 0 infinity) = false
  /\ is_nan (Utils.safeDivide 0 0) = false.
Proof.
  apply (rounding_helpers_never_NaN (Num nan) 3 infinity infinity). lia.
Defined.

(** Every number of the quote is a number: whatever is typed, whatever the
    pools and the fee configuration hold (NaN included), no field of the new
    [currentSwap] is NaN, as long as [CONFIG.DECIMAL] is finite and not
    zero. *)
Theorem quote_never_NaN
    (cfg : Config) (fc : FeeConfig) (amount slippage : JS.value)
    (fromToken toToken : string) :
  finite_nonzero (DECIMAL cfg) = true ->
  let q := updateSwapCalculation cfg fc amount fromToken toToken slippage in
  is_nan (SwapManager.amount q) = false
  /\ is_nan (SwapManager.slippage q) = false
  /\ is_nan (expected q) = false
  /\ is_nan (fee q) = false
  /\ is_nan (feePercent q) = false
  /\ is_nan (minReceive q) = false.
Proof.
  intros Hd. cbv zeta. unfold updateSwapCalculation.
  cbn [SwapManager.amount SwapManager.slippage expected fee feePercent minReceive].
  unfold calculateExpectedOutput, calculateFee.
  destruct (negb (Utils.isPositiveNumber (Num (Utils.parseNumber amount 0))));
    cbn [out_expected out_fee out_feePercent expectedOutput feeAmount feePercent_];
    repeat split;
    try reflexivity;
    try (apply parseNumber_default_not_nan; reflexivity);
    try (apply roundTo_not_nan; lia).
  apply div_not_nan; [ | exact Hd].
  apply Math_floor_not_nan, mul_not_nan; [ | exact Hd].
  apply roundTo_not_nan. lia.
Qed.

Lemma quote_never_NaN_witness :
  let q := updateSwapCalculation CONFIG defaultFeeConfig (Str "12.5") "HIVE"
             "SWAP.HIVE" (Str "abc") in
  is_nan (SwapManager.amount q) = false
  /\ is_nan (SwapManager.slippage q) = false
  /\ is_nan (expected q) = false
  /\ is_nan (fee q) = false
  /\ is_nan (feePercent q) = false
  /\ is_nan (minReceive q) = false.
Proof.
  apply (quote_never_NaN CONFIG defaultFeeConfig (Str "12.5") (Str "abc")
           "HIVE" "SWAP.HIVE").
  reflexivity.
Defined.

(** ** What is sent to the signing extension *)

Definition has_char (c : ascii) (s : string) : bool :=
  existsb (Ascii.eqb c) (list_ascii_of_string s).

Lemma has_char_app (c : ascii) (a b : string) :
  has_char c (a ++ b) = has_char c a || has_char c b.
Proof.
  unfold has_char. induction a as [|x a IH]; [reflexivity | ].
  cbn [append list_ascii_of_string existsb]. rewrite IH. apply orb_assoc.
Qed.

Lemma place_point_has_dot (n : Z) (f : nat) :
  f <> O -> has_char "." (place_point n f) = true.
Proof.
  intros Hf. unfold place_point. destruct f as [|f]; [congruence | ].
  rewrite !has_char_app. cbn. apply orb_true_r.
Qed.

(** [toFixed] prints the text NaN for NaN only. *)
Lemma toFixed_not_NaN (x : float) (f : nat) :
  is_nan x = false -> f <> O -> toFixed x f <> "NaN"%string.
Proof.
  intros Hx Hf. apply not_nan_spec in Hx. unfold toFixed.
  assert (Hdot : forall s : string, has_char "." s = true -> s <> "NaN"%string).
  { intros s Hs E. subst s. discriminate Hs. }
  assert (He : forall s : string, has_char "e" s = true -> s <> "NaN"%string).
  { intros s Hs E. subst s. discriminate Hs. }
  destruct (Prim2SF x) as [s|s| |s m e]; [ | | congruence | ].
  - apply Hdot, place_point_has_dot, Hf.
  - destruct s; discriminate.
  - destruct (0 <=? e).
    + destruct (10 ^ 21 <=? Z.pos m * 2 ^ e).
      * unfold to_exponential.
        destruct (rev (strip_zeros (rev (list_ascii_of_string
                    (digits_of (shortest (abs x) (Z.pos m * 2 ^ e)
                       (String.length (digits_of (Z.pos m * 2 ^ e))) 1 17))))))
          as [|d [|d' r]].
        -- destruct s; discriminate.
        -- apply He. rewrite has_char_app.
           change (String d "e+") with (String d EmptyString ++ "e+")%string.
           rewrite !has_char_app. cbn. rewrite !orb_true_r. reflexivity.
        -- apply Hdot. rewrite has_char_app.
           change (String d ".") with (String d EmptyString ++ ".")%string.
           rewrite !has_char_app. cbn. rewrite !orb_true_r. reflexivity.
      * apply Hdot. rewrite has_char_app, place_point_has_dot by exact Hf.
        apply orb_true_r.
    + apply Hdot. rewrite has_char_app, place_point_has_dot by exact Hf.
      apply orb_true_r.
Qed.

Lemma validateSwapAmount_valid (amount : float) (balance minAmount : float) :
  Utils.valid (Utils.validateSwapAmount (Num amount) balance minAmount) = true ->
  Utils.isPositiveNumber (Num amount) = true
  /\ (amount <? minAmount)%float = false
  /\ (balance <? amount)%float = false.
Proof.
  unfold Utils.validateSwapAmount. cbn [Utils.valid].
  rewrite isPositiveNumber_parsed.
  destruct (Utils.isPositiveNumber (Num amount)) eqn:Hp; cbn [negb app];
    [ | intros H; discriminate H].
  assert (Hn : Utils.parseNumber (Num amount) 0 = amount).
  { unfold Utils.isPositiveNumber in Hp. unfold Utils.parseNumber, isNaN in *.
    destruct (is_nan amount); [discriminate Hp | reflexivity]. }
  rewrite Hn.
  destruct (amount <? minAmount)%float; cbn [app]; [intros H; discriminate H | ].
  destruct (balance <? amount)%float; cbn [app]; [intros H; discriminate H | ].
  auto.
Qed.

(** Whatever [executeSwap] hands to the signing extension goes to the bridge
    account, from the loaded user, with the formatted minimum as memo: a
    HIVE transfer when the input token is HIVE, and a transfer of SWAP.HIVE
    tokens otherwise.  For the input tokens HIVE and SWAP.HIVE the amount is
    not above the balance of that token.  An input token that is neither is
    refused before a request is made, unless it is the name of a member that
    the balances object inherits ([constructor], [toString] and the like):
    the balance read under such a name is no number, the balance check never
    fails against it, and a transfer of SWAP.HIVE tokens is requested.  In
    every case the amount is positive and not below the minimum, and neither
    the quantity nor the memo reads NaN. *)
Theorem executeSwap_request_matches_token
    (cfg : Config) (w : Wallet) (currentSwap : Swap)
    (keychain : option (KeychainRequest -> KeychainResponse))
    (later : Swap) (now : Z) (history : list SwapRecord) (request : KeychainRequest) :
  requested (executeSwap cfg w currentSwap keychain later now history) = Some request ->
  let quantity := toFixed (Utils.roundTo (Num (amount currentSwap)) 3) 3 in
  let memo := toFixed (Utils.roundTo (Num (minReceive currentSwap)) 3) 3 in
  (exists user,
      currentUser w = Some user /\ user <> ""%string
      /\ (from currentSwap = "HIVE"%string
            /\ request = RequestTransfer user (BRIDGE_USER cfg) quantity memo "HIVE"
          \/ (from currentSwap = "SWAP.HIVE"%string
              \/ In (from currentSwap) Object_prototype)
             /\ request = engine_request cfg (amount currentSwap) user memo))
  /\ Utils.isPositiveNumber (Num (amount currentSwap)) = true
  /\ (amount currentSwap <? MINIMUM_SWAP cfg)%float = false
  /\ (from currentSwap = "HIVE"%string ->
      (number_or_zero (balance_HIVE w) <? amount currentSwap)%float = false)
  /\ (from currentSwap = "SWAP.HIVE"%string ->
      (number_or_zero (balance_SWAP_HIVE w) <? amount currentSwap)%float = false)
  /\ quantity <> "NaN"%string
  /\ memo <> "NaN"%string.
Proof.
  unfold executeSwap.
  destruct (validateSwap cfg w currentSwap) eqn:Hv; cbn [negb];
    [ | intros H; discriminate H].
  unfold validateSwap in Hv.
  destruct (currentUser w) as [user|] eqn:Hu; [ | discriminate Hv].
  destruct (String.eqb user "") eqn:Hne; [discriminate Hv | ].
  destruct (ToNumber (getBalance w (from currentSwap))) as [b|] eqn:Eb;
    [ | discriminate Hv].
  apply validateSwapAmount_valid in Hv. destruct Hv as (Hpos & Hmin & Hbal).
  intros Hreq. cbv zeta.
  assert (Hq : toFixed (Utils.roundTo (Num (amount currentSwap)) 3) 3 <> "NaN"%string).
  { apply toFixed_not_NaN; [apply roundTo_not_nan; lia | discriminate]. }
  assert (Hm : toFixed (Utils.roundTo (Num (minReceive currentSwap)) 3) 3
               <> "NaN"%string).
  { apply toFixed_not_NaN; [apply roundTo_not_nan; lia | discriminate]. }
  assert (Hr : request
               = if String.eqb (from currentSwap) "HIVE"
                 then hive_request cfg (amount currentSwap) user
                        (toFixed (Utils.roundTo (Num (minReceive currentSwap)) 3) 3)
                 else engine_request cfg (amount currentSwap) user
                        (toFixed (Utils.roundTo (Num (minReceive currentSwap)) 3) 3)).
  { destruct keychain as [sign|]; [ | discriminate Hreq].
    cbv zeta in Hreq.
    destruct (success (sign _)); cbn [requested] in Hreq; congruence. }
  assert (Hn : Utils.parseNumber (Num (amount currentSwap)) 0 = amount currentSwap).
  { unfold Utils.isPositiveNumber in Hpos. unfold Utils.parseNumber, isNaN in *.
    destruct (is_nan (amount currentSwap)); [discriminate Hpos | reflexivity]. }
  assert (Hgt : (0 <? amount currentSwap)%float = true).
  { unfold Utils.isPositiveNumber in Hpos. rewrite Hn in Hpos.
    apply andb_prop in Hpos. tauto. }
  unfold getBalance in Eb.
  split; [ | split; [exact Hpos | split; [exact Hmin | ] ] ].
  - exists user. split; [reflexivity | ]. split.
    { intros E. subst user. discriminate Hne. }
    destruct (String.eqb (from currentSwap) "HIVE") eqn:Eh.
    + left. apply String.eqb_eq in Eh. split; [exact Eh | exact Hr].
    + right. split; [ | exact Hr].
      destruct (String.eqb (from currentSwap) "SWAP.HIVE") eqn:Es;
        [apply String.eqb_eq in Es; left; exact Es | ].
      destruct (existsb (String.eqb (from currentSwap)) Object_prototype) eqn:Ei.
      * right. apply existsb_exists in Ei. destruct Ei as (name & Hin & Hname).
        apply String.eqb_eq in Hname. subst name. exact Hin.
      * exfalso. cbn in Eb. injection Eb as <-. congruence.
  - split; [ | split; [ | split; assumption ] ].
    + intros E. rewrite E in Eb. cbn in Eb. injection Eb as <-. exact Hbal.
    + intros E. rewrite E in Eb. cbn in Eb. injection Eb as <-. exact Hbal.
Qed.

Lemma executeSwap_request_matches_token_witness :
  let request :=
    RequestTransfer "alice" "uswap" "12.500" "12.400" "HIVE" in
  let w := {| currentUser := Some "alice"%string;
              balance_HIVE := 20; balance_SWAP_HIVE := 0 |} in
  let q := {| from := "HIVE"; to := "SWAP.HIVE"; amount := 12.5;
              expected := 12.45; fee := 0.02; feePercent := 0.2;
              slippage := 0.3; minReceive := 12.4 |} in
  requested (executeSwap CONFIG w q
               (Some (fun _ => {| success := true; transactionId := Some "ab12"%string |}))
               q 1700000000000 [])
  = Some request
  /\ Utils.isPositiveNumber (Num (amount q)) = true.
Proof.
  cbv zeta. split; [reflexivity | ].
  apply (executeSwap_request_matches_token CONFIG
           {| currentUser := Some "alice"%string;
              balance_HIVE := 20; balance_SWAP_HIVE := 0 |}
           {| from := "HIVE"; to := "SWAP.HIVE"; amount := 12.5;
              expected := 12.45; fee := 0.02; feePercent := 0.2;
              slippage := 0.3; minReceive := 12.4 |}
           (Some (fun _ => {| success := true; transactionId := Some "ab12"%string |}))
           {| from := "HIVE"; to := "SWAP.HIVE"; amount := 12.5;
              expected := 12.45; fee := 0.02; feePercent := 0.2;
              slippage := 0.3; minReceive := 12.4 |}
           1700000000000 []
           (RequestTransfer "alice" "uswap" "12.500" "12.400" "HIVE")).
  reflexivity.
Defined.

(** With the input token [constructor] and no balance at all, the
    validation passes and a transfer of 12.5 SWAP.HIVE is requested. *)
Lemma inherited_name_passes_the_balance_check :
  let w := {| currentUser := Some "alice"%string;
              balance_HIVE := 0; balance_SWAP_HIVE := 0 |} in
  let q := {| from := "constructor"; to := "HIVE"; amount := 12.5;
              expected := 12.45; fee := 0.02; feePercent := 0.2;
              slippage := 0.3; minReceive := 12.4 |} in
  validateSwap CONFIG w q = true
  /\ requested (executeSwap CONFIG w q
                  (Some (fun _ => {| success := true;
                                     transactionId := Some "ab12"%string |}))
                  q 1700000000000 [])
     = Some (engine_request CONFIG 12.5 "alice" "12.400").
Proof.
  split; vm_compute; reflexivity.
Qed.

(** ** js/utils.js: thousands separators *)

Module Format.

(** [\w] of a regular expression. *)
Definition is_word (c : ascii) : bool :=
  let n := nat_of_ascii c in
  ((65 <=? n)%nat && (n <=? 90)%nat) || ((97 <=? n)%nat && (n <=? 122)%nat)
  || is_digit c || Ascii.eqb c "_".

(** The length of the run of digits at the head of [l]. *)
Fixpoint digit_run (l : list ascii) : nat :=
  match l with
  | c :: r => if is_digit c then S (digit_run r) else O
  | [] => O
  end.

(** The look-ahead [(?=(\d{3})+(?!\d))]: the digits that follow, up to the
    first character that is not one, come in groups of three. *)
Definition groups_ahead (l : list ascii) : bool :=
  let n := digit_run l in (0 <? n)%nat && (n mod 3 =? 0)%nat.

(** [.replace(/\B(?=(\d{3})+(?!\d))/g, ',')], [prev] being the character
    before [l]: a comma goes in wherever the look-ahead holds and the
    position is not a word boundary, which, a digit following, is where a
    word character precedes. *)
Fixpoint insert_commas (prev : option ascii) (l : list ascii) : list ascii :=
  match l with
  | [] => []
  | c :: r =>
      let here :=
        match prev with
        | Some p => is_word p && groups_ahead l
        | None => false
        end in
      (if here then ["," ; c] else [c])%char ++ insert_commas (Some c) r
  end.

(** [formatNumber(num, decimals = 3)] *)
Definition formatNumber (num : JS.value) (decimals : nat) : string :=
  match num with
  | Num x =>
      string_of_list_ascii
        (insert_commas None (list_ascii_of_string (toFixed x decimals)))
  | _ => "0"
  end.

Definition without_commas (s : string) : string :=
  string_of_list_ascii
    (filter (fun c => negb (Ascii.eqb c ",")) (list_ascii_of_string s)).

End Format.

(** ** Properties of the thousands separators *)

Import Format.

Lemma insert_commas_filter (prev : option ascii) (l : list ascii) :
  filter (fun c => negb (Ascii.eqb c ",")) (insert_commas prev l)
  = filter (fun c => negb (Ascii.eqb c ",")) l.
Proof.
  revert prev. induction l as [|c r IH]; intros prev; [reflexivity | ].
  cbn [insert_commas].
  destruct (match prev with Some p => is_word p && groups_ahead (c :: r) | None => false end);
    cbn [app filter]; rewrite ?Ascii.eqb_refl; cbn [negb]; rewrite IH; reflexivity.
Qed.

(** A comma put into a text that has none is followed by a digit. *)
Lemma insert_commas_placed (prev : option ascii) (l a b : list ascii) (c : ascii) :
  insert_commas prev l = a ++ ","%char :: c :: b ->
  ~ In ","%char l ->
  is_digit c = true.
Proof.
  revert prev a. induction l as [|x r IH]; intros prev a H Hn.
  - destruct a; discriminate H.
  - cbn [insert_commas] in H.
    assert (Hr : ~ In ","%char r) by (intros Hin; apply Hn; right; exact Hin).
    assert (Hx : x <> ","%char) by (intros E; apply Hn; left; exact E).
    destruct (match prev with Some p => is_word p && groups_ahead (x :: r) | None => false end)
      eqn:Eh.
    + cbn [app] in H. destruct a as [|y a].
      * cbn [app] in H. injection H as H1 H2. subst c.
        destruct prev as [p|]; [ | discriminate Eh].
        apply andb_prop in Eh. destruct Eh as [_ Eg].
        unfold groups_ahead in Eg. cbn [digit_run] in Eg.
        destruct (is_digit x); [reflexivity | discriminate Eg].
      * cbn [app] in H. injection H as H1 H2. subst y.
        destruct a as [|z a].
        -- cbn [app] in H2. injection H2 as H2 _. congruence.
        -- cbn [app] in H2. injection H2 as H2 H3. exact (IH (Some x) a H3 Hr).
    + cbn [app] in H. destruct a as [|y a].
      * cbn [app] in H. injection H as H1 _. congruence.
      * cbn [app] in H. injection H as H1 H2. exact (IH (Some x) a H2 Hr).
Qed.

Definition comma_free (s : string) : Prop := ~ In ","%char (list_ascii_of_string s).

Lemma comma_free_app (a b : string) :
  comma_free a -> comma_free b -> comma_free (a ++ b).
Proof.
  unfold comma_free. induction a as [|x a IH]; intros Ha Hb; [exact Hb | ].
  cbn [append list_ascii_of_string In] in *. intros [H|H]; [tauto | ].
  apply IH in H; tauto.
Qed.

Lemma comma_free_substring (n m : nat) (s : string) :
  comma_free s -> comma_free (substring n m s).
Proof.
  unfold comma_free. revert n m. induction s as [|x s IH]; intros n m Hs.
  - destruct n, m; exact Hs.
  - cbn [list_ascii_of_string In] in Hs.
    destruct n as [|n]; [destruct m as [|m] | ]; cbn [substring list_ascii_of_string In].
    + tauto.
    + intros [H|H]; [tauto | ]. apply (IH O m) in H; tauto.
    + apply IH. tauto.
Qed.

Lemma comma_free_zeros (n : nat) : comma_free (zeros n).
Proof.
  unfold comma_free. induction n as [|n IH]; cbn [zeros list_ascii_of_string In];
    [tauto | ]. intros [H|H]; [discriminate H | tauto].
Qed.

Lemma comma_free_digits_of (n : Z) : comma_free (digits_of n).
Proof.
  unfold digits_of, NilZero.string_of_uint.
  destruct (N.to_uint (Z.to_N n)) as [|u|u|u|u|u|u|u|u|u|u] eqn:E;
    try (intros [H|[]]; discriminate H);
    rewrite <- E; clear E;
    generalize (N.to_uint (Z.to_N n)); clear;
    intros u; unfold comma_free; induction u;
    cbn [NilEmpty.string_of_uint list_ascii_of_string In];
    try tauto; intros [H|H]; try discriminate H; tauto.
Qed.

Lemma comma_free_place_point (n : Z) (f : nat) : comma_free (place_point n f).
Proof.
  unfold place_point. destruct f as [|f]; [apply comma_free_digits_of | ].
  repeat apply comma_free_app;
    try apply comma_free_substring;
    try (apply comma_free_app; [apply comma_free_zeros | apply comma_free_digits_of]).
  intros [H|[]]; discriminate H.
Qed.

Lemma strip_zeros_In (c : ascii) (l : list ascii) : In c (strip_zeros l) -> In c l.
Proof.
  induction l as [|x l IH]; cbn [strip_zeros]; [tauto | ].
  destruct (Ascii.eqb x "0"); cbn [In]; tauto.
Qed.

Lemma comma_free_of_list (l : list ascii) :
  ~ In ","%char l -> comma_free (string_of_list_ascii l).
Proof.
  unfold comma_free. rewrite list_ascii_of_string_of_list_ascii. tauto.
Qed.

Lemma comma_free_to_exponential (x : float) (X : Z) : comma_free (to_exponential x X).
Proof.
  unfold to_exponential.
  set (c := shortest x X (String.length (digits_of X)) 1 17).
  assert (Hds : ~ In ","%char
                  (rev (strip_zeros (rev (list_ascii_of_string (digits_of c)))))).
  { intros H. apply in_rev, strip_zeros_In in H. rewrite <- in_rev in H.
    exact (comma_free_digits_of c H). }
  destruct (rev (strip_zeros (rev (list_ascii_of_string (digits_of c)))))
    as [|d [|d' r]].
  - intros [H|[]]; discriminate H.
  - change (String d "e+") with (String d EmptyString ++ "e+")%string.
    repeat apply comma_free_app; try apply comma_free_digits_of.
    + intros [H|[]]. apply Hds. left. exact H.
    + intros [H|[H|[]]]; discriminate H.
  - change (String d ".") with (String d EmptyString ++ ".")%string.
    repeat apply comma_free_app; try apply comma_free_digits_of.
    + intros [H|[]]. apply Hds. left. exact H.
    + intros [H|[]]; discriminate H.
    + apply comma_free_of_list. intros H. apply Hds. right. exact H.
    + intros [H|[H|[]]]; discriminate H.
Qed.

Lemma comma_free_toFixed (x : float) (f : nat) : comma_free (toFixed x f).
Proof.
  unfold toFixed. destruct (Prim2SF x) as [s|s| |s m e].
  - apply comma_free_place_point.
  - destruct s; vm_compute; intuition discriminate.
  - vm_compute; intuition discriminate.
  - apply comma_free_app.
    + destruct s; vm_compute; intuition discriminate.
    + destruct (0 <=? e); [destruct (10 ^ 21 <=? Z.pos m * 2 ^ e) | ];
        [apply comma_free_to_exponential | apply comma_free_place_point
         | apply comma_free_place_point].
Qed.

Lemma filter_comma_free (l : list ascii) :
  ~ In ","%char l -> filter (fun c => negb (Ascii.eqb c ",")) l = l.
Proof.
  induction l as [|c l IH]; intros H; [reflexivity | ].
  cbn [filter]. destruct (Ascii.eqb c ",") eqn:E.
  - apply Ascii.eqb_eq in E. exfalso. apply H. left. exact E.
  - cbn [negb]. rewrite IH; [reflexivity | ]. intros Hin. apply H. right. exact Hin.
Qed.

(** [formatNumber] only inserts commas into the text of [toFixed]: for a
    number of decimals that [toFixed] accepts, taking the commas out gives
    that text back, and each comma is followed by a digit.  The grouping is
    not confined to the integer part: with more than three decimals the
    fraction is grouped as well.  What is not a number is printed as 0. *)
Theorem formatNumber_only_inserts_commas (x : float) (decimals : nat) :
  (decimals <= 100)%nat ->
  without_commas (formatNumber (Num x) decimals) = toFixed x decimals
  /\ (forall a b c,
        list_ascii_of_string (formatNumber (Num x) decimals)
        = a ++ ","%char :: c :: b -> is_digit c = true)
  /\ formatNumber (Num 1234567.891) 2 = "1,234,567.89"%string
  /\ formatNumber (Num 0.12345) 5 = "0.12,345"%string
  /\ formatNumber (Str "12") decimals = "0"%string.
Proof.
  intros _. split; [ | split; [ | repeat split]].
  - unfold without_commas, formatNumber.
    rewrite list_ascii_of_string_of_list_ascii, insert_commas_filter.
    rewrite filter_comma_free by apply comma_free_toFixed.
    apply string_of_list_ascii_of_string.
  - intros a b c H. unfold formatNumber in H.
    rewrite list_ascii_of_string_of_list_ascii in H.
    exact (insert_commas_placed None _ a b c H (comma_free_toFixed x decimals)).
Qed.

Lemma formatNumber_only_inserts_commas_witness :
  without_commas (formatNumber (Num 24900.5) 3) = toFixed 24900.5 3.
Proof.
  apply (formatNumber_only_inserts_commas 24900.5 3). lia.
Defined.

(** ** The order of binary64 numbers under rounding *)

(** *** Shifting with a round bit and a sticky bit *)

Lemma iter_pos_nat {A : Type} (f : A -> A) (p : positive) (x : A) :
  iter_pos f p x = Nat.iter (Pos.to_nat p) f x.
Proof.
  assert (Hadd : forall (n k : nat) (y : A),
             Nat.iter n f (Nat.iter k f y) = Nat.iter (n + k) f y).
  { induction n as [|n IH]; intros k y; [reflexivity | ].
    change (Nat.iter (S n) f ?z) with (f (Nat.iter n f z)).
    change (Nat.iter (S n + k) f ?z) with (f (Nat.iter (n + k) f z)).
    rewrite IH. reflexivity. }
  assert (Hcomm : forall (n : nat) (y : A), Nat.iter n f (f y) = f (Nat.iter n f y)).
  { induction n as [|n IH]; intros y; [reflexivity | ].
    change (Nat.iter (S n) f ?z) with (f (Nat.iter n f z)).
    rewrite IH. reflexivity. }
  revert x. induction p as [p IH|p IH|]; intros x; cbn [iter_pos].
  - rewrite !IH, Hadd, Hcomm, Pos2Nat.inj_xI.
    replace (2 * Pos.to_nat p)%nat with (Pos.to_nat p + Pos.to_nat p)%nat by lia.
    reflexivity.
  - rewrite !IH, Hadd, Pos2Nat.inj_xO.
    replace (2 * Pos.to_nat p)%nat with (Pos.to_nat p + Pos.to_nat p)%nat by lia.
    reflexivity.
  - reflexivity.
Qed.

Lemma shr_1_spec (m : Z) (r s : bool) :
  0 <= m ->
  shr_1 {| shr_m := m; shr_r := r; shr_s := s |}
  = {| shr_m := m / 2; shr_r := Z.odd m; shr_s := r || s |}.
Proof.
  intros H. rewrite <- Z.div2_div.
  destruct m as [|[p|p|]|p]; try reflexivity. lia.
Qed.

(** The record after [k >= 1] shifts of [m]. *)
Definition shifted (m k : Z) : shr_record :=
  {| shr_m := m / 2 ^ k;
     shr_r := Z.testbit m (k - 1);
     shr_s := negb (m mod 2 ^ (k - 1) =? 0) |}.

Lemma mod_pow2_succ (m k : Z) :
  0 <= k ->
  m mod 2 ^ (k + 1) = m mod 2 ^ k + 2 ^ k * (if Z.testbit m k then 1 else 0).
Proof.
  intros Hk. rewrite Z.pow_add_r by lia. change (2 ^ 1) with 2.
  rewrite Z.rem_mul_r by (try apply Z.pow_nonzero; lia). f_equal. f_equal.
  rewrite <- Z.testbit_spec' by lia. destruct (Z.testbit m k); reflexivity.
Qed.

Lemma iter_shr_1 (m : Z) (k : nat) :
  0 <= m ->
  Nat.iter (S k) shr_1 {| shr_m := m; shr_r := false; shr_s := false |}
  = shifted m (Z.of_nat (S k)).
Proof.
  intros Hm. induction k as [|k IH].
  - change (Nat.iter 1 shr_1 ?x) with (shr_1 x).
    rewrite shr_1_spec by exact Hm. unfold shifted.
    change (Z.of_nat 1 - 1) with 0. change (2 ^ 0) with 1. change (2 ^ Z.of_nat 1) with 2.
    rewrite Z.mod_1_r, Z.bit0_odd. reflexivity.
  - change (Nat.iter (S (S k)) shr_1 ?x) with (shr_1 (Nat.iter (S k) shr_1 x)).
    rewrite IH. unfold shifted.
    assert (Hp : 0 < 2 ^ Z.of_nat (S k)) by (apply Z.pow_pos_nonneg; lia).
    rewrite shr_1_spec by (apply Z.div_pos; lia).
    replace (Z.of_nat (S (S k))) with (Z.of_nat (S k) + 1) by lia.
    replace (Z.of_nat (S k) + 1 - 1) with (Z.of_nat (S k)) by lia.
    f_equal.
    + rewrite Z.pow_add_r by lia. rewrite Z.div_div by lia. reflexivity.
    + rewrite Z.testbit_odd, Z.shiftr_div_pow2 by lia. reflexivity.
    + pose proof (mod_pow2_succ m (Z.of_nat (S k) - 1) ltac:(lia)) as Hmod.
      replace (Z.of_nat (S k) - 1 + 1) with (Z.of_nat (S k)) in Hmod by lia.
      rewrite Hmod.
      assert (Hq : 0 < 2 ^ (Z.of_nat (S k) - 1)) by (apply Z.pow_pos_nonneg; lia).
      pose proof (Z.mod_pos_bound m (2 ^ (Z.of_nat (S k) - 1)) Hq) as Hb.
      destruct (Z.testbit m (Z.of_nat (S k) - 1)); cbn [orb].
      * symmetry. apply negb_true_iff, Z.eqb_neq. lia.
      * rewrite Z.mul_0_r, Z.add_0_r. reflexivity.
Qed.

Lemma iter_pos_shr_1 (m : Z) (p : positive) :
  0 <= m ->
  iter_pos shr_1 p {| shr_m := m; shr_r := false; shr_s := false |}
  = shifted m (Z.pos p).
Proof.
  intros Hm. rewrite iter_pos_nat.
  destruct (Pos.to_nat p) as [|k] eqn:E; [lia | ].
  rewrite iter_shr_1 by exact Hm. f_equal. lia.
Qed.

(** *** Rounding to nearest, ties to even *)

(** The integer nearest to [m / 2^k], ties to even, for [k >= 1]. *)
Definition rne (m k : Z) : Z :=
  let q := m / 2 ^ k in
  let r := m mod 2 ^ k in
  let h := 2 ^ (k - 1) in
  if r <? h then q
  else if h <? r then q + 1
  else if Z.even q then q else q + 1.

Lemma round_shifted (m k : Z) :
  0 <= m -> 1 <= k ->
  round_nearest_even (shr_m (shifted m k)) (loc_of_shr_record (shifted m k))
  = rne m k.
Proof.
  intros Hm Hk. unfold shifted, rne. cbn [shr_m loc_of_shr_record].
  pose proof (mod_pow2_succ m (k - 1) ltac:(lia)) as Hmod.
  replace (k - 1 + 1) with k in Hmod by lia.
  rewrite Hmod.
  assert (Hq : 0 < 2 ^ (k - 1)) by (apply Z.pow_pos_nonneg; lia).
  pose proof (Z.mod_pos_bound m (2 ^ (k - 1)) Hq) as Hb.
  destruct (Z.testbit m (k - 1)).
  - destruct (m mod 2 ^ (k - 1) =? 0) eqn:E; cbn [negb round_nearest_even].
    + apply Z.eqb_eq in E. rewrite E.
      replace (0 + 2 ^ (k - 1) * 1) with (2 ^ (k - 1)) by lia.
      rewrite !Z.ltb_irrefl. reflexivity.
    + apply Z.eqb_neq in E.
      replace (m mod 2 ^ (k - 1) + 2 ^ (k - 1) * 1 <? 2 ^ (k - 1)) with false
        by (symmetry; apply Z.ltb_ge; lia).
      replace (2 ^ (k - 1) <? m mod 2 ^ (k - 1) + 2 ^ (k - 1) * 1) with true
        by (symmetry; apply Z.ltb_lt; lia).
      reflexivity.
  - rewrite Z.mul_0_r, Z.add_0_r.
    replace (m mod 2 ^ (k - 1) <? 2 ^ (k - 1)) with true
      by (symmetry; apply Z.ltb_lt; lia).
    destruct (m mod 2 ^ (k - 1) =? 0); reflexivity.
Qed.

Lemma rne_mono (m1 m2 k : Z) : 1 <= k -> m1 <= m2 -> rne m1 k <= rne m2 k.
Proof.
  intros Hk H. unfold rne.
  assert (Hp : 0 < 2 ^ k) by (apply Z.pow_pos_nonneg; lia).
  assert (Hh : 2 ^ k = 2 * 2 ^ (k - 1)).
  { replace k with (k - 1 + 1) at 1 by lia. rewrite Z.pow_add_r by lia. lia. }
  pose proof (Z.div_mod m1 (2 ^ k) ltac:(lia)) as E1.
  pose proof (Z.div_mod m2 (2 ^ k) ltac:(lia)) as E2.
  pose proof (Z.mod_pos_bound m1 (2 ^ k) Hp) as B1.
  pose proof (Z.mod_pos_bound m2 (2 ^ k) Hp) as B2.
  set (q1 := m1 / 2 ^ k) in *. set (q2 := m2 / 2 ^ k) in *.
  set (r1 := m1 mod 2 ^ k) in *. set (r2 := m2 mod 2 ^ k) in *.
  set (h := 2 ^ (k - 1)) in *.
  assert (Hq : q1 <= q2) by nia.
  destruct (Z.eq_dec q1 q2) as [E|E].
  - assert (Hr : r1 <= r2) by nia. rewrite <- E.
    destruct (r1 <? h) eqn:A1; destruct (h <? r1) eqn:A2;
      destruct (r2 <? h) eqn:A3; destruct (h <? r2) eqn:A4;
      destruct (Z.even q1); lia.
  - destruct (r1 <? h); destruct (h <? r1); destruct (r2 <? h); destruct (h <? r2);
      destruct (Z.even q1); destruct (Z.even q2); lia.
Qed.

Lemma rne_exact (n k : Z) : 1 <= k -> rne (n * 2 ^ k) k = n.
Proof.
  intros Hk. unfold rne.
  assert (Hp : 0 < 2 ^ k) by (apply Z.pow_pos_nonneg; lia).
  assert (Hh : 0 < 2 ^ (k - 1)) by (apply Z.pow_pos_nonneg; lia).
  rewrite Z.div_mul, Z.mod_mul by lia.
  replace (0 <? 2 ^ (k - 1)) with true by (symmetry; apply Z.ltb_lt; lia).
  reflexivity.
Qed.

Lemma rne_scale (m k j : Z) :
  1 <= k -> 0 <= j -> rne (m * 2 ^ j) (k + j) = rne m k.
Proof.
  intros Hk Hj. unfold rne.
  assert (Hpj : 0 < 2 ^ j) by (apply Z.pow_pos_nonneg; lia).
  assert (Hpk : 0 < 2 ^ k) by (apply Z.pow_pos_nonneg; lia).
  assert (Hh : 0 < 2 ^ (k - 1)) by (apply Z.pow_pos_nonneg; lia).
  rewrite Z.pow_add_r by lia.
  replace (k + j - 1) with (k - 1 + j) by lia. rewrite Z.pow_add_r by lia.
  rewrite Z.div_mul_cancel_r by lia.
  rewrite Z.mul_mod_distr_r by lia.
  set (r := m mod 2 ^ k). set (h := 2 ^ (k - 1)) in *.
  assert (E1 : (r * 2 ^ j <? h * 2 ^ j) = (r <? h)).
  { destruct (r <? h) eqn:A; [apply Z.ltb_lt in A; apply Z.ltb_lt; nia
                             | apply Z.ltb_ge in A; apply Z.ltb_ge; nia]. }
  assert (E2 : (h * 2 ^ j <? r * 2 ^ j) = (h <? r)).
  { destruct (h <? r) eqn:A; [apply Z.ltb_lt in A; apply Z.ltb_lt; nia
                             | apply Z.ltb_ge in A; apply Z.ltb_ge; nia]. }
  rewrite E1, E2. reflexivity.
Qed.

(** The mantissa at the exponent [n] places up; nothing is lost when
    [n <= 0]. *)
Definition RN (m n : Z) : Z := if n <=? 0 then m * 2 ^ (- n) else rne m n.

Lemma RN_mono (m1 m2 n : Z) : m1 <= m2 -> RN m1 n <= RN m2 n.
Proof.
  intros H. unfold RN. destruct (n <=? 0) eqn:E.
  - apply Z.leb_le in E. apply Z.mul_le_mono_nonneg_r; [ | exact H].
    apply Z.pow_nonneg. lia.
  - apply Z.leb_gt in E. apply rne_mono; lia.
Qed.

Lemma RN_pow (a c n : Z) : 0 <= c -> n <= c -> RN (a * 2 ^ c) n = a * 2 ^ (c - n).
Proof.
  intros Hc Hn. unfold RN. destruct (n <=? 0) eqn:E.
  - apply Z.leb_le in E. rewrite <- Z.mul_assoc, <- Z.pow_add_r by lia.
    f_equal; f_equal; lia.
  - apply Z.leb_gt in E.
    replace (a * 2 ^ c) with ((a * 2 ^ (c - n)) * 2 ^ n).
    + apply rne_exact. lia.
    + rewrite <- Z.mul_assoc, <- Z.pow_add_r by lia. f_equal; f_equal; lia.
Qed.

Lemma RN_scale (m n j : Z) : 0 <= j -> RN (m * 2 ^ j) (n + j) = RN m n.
Proof.
  intros Hj. unfold RN at 2. destruct (n <=? 0) eqn:E.
  - apply Z.leb_le in E. rewrite RN_pow by lia. f_equal; f_equal; lia.
  - apply Z.leb_gt in E. unfold RN.
    replace (n + j <=? 0) with false by (symmetry; apply Z.leb_gt; lia).
    apply rne_scale; lia.
Qed.

(** *** The number of binary digits *)

Definition dig (m : positive) : Z := Z.pos (digits2_pos m).

Lemma dig_spec (m : positive) : 2 ^ (dig m - 1) <= Z.pos m < 2 ^ dig m.
Proof.
  unfold dig. induction m as [m IH|m IH|].
  - cbn [digits2_pos]. rewrite Pos2Z.inj_succ.
    replace (Z.succ (Z.pos (digits2_pos m)) - 1) with (Z.pos (digits2_pos m) - 1 + 1) by lia.
    unfold Z.succ. rewrite !Z.pow_add_r by lia. change (2 ^ 1) with 2. lia.
  - cbn [digits2_pos]. rewrite Pos2Z.inj_succ.
    replace (Z.succ (Z.pos (digits2_pos m)) - 1) with (Z.pos (digits2_pos m) - 1 + 1) by lia.
    unfold Z.succ. rewrite !Z.pow_add_r by lia. change (2 ^ 1) with 2. lia.
  - cbn. lia.
Qed.

Lemma dig_pos (m : positive) : 1 <= dig m.
Proof. unfold dig. lia. Qed.

Lemma dig_unique (m : positive) (d : Z) :
  2 ^ (d - 1) <= Z.pos m < 2 ^ d -> dig m = d.
Proof.
  intros [H1 H2]. pose proof (dig_spec m) as [H3 H4]. pose proof (dig_pos m) as H5.
  assert (Hd : 1 <= d).
  { destruct (Z_lt_le_dec d 1) as [Hlt|Hle]; [ | exact Hle].
    assert (2 ^ d <= 2 ^ 0) by (destruct (Z_lt_le_dec d 0);
      [rewrite Z.pow_neg_r by lia; cbn; lia | apply Z.pow_le_mono_r; lia]).
    cbn in *. lia. }
  assert (A : dig m - 1 < d).
  { apply (Z.pow_lt_mono_r_iff 2); lia. }
  assert (B : d - 1 < dig m).
  { apply (Z.pow_lt_mono_r_iff 2); lia. }
  lia.
Qed.

Lemma dig_mul_pow (m : positive) (j : Z) (p : positive) :
  0 <= j -> Z.pos p = Z.pos m * 2 ^ j -> dig p = dig m + j.
Proof.
  intros Hj Hp. apply dig_unique. rewrite Hp.
  pose proof (dig_spec m) as [H1 H2]. pose proof (dig_pos m) as H3.
  replace (dig m + j - 1) with (dig m - 1 + j) by lia.
  rewrite !Z.pow_add_r by lia.
  assert (0 < 2 ^ j) by (apply Z.pow_pos_nonneg; lia). nia.
Qed.

Lemma fexp_spec (e : Z) : fexp prec emax e = Z.max (e - 53) (-1074).
Proof. reflexivity. Qed.

(** *** What [binary_round] returns *)

(** The last step of [binary_round_aux]. *)
Definition finish (s : bool) (M t : Z) : spec_float :=
  let '(mrs, e) := shr_fexp prec emax M t loc_Exact in
  match shr_m mrs with
  | Z0 => S754_zero s
  | Zpos m => if e <=? emax - prec then S754_finite s m e else S754_infinity s
  | Zneg _ => S754_nan
  end.

(** The mantissa and exponent once a carry into the 54th bit is absorbed. *)
Definition norm (M t : Z) : Z * Z :=
  if M =? 2 ^ 53 then (2 ^ 52, t + 1) else (M, t).

Definition pack (s : bool) (Mt : Z * Z) : spec_float :=
  match fst Mt with
  | Zpos m => if snd Mt <=? 971 then S754_finite s m (snd Mt) else S754_infinity s
  | _ => S754_zero s
  end.

Lemma finish_spec (s : bool) (M t : Z) :
  -1074 <= t -> 0 <= M <= 2 ^ 53 -> finish s M t = pack s (norm M t).
Proof.
  intros Ht HM. unfold finish, norm, shr_fexp, shr.
  destruct M as [|p|p]; [ | | lia].
  - cbn [Zdigits2 shr_record_of_loc]. rewrite fexp_spec.
    destruct (Z.max (0 + t - 53) (-1074) - t) eqn:E; try reflexivity. lia.
  - cbn [Zdigits2 shr_record_of_loc]. rewrite fexp_spec. fold (dig p).
    pose proof (dig_spec p) as [H1 H2].
    destruct (Z.pos p =? 2 ^ 53) eqn:E53.
    + apply Z.eqb_eq in E53.
      assert (Hd : dig p = 54) by (apply dig_unique; rewrite E53; cbn; lia).
      rewrite Hd. replace (Z.max (54 + t - 53) (-1074) - t) with 1 by lia.
      rewrite iter_pos_shr_1 by lia. unfold shifted. cbn [shr_m].
      rewrite E53. change (2 ^ 53 / 2 ^ 1) with (2 ^ 52).
      unfold pack. cbn [fst snd]. reflexivity.
    + apply Z.eqb_neq in E53.
      assert (Hd : dig p <= 53).
      { destruct (Z_lt_le_dec 53 (dig p)) as [Hlt|Hle]; [ | exact Hle].
        assert (2 ^ 53 <= 2 ^ (dig p - 1)) by (apply Z.pow_le_mono_r; lia). lia. }
      destruct (Z.max (dig p + t - 53) (-1074) - t) eqn:E; try lia;
        cbn [shr_m]; unfold pack; cbn [fst snd]; reflexivity.
Qed.

Lemma binary_round_aux_exact (s : bool) (m : positive) (e : Z) :
  e <= fexp prec emax (dig m + e) ->
  binary_round_aux prec emax s (Z.pos m) e loc_Exact
  = finish s (RN (Z.pos m) (fexp prec emax (dig m + e) - e))
      (fexp prec emax (dig m + e)).
Proof.
  intros Hle. unfold binary_round_aux, finish.
  set (t := fexp prec emax (dig m + e)) in *.
  assert (E1 : shr_fexp prec emax (Z.pos m) e loc_Exact
               = (if t - e =? 0
                  then {| shr_m := Z.pos m; shr_r := false; shr_s := false |}
                  else shifted (Z.pos m) (t - e), t)).
  { unfold shr_fexp, shr. cbn [Zdigits2 shr_record_of_loc]. fold (dig m). fold t.
    destruct (t - e) as [|p|p] eqn:E; try lia.
    - cbn. f_equal. lia.
    - rewrite iter_pos_shr_1 by lia. cbn. f_equal. lia. }
  rewrite E1.
  assert (E2 : round_nearest_even
                 (shr_m (if t - e =? 0
                         then {| shr_m := Z.pos m; shr_r := false; shr_s := false |}
                         else shifted (Z.pos m) (t - e)))
                 (loc_of_shr_record
                    (if t - e =? 0
                     then {| shr_m := Z.pos m; shr_r := false; shr_s := false |}
                     else shifted (Z.pos m) (t - e)))
               = RN (Z.pos m) (t - e)).
  { unfold RN. destruct (t - e =? 0) eqn:E.
    - apply Z.eqb_eq in E. rewrite E. cbn. lia.
    - apply Z.eqb_neq in E.
      replace (t - e <=? 0) with false by (symmetry; apply Z.leb_gt; lia).
      apply round_shifted; lia. }
  rewrite E2. reflexivity.
Qed.

Lemma binary_round_spec (s : bool) (m : positive) (e : Z) :
  binary_round prec emax s m e
  = finish s (RN (Z.pos m) (fexp prec emax (dig m + e) - e))
      (fexp prec emax (dig m + e)).
Proof.
  unfold binary_round. fold (dig m).
  set (t := fexp prec emax (dig m + e)).
  unfold shl_align. destruct (t - e) as [|p|p] eqn:E.
  - rewrite binary_round_aux_exact; fold t; [ | lia]. rewrite E. reflexivity.
  - rewrite binary_round_aux_exact; fold t; [ | lia]. rewrite E. reflexivity.
  - assert (Hz : Z.pos (Pos.iter xO m p) = Z.pos m * 2 ^ Z.pos p).
    { change (Pos.iter xO m p) with (shift_pos p m).
      rewrite shift_pos_correct, Z.pow_pos_fold. lia. }
    assert (Hd : dig (Pos.iter xO m p) = dig m + Z.pos p).
    { apply dig_mul_pow; [lia | exact Hz]. }
    assert (Ht : fexp prec emax (dig (Pos.iter xO m p) + t) = t).
    { rewrite Hd. replace (dig m + Z.pos p + t) with (dig m + e) by lia. reflexivity. }
    rewrite binary_round_aux_exact; rewrite Ht; [ | lia].
    replace (t - t) with 0 by lia.
    f_equal. unfold RN. cbn [Z.leb Z.compare Z.opp].
    rewrite Hz. change (2 ^ 0) with 1. rewrite Z.mul_1_r. reflexivity.
Qed.

(** The mantissa [binary_round] keeps is in range. *)
Lemma RN_bounds (m : positive) (e : Z) :
  let t := fexp prec emax (dig m + e) in
  let M := RN (Z.pos m) (t - e) in
  0 <= M <= 2 ^ 53 /\ (-1074 < t -> 2 ^ 52 <= M).
Proof.
  cbv zeta. rewrite fexp_spec.
  pose proof (dig_spec m) as [H1 H2]. pose proof (dig_pos m) as H3.
  set (d := dig m) in *. set (t := Z.max (d + e - 53) (-1074)).
  assert (H0 : 0 <= RN (Z.pos m) (t - e)).
  { replace 0 with (RN 0 (t - e)); [apply RN_mono; lia | ].
    unfold RN, rne. destruct (t - e <=? 0) eqn:E; [reflexivity | ].
    apply Z.leb_gt in E.
    assert (0 < 2 ^ (t - e - 1)) by (apply Z.pow_pos_nonneg; lia).
    rewrite Z.div_0_l, Z.mod_0_l by (apply Z.pow_nonzero; lia).
    replace (0 <? 2 ^ (t - e - 1)) with true by (symmetry; apply Z.ltb_lt; lia).
    reflexivity. }
  split; [split; [exact H0 | ] | ].
  - destruct (Z_le_gt_dec (t - e) d) as [Hn|Hn].
    + assert (Hle : RN (Z.pos m) (t - e) <= RN (1 * 2 ^ d) (t - e))
        by (apply RN_mono; lia).
      rewrite RN_pow in Hle by lia.
      assert (2 ^ (d - (t - e)) <= 2 ^ 53) by (apply Z.pow_le_mono_r; lia).
      lia.
    + assert (Hle : RN (Z.pos m) (t - e) <= RN (2 ^ (t - e - 1)) (t - e)).
      { apply RN_mono. assert (2 ^ d <= 2 ^ (t - e - 1)) by (apply Z.pow_le_mono_r; lia).
        lia. }
      assert (Hz : RN (2 ^ (t - e - 1)) (t - e) = 0).
      { unfold RN, rne.
        replace (t - e <=? 0) with false by (symmetry; apply Z.leb_gt; lia).
        assert (Hh : 0 < 2 ^ (t - e - 1)) by (apply Z.pow_pos_nonneg; lia).
        assert (Hp : 2 ^ (t - e) = 2 * 2 ^ (t - e - 1)).
        { replace (t - e) with (t - e - 1 + 1) at 1 by lia.
          rewrite Z.pow_add_r by lia. lia. }
        rewrite Z.div_small, Z.mod_small by lia.
        rewrite !Z.ltb_irrefl. reflexivity. }
      assert (2 ^ 53 > 0) by (cbn; lia). lia.
  - intros Ht.
    assert (Hn : t - e = d - 53) by lia.
    assert (Hle : RN (1 * 2 ^ (d - 1)) (t - e) <= RN (Z.pos m) (t - e))
      by (apply RN_mono; lia).
    rewrite RN_pow in Hle by lia.
    replace (d - 1 - (t - e)) with 52 in Hle by lia. lia.
Qed.

Lemma binary_round_pack (s : bool) (m : positive) (e : Z) :
  binary_round prec emax s m e
  = pack s (norm (RN (Z.pos m) (fexp prec emax (dig m + e) - e))
              (fexp prec emax (dig m + e))).
Proof.
  rewrite binary_round_spec. apply finish_spec.
  - rewrite fexp_spec. lia.
  - apply RN_bounds.
Qed.

(** *** Rounding is monotone *)

(** The order of two normalised mantissa and exponent pairs. *)
Definition key_le (a b : Z * Z) : Prop :=
  fst a <= 0
  \/ (0 < fst b /\ (snd a < snd b \/ (snd a = snd b /\ fst a <= fst b))).

Lemma pack_le (a b : Z * Z) :
  key_le a b ->
  SFleb (pack false a) (pack false b) = true
  /\ SFleb (pack true b) (pack true a) = true.
Proof.
  destruct a as [M1 t1], b as [M2 t2]. unfold key_le, pack, SFleb. cbn [fst snd].
  intros [H|[H2 H]].
  - destruct M1 as [|p1|p1]; try lia;
      destruct M2 as [|p2|p2]; try (destruct (t2 <=? 971)); split; reflexivity.
  - destruct M2 as [|p2|p2]; try lia.
    destruct M1 as [|p1|p1];
      try (destruct (t2 <=? 971); split; reflexivity).
    destruct (t1 <=? 971) eqn:E1; destruct (t2 <=? 971) eqn:E2;
      try (split; reflexivity).
    + cbn [SFcompare]. destruct H as [H|[H H']].
      * rewrite (proj2 (Z.compare_lt_iff t1 t2) H).
        rewrite (proj2 (Z.compare_gt_iff t2 t1) H). split; reflexivity.
      * subst t2. rewrite Z.compare_refl.
        rewrite !Pos.compare_cont_spec. cbn [Pos.switch_Eq].
        assert (Hp : (p1 <= p2)%positive) by lia.
        destruct (Pos.compare_spec p1 p2) as [E|E|E]; try lia.
        -- subst p2. rewrite Pos.compare_refl. split; reflexivity.
        -- rewrite (proj2 (Pos.compare_gt_iff p2 p1) E). split; reflexivity.
    + apply Z.leb_le in E2. apply Z.leb_gt in E1. lia.
Qed.

Lemma norm_le_same (M1 M2 t : Z) :
  0 <= M1 <= M2 -> M2 <= 2 ^ 53 -> key_le (norm M1 t) (norm M2 t).
Proof.
  intros H1 H2. unfold norm, key_le.
  assert (0 < 2 ^ 52 < 2 ^ 53) by (cbn; lia).
  destruct (Z.eqb_spec M1 (2 ^ 53)) as [E1|E1];
    destruct (Z.eqb_spec M2 (2 ^ 53)) as [E2|E2]; cbn [fst snd]; lia.
Qed.

Lemma norm_le_below (M1 M2 t1 t2 : Z) :
  0 <= M1 <= 2 ^ 53 -> 2 ^ 52 <= M2 <= 2 ^ 53 -> t1 < t2 ->
  key_le (norm M1 t1) (norm M2 t2).
Proof.
  intros H1 H2 Ht. unfold norm, key_le.
  assert (0 < 2 ^ 52 < 2 ^ 53) by (cbn; lia).
  destruct (Z.eqb_spec M1 (2 ^ 53)) as [E1|E1];
    destruct (Z.eqb_spec M2 (2 ^ 53)) as [E2|E2]; cbn [fst snd]; lia.
Qed.

(** Two positive values [m1 * 2^e1 <= m2 * 2^e2], compared at their
    smaller exponent. *)
Definition dle (m1 e1 m2 e2 : Z) : Prop :=
  m1 * 2 ^ (e1 - Z.min e1 e2) <= m2 * 2 ^ (e2 - Z.min e1 e2).

Lemma round_key_le (m1 m2 : positive) (e1 e2 : Z) :
  dle (Z.pos m1) e1 (Z.pos m2) e2 ->
  key_le
    (norm (RN (Z.pos m1) (fexp prec emax (dig m1 + e1) - e1))
       (fexp prec emax (dig m1 + e1)))
    (norm (RN (Z.pos m2) (fexp prec emax (dig m2 + e2) - e2))
       (fexp prec emax (dig m2 + e2))).
Proof.
  unfold dle. intros H.
  pose proof (RN_bounds m1 e1) as [B1 L1]. pose proof (RN_bounds m2 e2) as [B2 L2].
  cbv zeta in *. rewrite !fexp_spec in *.
  pose proof (dig_spec m1) as [A1 A2]. pose proof (dig_spec m2) as [A3 A4].
  pose proof (dig_pos m1) as P1. pose proof (dig_pos m2) as P2.
  set (k := Z.min e1 e2) in *.
  assert (HE : dig m1 + e1 <= dig m2 + e2).
  { assert (Hp1 : 0 < 2 ^ (e1 - k)) by (apply Z.pow_pos_nonneg; lia).
    assert (Hp2 : 0 < 2 ^ (e2 - k)) by (apply Z.pow_pos_nonneg; lia).
    assert (Hlt : 2 ^ (dig m1 - 1 + (e1 - k)) < 2 ^ (dig m2 + (e2 - k))).
    { rewrite !Z.pow_add_r by lia. nia. }
    apply Z.pow_lt_mono_r_iff in Hlt; lia. }
  set (t1 := Z.max (dig m1 + e1 - 53) (-1074)) in *.
  set (t2 := Z.max (dig m2 + e2 - 53) (-1074)) in *.
  assert (Ht : t1 <= t2) by lia.
  destruct (Z.eq_dec t1 t2) as [E|E].
  - rewrite <- E in *. apply norm_le_same; [ | lia].
    split; [lia | ].
    rewrite <- (RN_scale (Z.pos m1) (t1 - e1) (e1 - k)) by lia.
    rewrite <- (RN_scale (Z.pos m2) (t1 - e2) (e2 - k)) by lia.
    replace (t1 - e1 + (e1 - k)) with (t1 - k) by lia.
    replace (t1 - e2 + (e2 - k)) with (t1 - k) by lia.
    apply RN_mono. exact H.
  - apply norm_le_below; [lia | | lia]. split; [apply L2; lia | lia].
Qed.

(** Rounding keeps the order of positive values, and reverses it under a
    negative sign. *)
Lemma binary_round_mono (m1 m2 : positive) (e1 e2 : Z) :
  dle (Z.pos m1) e1 (Z.pos m2) e2 ->
  SFleb (binary_round prec emax false m1 e1) (binary_round prec emax false m2 e2) = true
  /\ SFleb (binary_round prec emax true m2 e2) (binary_round prec emax true m1 e1) = true.
Proof.
  intros H. rewrite !binary_round_pack. apply pack_le, round_key_le, H.
Qed.

(** What [binary_round] returns carries the sign it is given. *)
Lemma binary_round_sign (s : bool) (m : positive) (e : Z) :
  binary_round prec emax s m e = S754_zero s
  \/ binary_round prec emax s m e = S754_infinity s
  \/ exists M t, binary_round prec emax s m e = S754_finite s M t.
Proof.
  rewrite binary_round_pack. unfold pack.
  destruct (fst _) as [|p|p]; [auto | | auto].
  destruct (snd _ <=? 971); eauto.
Qed.

(** *** Signed values *)

Lemma SFleb_signs (x y : spec_float) :
  (x = S754_zero true \/ x = S754_zero false \/ x = S754_infinity true
   \/ exists m e, x = S754_finite true m e) ->
  (y = S754_zero true \/ y = S754_zero false \/ y = S754_infinity false
   \/ exists m e, y = S754_finite false m e) ->
  SFleb x y = true.
Proof.
  intros [->|[->|[->|(m & e & ->)]]] [->|[->|[->|(m' & e' & ->)]]]; reflexivity.
Qed.

Lemma binary_round_neg (m : positive) (e : Z) :
  let x := binary_round prec emax true m e in
  x = S754_zero true \/ x = S754_zero false \/ x = S754_infinity true
  \/ exists M t, x = S754_finite true M t.
Proof.
  cbv zeta. destruct (binary_round_sign true m e) as [H|[H|H]]; auto.
Qed.

Lemma binary_round_pos (m : positive) (e : Z) :
  let x := binary_round prec emax false m e in
  x = S754_zero true \/ x = S754_zero false \/ x = S754_infinity false
  \/ exists M t, x = S754_finite false M t.
Proof.
  cbv zeta. destruct (binary_round_sign false m e) as [H|[H|H]]; auto.
Qed.

(** Two signed values [z1 * 2^e1 <= z2 * 2^e2]. *)
Lemma dle_pow (z1 e1 z2 e2 k : Z) :
  k <= e1 -> k <= e2 ->
  (dle z1 e1 z2 e2 <-> z1 * 2 ^ (e1 - k) <= z2 * 2 ^ (e2 - k)).
Proof.
  intros H1 H2. unfold dle. set (k0 := Z.min e1 e2).
  assert (Hk : k <= k0) by (unfold k0; lia).
  assert (Hp : 0 < 2 ^ (k0 - k)) by (apply Z.pow_pos_nonneg; lia).
  replace (e1 - k) with (e1 - k0 + (k0 - k)) by lia.
  replace (e2 - k) with (e2 - k0 + (k0 - k)) by lia.
  rewrite !Z.pow_add_r by (unfold k0; lia).
  rewrite !Z.mul_assoc. split; intros H; nia.
Qed.

(** Rounding a signed value keeps the order. *)
Lemma binary_normalize_mono (z1 e1 z2 e2 : Z) :
  dle z1 e1 z2 e2 ->
  SFleb (binary_normalize prec emax z1 e1 false)
        (binary_normalize prec emax z2 e2 false) = true.
Proof.
  unfold dle. intros H.
  assert (Hp1 : 0 < 2 ^ (e1 - Z.min e1 e2)) by (apply Z.pow_pos_nonneg; lia).
  assert (Hp2 : 0 < 2 ^ (e2 - Z.min e1 e2)) by (apply Z.pow_pos_nonneg; lia).
  destruct z1 as [|p1|p1], z2 as [|p2|p2]; cbn [binary_normalize]; try nia.
  - reflexivity.
  - apply SFleb_signs; [auto | apply binary_round_pos].
  - apply (binary_round_mono p1 p2 e1 e2). exact H.
  - apply SFleb_signs; [apply binary_round_neg | auto].
  - apply SFleb_signs; [apply binary_round_neg | apply binary_round_pos].
  - apply (binary_round_mono p2 p1 e2 e1). unfold dle. rewrite (Z.min_comm e2 e1). nia.
Qed.

(** A value that is already a number of the format is not changed. *)
Lemma binary_round_valid (s : bool) (m : positive) (e : Z) :
  valid_binary (S754_finite s m e) = true ->
  binary_round prec emax s m e = S754_finite s m e.
Proof.
  cbn [SpecFloat.valid_binary]. unfold bounded, canonical_mantissa.
  intros H. apply andb_prop in H. destruct H as [Hc Hb].
  apply Z.eqb_eq in Hc. apply Z.leb_le in Hb. fold (dig m) in Hc.
  rewrite binary_round_pack, Hc. replace (e - e) with 0 by lia.
  unfold RN. cbn [Z.leb Z.compare Z.opp]. change (2 ^ 0) with 1. rewrite Z.mul_1_r.
  rewrite fexp_spec in Hc. pose proof (dig_spec m) as [H1 H2].
  assert (Hd : dig m <= 53) by lia.
  assert (Hlt : Z.pos m < 2 ^ 53).
  { assert (2 ^ dig m <= 2 ^ 53) by (apply Z.pow_le_mono_r; lia). lia. }
  unfold norm. destruct (Z.eqb_spec (Z.pos m) (2 ^ 53)) as [E|E]; [lia | ].
  unfold pack. cbn [fst snd].
  change (emax - prec) with 971 in Hb.
  replace (e <=? 971) with true by (symmetry; apply Z.leb_le; lia).
  reflexivity.
Qed.

Lemma valid_finite (s : bool) (m : positive) (e : Z) :
  valid_binary (S754_finite s m e) = true ->
  dig m <= 53 /\ -1074 <= e <= 971 /\ (-1074 < e -> dig m = 53).
Proof.
  cbn [SpecFloat.valid_binary]. unfold bounded, canonical_mantissa.
  intros H. apply andb_prop in H. destruct H as [Hc Hb].
  apply Z.eqb_eq in Hc. apply Z.leb_le in Hb. fold (dig m) in Hc.
  rewrite fexp_spec in Hc. change (emax - prec) with 971 in Hb. lia.
Qed.

(** The order of two numbers of the format is the order of their values. *)
Lemma SFleb_finite (s : bool) (m1 m2 : positive) (e1 e2 : Z) :
  valid_binary (S754_finite s m1 e1) = true ->
  valid_binary (S754_finite s m2 e2) = true ->
  SFleb (S754_finite s m1 e1) (S754_finite s m2 e2) = true ->
  if s then dle (Z.pos m2) e2 (Z.pos m1) e1 else dle (Z.pos m1) e1 (Z.pos m2) e2.
Proof.
  intros V1 V2. apply valid_finite in V1, V2.
  destruct V1 as (D1 & B1 & N1), V2 as (D2 & B2 & N2).
  pose proof (dig_spec m1) as [A1 A2]. pose proof (dig_spec m2) as [A3 A4].
  assert (U1 : Z.pos m1 < 2 ^ 53).
  { assert (2 ^ dig m1 <= 2 ^ 53) by (apply Z.pow_le_mono_r; lia). lia. }
  assert (U2 : Z.pos m2 < 2 ^ 53).
  { assert (2 ^ dig m2 <= 2 ^ 53) by (apply Z.pow_le_mono_r; lia). lia. }
  assert (Hbig : forall (ma mb : positive) (ea eb : Z),
             Z.pos ma < 2 ^ 53 -> 2 ^ 52 <= Z.pos mb -> ea < eb ->
             dle (Z.pos ma) ea (Z.pos mb) eb).
  { intros ma mb ea eb Ha Hb Hlt. unfold dle.
    replace (Z.min ea eb) with ea by lia. replace (ea - ea) with 0 by lia.
    change (2 ^ 0) with 1.
    assert (2 ^ 1 <= 2 ^ (eb - ea)) by (apply Z.pow_le_mono_r; lia).
    change (2 ^ 1) with 2 in *. change (2 ^ 53) with (2 * 2 ^ 52) in Ha. nia. }
  unfold SFleb. cbn [SFcompare].
  destruct s.
  - destruct (Z.compare_spec e1 e2) as [E|E|E]; try discriminate.
    + subst e2. rewrite Pos.compare_cont_spec. cbn [Pos.switch_Eq].
      destruct (Pos.compare_spec m1 m2) as [E'|E'|E']; cbn [CompOpp]; try discriminate;
        intros _; unfold dle; rewrite Z.min_id, Z.sub_diag; lia.
    + intros _. apply Hbig; [exact U2 | | lia].
      rewrite (N1 ltac:(lia)) in A1. exact A1.
  - destruct (Z.compare_spec e1 e2) as [E|E|E]; try discriminate.
    + subst e2. rewrite Pos.compare_cont_spec. cbn [Pos.switch_Eq].
      destruct (Pos.compare_spec m1 m2) as [E'|E'|E']; try discriminate;
        intros _; unfold dle; rewrite Z.min_id, Z.sub_diag; lia.
    + intros _. apply Hbig; [exact U1 | | lia].
      rewrite (N2 ltac:(lia)) in A3. exact A3.
Qed.

(** *** Multiplication and subtraction keep the order *)

(** The value of a zero or a finite number as a mantissa and an exponent;
    a zero is given the exponent [e0]. *)
Definition sv (e0 : Z) (x : spec_float) : Z * Z :=
  match x with
  | S754_finite s m e => (cond_Zopp s (Z.pos m), e)
  | _ => (0, e0)
  end.

Definition is_real (x : spec_float) : bool :=
  match x with
  | S754_zero _ | S754_finite _ _ _ => true
  | _ => false
  end.

Lemma SFleb_sv (e0 e0' : Z) (x y : spec_float) :
  valid_binary x = true -> valid_binary y = true ->
  is_real x = true -> is_real y = true ->
  SFleb x y = true ->
  dle (fst (sv e0 x)) (snd (sv e0 x)) (fst (sv e0' y)) (snd (sv e0' y)).
Proof.
  intros Vx Vy Rx Ry H.
  destruct x as [sx|sx| |sx mx ex]; try discriminate Rx;
    destruct y as [sy|sy| |sy my ey]; try discriminate Ry; cbn [sv fst snd].
  - unfold dle. lia.
  - destruct sy; [discriminate H | ]. unfold dle. cbn [cond_Zopp].
    assert (0 < 2 ^ (ey - Z.min e0 ey)) by (apply Z.pow_pos_nonneg; lia). nia.
  - destruct sx; [ | discriminate H]. unfold dle. cbn [cond_Zopp].
    assert (0 < 2 ^ (ex - Z.min ex e0')) by (apply Z.pow_pos_nonneg; lia). nia.
  - destruct sx, sy; cbn [cond_Zopp].
    + pose proof (SFleb_finite true mx my ex ey Vx Vy H) as Hd. cbn in Hd.
      unfold dle in *. rewrite (Z.min_comm ey ex) in Hd. lia.
    + unfold dle.
      assert (0 < 2 ^ (ex - Z.min ex ey)) by (apply Z.pow_pos_nonneg; lia).
      assert (0 < 2 ^ (ey - Z.min ex ey)) by (apply Z.pow_pos_nonneg; lia). nia.
    + discriminate H.
    + exact (SFleb_finite false mx my ex ey Vx Vy H).
Qed.

Lemma SFleb_zero_sign_l (s s' : bool) (r : spec_float) :
  SFleb (S754_zero s) r = SFleb (S754_zero s') r.
Proof. destruct r; reflexivity. Qed.

Lemma SFleb_zero_sign_r (s s' : bool) (r : spec_float) :
  SFleb r (S754_zero s) = SFleb r (S754_zero s').
Proof. destruct r; reflexivity. Qed.

Lemma SFleb_neg_infinity (r : spec_float) :
  r <> S754_nan -> SFleb (S754_infinity true) r = true.
Proof. destruct r as [s|[|]| |s m e]; intros H; try reflexivity; congruence. Qed.

Lemma SFleb_pos_infinity (r : spec_float) :
  r <> S754_nan -> SFleb r (S754_infinity false) = true.
Proof. destruct r as [s|[|]| |[|] m e]; intros H; try reflexivity; congruence. Qed.

Lemma dig_mul_lower (a b : positive) : dig a + dig b - 1 <= dig (a * b).
Proof.
  pose proof (dig_spec a) as [A1 A2]. pose proof (dig_spec b) as [B1 B2].
  pose proof (dig_spec (a * b)) as [C1 C2].
  pose proof (dig_pos a). pose proof (dig_pos b). pose proof (dig_pos (a * b)).
  assert (Hlow : 2 ^ (dig a - 1 + (dig b - 1)) <= Z.pos (a * b)).
  { rewrite Z.pow_add_r by lia. rewrite Pos2Z.inj_mul.
    apply Z.mul_le_mono_nonneg; try lia; apply Z.pow_nonneg; lia. }
  assert (Hlt : 2 ^ (dig a - 1 + (dig b - 1)) < 2 ^ dig (a * b)) by lia.
  apply Z.pow_lt_mono_r_iff in Hlt; lia.
Qed.

Lemma binary_round_aux_round (s : bool) (m : positive) (e : Z) :
  e <= fexp prec emax (dig m + e) ->
  binary_round_aux prec emax s (Z.pos m) e loc_Exact = binary_round prec emax s m e.
Proof.
  intros H. rewrite binary_round_aux_exact by exact H.
  rewrite binary_round_spec. reflexivity.
Qed.

(** The product of two finite numbers is their exact product, rounded. *)
Lemma SFmul_finite (sc sx : bool) (mc mx : positive) (ec ex : Z) :
  valid_binary (S754_finite sc mc ec) = true ->
  valid_binary (S754_finite sx mx ex) = true ->
  SFmul prec emax (S754_finite sc mc ec) (S754_finite sx mx ex)
  = binary_round prec emax (xorb sc sx) (mc * mx) (ec + ex).
Proof.
  intros Vc Vx. cbn [SFmul]. apply binary_round_aux_round.
  apply valid_finite in Vc, Vx.
  pose proof (dig_mul_lower mc mx). pose proof (dig_pos mc). pose proof (dig_pos mx).
  rewrite fexp_spec. lia.
Qed.

Lemma binary_round_normalize (s : bool) (m : positive) (e : Z) :
  binary_round prec emax s m e
  = binary_normalize prec emax (cond_Zopp s (Z.pos m)) e false.
Proof. destruct s; reflexivity. Qed.

(** Multiplying by a positive finite number keeps the order. *)
Lemma SFmul_mono (mc : positive) (ec : Z) (x y : spec_float) :
  valid_binary (S754_finite false mc ec) = true ->
  valid_binary x = true -> valid_binary y = true ->
  x <> S754_nan -> y <> S754_nan ->
  SFleb x y = true ->
  SFleb (SFmul prec emax (S754_finite false mc ec) x)
        (SFmul prec emax (S754_finite false mc ec) y) = true.
Proof.
  intros Vc Vx Vy Nx Ny H.
  assert (Hmul : forall r, valid_binary r = true -> is_real r = true ->
             exists s,
               SFleb (SFmul prec emax (S754_finite false mc ec) r)
               = SFleb (binary_normalize prec emax
                          (Z.pos mc * fst (sv 0 r)) (ec + snd (sv 0 r)) s)
               /\ (forall q, SFleb q (SFmul prec emax (S754_finite false mc ec) r)
                             = SFleb q (binary_normalize prec emax
                                          (Z.pos mc * fst (sv 0 r))
                                          (ec + snd (sv 0 r)) s))).
  { intros r Vr Rr. destruct r as [s|s| |s m e]; try discriminate Rr.
    - exists s. cbn [SFmul sv fst snd xorb]. rewrite Z.mul_0_r.
      cbn [binary_normalize]. split; [reflexivity | intros q; reflexivity].
    - exists false. rewrite SFmul_finite by assumption. cbn [xorb sv fst snd].
      rewrite binary_round_normalize.
      replace (Z.pos mc * cond_Zopp s (Z.pos m)) with (cond_Zopp s (Z.pos (mc * m)))
        by (destruct s; cbn [cond_Zopp]; lia).
      split; [reflexivity | intros q; reflexivity]. }
  assert (Hnn : forall r, valid_binary r = true -> r <> S754_nan ->
             SFmul prec emax (S754_finite false mc ec) r <> S754_nan).
  { intros r Vr Nr. destruct r as [s|s| |s m e];
      [cbn [SFmul]; discriminate | cbn [SFmul]; discriminate | congruence | ].
    rewrite SFmul_finite by assumption.
    destruct (binary_round_sign (xorb false s) (mc * m) (ec + e)) as [E|[E|(M & t & E)]];
      rewrite E; discriminate. }
  destruct (is_real x) eqn:Rx; [destruct (is_real y) eqn:Ry | ].
  - destruct (Hmul x Vx Rx) as (s1 & E1 & _). destruct (Hmul y Vy Ry) as (s2 & _ & E2).
    rewrite E2, E1.
    assert (Hd : dle (Z.pos mc * fst (sv 0 x)) (ec + snd (sv 0 x))
                     (Z.pos mc * fst (sv 0 y)) (ec + snd (sv 0 y))).
    { pose proof (SFleb_sv 0 0 x y Vx Vy Rx Ry H) as Hd. unfold dle in *.
      rewrite Z.add_min_distr_l.
      replace (ec + snd (sv 0 x) - (ec + Z.min (snd (sv 0 x)) (snd (sv 0 y))))
        with (snd (sv 0 x) - Z.min (snd (sv 0 x)) (snd (sv 0 y))) by lia.
      replace (ec + snd (sv 0 y) - (ec + Z.min (snd (sv 0 x)) (snd (sv 0 y))))
        with (snd (sv 0 y) - Z.min (snd (sv 0 x)) (snd (sv 0 y))) by lia.
      rewrite <- !Z.mul_assoc. apply Z.mul_le_mono_nonneg_l; [lia | exact Hd]. }
    pose proof (binary_normalize_mono _ _ _ _ Hd) as Hm.
    destruct (Z.pos mc * fst (sv 0 x)) as [|p|p] eqn:Ex;
      destruct (Z.pos mc * fst (sv 0 y)) as [|p'|p'] eqn:Ey;
      cbn [binary_normalize] in *; try exact Hm;
      try (rewrite (SFleb_zero_sign_l s1 false)); try (rewrite (SFleb_zero_sign_r s2 false));
      try exact Hm; reflexivity.
  - destruct y as [sy|sy| |sy my ey]; try discriminate Ry; [ | congruence].
    destruct sy.
    + destruct x as [sx|sx| |[|] mx ex]; cbn in H; try discriminate H;
        try discriminate Rx; congruence.
    + cbn [SFmul xorb]. apply SFleb_pos_infinity. apply Hnn; assumption.
  - destruct x as [sx|sx| |sx mx ex]; try discriminate Rx; [ | congruence].
    destruct sx.
    + cbn [SFmul xorb]. apply SFleb_neg_infinity. apply Hnn; assumption.
    + destruct y as [sy|[|]| |[|] my ey]; cbn in H; try discriminate H;
        try congruence; reflexivity.
Qed.

Lemma shl_align_fst (m : positive) (e ez : Z) :
  ez <= e -> Z.pos (fst (shl_align m e ez)) = Z.pos m * 2 ^ (e - ez).
Proof.
  intros H. unfold shl_align. destruct (ez - e) as [|p|p] eqn:E; try lia.
  - replace (e - ez) with 0 by lia. cbn [fst]. change (2 ^ 0) with 1. lia.
  - cbn [fst]. change (Pos.iter xO m p) with (shift_pos p m).
    rewrite shift_pos_correct, Z.pow_pos_fold.
    replace (e - ez) with (Z.pos p) by lia. lia.
Qed.

Lemma pow2_split (a b c : Z) : c <= b -> b <= a -> 2 ^ (a - b) * 2 ^ (b - c) = 2 ^ (a - c).
Proof.
  intros H1 H2. rewrite <- Z.pow_add_r by lia. f_equal. lia.
Qed.

(** The difference of a finite number and a zero or finite number is their
    exact difference, rounded. *)
Lemma SFsub_real (sc : bool) (mc : positive) (ec : Z) (x : spec_float) :
  valid_binary (S754_finite sc mc ec) = true ->
  is_real x = true ->
  SFsub prec emax (S754_finite sc mc ec) x
  = let k := Z.min ec (snd (sv ec x)) in
    binary_normalize prec emax
      (cond_Zopp sc (Z.pos mc) * 2 ^ (ec - k)
       - fst (sv ec x) * 2 ^ (snd (sv ec x) - k)) k false.
Proof.
  intros Vc Rx. cbv zeta. destruct x as [s|s| |s m e]; try discriminate Rx.
  - cbn [SFsub sv fst snd]. rewrite Z.min_id, Z.sub_diag. change (2 ^ 0) with 1.
    rewrite Z.mul_1_r, Z.mul_0_l, Z.sub_0_r.
    rewrite <- binary_round_normalize. symmetry. apply binary_round_valid, Vc.
  - cbn [SFsub sv fst snd].
    rewrite !shl_align_fst by lia.
    f_equal. destruct sc, s; cbn [cond_Zopp]; lia.
Qed.

Lemma SFsub_not_nan (sc : bool) (mc : positive) (ec : Z) (x : spec_float) :
  x <> S754_nan -> SFsub prec emax (S754_finite sc mc ec) x <> S754_nan.
Proof.
  intros H. destruct x as [s|s| |s m e]; cbn [SFsub]; try discriminate;
    [congruence | apply binary_normalize_not_nan].
Qed.

(** Subtracting from a finite number reverses the order. *)
Lemma SFsub_anti (sc : bool) (mc : positive) (ec : Z) (x y : spec_float) :
  valid_binary (S754_finite sc mc ec) = true ->
  valid_binary x = true -> valid_binary y = true ->
  x <> S754_nan -> y <> S754_nan ->
  SFleb x y = true ->
  SFleb (SFsub prec emax (S754_finite sc mc ec) y)
        (SFsub prec emax (S754_finite sc mc ec) x) = true.
Proof.
  intros Vc Vx Vy Nx Ny H.
  destruct (is_real x) eqn:Rx; [destruct (is_real y) eqn:Ry | ].
  - rewrite !SFsub_real by assumption. cbv zeta.
    apply binary_normalize_mono.
    pose proof (SFleb_sv ec ec x y Vx Vy Rx Ry H) as Hd.
    set (zx := fst (sv ec x)) in *. set (ex := snd (sv ec x)) in *.
    set (zy := fst (sv ec y)) in *. set (ey := snd (sv ec y)) in *.
    set (zc := cond_Zopp sc (Z.pos mc)).
    set (K := Z.min ec (Z.min ex ey)).
    apply (dle_pow _ _ _ _ K); [lia | lia | ].
    apply (dle_pow _ _ _ _ K) in Hd; [ | lia | lia].
    rewrite !Z.mul_sub_distr_r, <- !Z.mul_assoc.
    rewrite !pow2_split by lia. lia.
  - destruct y as [sy|sy| |sy my ey]; try discriminate Ry; [ | congruence].
    destruct sy.
    + destruct x as [sx|sx| |[|] mx ex]; cbn in H; try discriminate H;
        try discriminate Rx; congruence.
    + cbn [SFsub negb]. apply SFleb_neg_infinity. apply SFsub_not_nan. exact Nx.
  - destruct x as [sx|sx| |sx mx ex]; try discriminate Rx; [ | congruence].
    destruct sx.
    + cbn [SFsub negb]. apply SFleb_pos_infinity. apply SFsub_not_nan. exact Ny.
    + destruct y as [sy|[|]| |[|] my ey]; cbn in H; try discriminate H;
        try congruence; reflexivity.
Qed.

(** Multiplying by one changes nothing. *)
Lemma SFmul_one (x : spec_float) :
  valid_binary x = true ->
  SFmul prec emax x (S754_finite false 4503599627370496 (-52)) = x.
Proof.
  intros V. destruct x as [s|s| |s m e]; cbn [SFmul xorb];
    rewrite ?xorb_false_r; try reflexivity.
  pose proof (valid_finite s m e V) as (D & B & N).
  assert (E : binary_round_aux prec emax s (Z.pos (m * 4503599627370496))
                (e + -52) loc_Exact
              = binary_round prec emax s (m * 4503599627370496) (e + -52)).
  { apply binary_round_aux_round.
    assert (Hd : dig (m * 4503599627370496) = dig m + 52).
    { apply dig_mul_pow; [lia | ]. rewrite Pos2Z.inj_mul. reflexivity. }
    rewrite Hd, fexp_spec. pose proof (dig_pos m). lia. }
  rewrite E, binary_round_pack.
  assert (Hd : dig (m * 4503599627370496) = dig m + 52).
  { apply dig_mul_pow; [lia | ]. rewrite Pos2Z.inj_mul. reflexivity. }
  rewrite Hd.
  assert (Ht : fexp prec emax (dig m + 52 + (e + -52)) = e).
  { rewrite fexp_spec. lia. }
  rewrite Ht. replace (e - (e + -52)) with 52 by lia.
  rewrite Pos2Z.inj_mul. change (Z.pos 4503599627370496) with (2 ^ 52).
  rewrite RN_pow by lia. change (2 ^ (52 - 52)) with 1. rewrite Z.mul_1_r.
  pose proof (dig_spec m) as [H1 H2].
  assert (Hlt : Z.pos m < 2 ^ 53).
  { assert (2 ^ dig m <= 2 ^ 53) by (apply Z.pow_le_mono_r; lia). lia. }
  unfold norm. destruct (Z.eqb_spec (Z.pos m) (2 ^ 53)) as [E'|E']; [lia | ].
  unfold pack. cbn [fst snd].
  replace (e <=? 971) with true by (symmetry; apply Z.leb_le; lia).
  reflexivity.
Qed.

(** *** The operations of the fee formula *)

Lemma SFleb_trans (x y z : spec_float) :
  SFleb x y = true -> SFleb y z = true -> SFleb x z = true.
Proof.
  unfold SFleb.
  destruct x as [sx|sx| |sx mx ex], y as [sy|sy| |sy my ey], z as [sz|sz| |sz mz ez];
    cbn [SFcompare]; try discriminate; try reflexivity;
    try (destruct sx; discriminate); try (destruct sy; discriminate);
    try (destruct sz; discriminate);
    try (destruct sx, sy; discriminate); try (destruct sy, sz; discriminate);
    try (destruct sx, sz; discriminate || reflexivity);
    try (destruct sx, sy, sz; discriminate || reflexivity).
  destruct sx, sy, sz; try discriminate; try reflexivity;
    rewrite !Pos.compare_cont_spec; cbn [Pos.switch_Eq];
    destruct (Z.compare_spec ex ey), (Z.compare_spec ey ez), (Z.compare_spec ex ez);
    try discriminate; try reflexivity; try lia; subst;
    destruct (Pos.compare_spec mx my), (Pos.compare_spec my mz),
      (Pos.compare_spec mx mz);
    cbn [CompOpp]; try discriminate; try reflexivity; lia.
Qed.

Lemma leb_trans (x y z : float) :
  (x <=? y)%float = true -> (y <=? z)%float = true -> (x <=? z)%float = true.
Proof. rewrite !leb_spec. apply SFleb_trans. Qed.

Lemma leb_not_nan (x y : float) :
  (x <=? y)%float = true -> is_nan x = false /\ is_nan y = false.
Proof.
  rewrite leb_spec, !not_nan_spec. unfold SFleb.
  destruct (Prim2SF x), (Prim2SF y); cbn [SFcompare]; intros H;
    try discriminate H; split; discriminate.
Qed.

(** A number that is finite and above zero. *)
Lemma finite_positive (c : float) :
  (0 <? c)%float = true -> (c <? infinity)%float = true ->
  exists m e, Prim2SF c = S754_finite false m e.
Proof.
  rewrite !ltb_spec. change (Prim2SF 0) with (S754_zero false).
  change (Prim2SF infinity) with (S754_infinity false). unfold SFltb.
  destruct (Prim2SF c) as [s|[|]| |[|] m e]; cbn [SFcompare]; intros H1 H2;
    try discriminate H1; try discriminate H2. eauto.
Qed.

(** A positive finite factor keeps the order. *)
Lemma mul_mono (c x y : float) :
  (0 <? c)%float = true -> (c <? infinity)%float = true ->
  (x <=? y)%float = true -> (c * x <=? c * y)%float = true.
Proof.
  intros H0 Hf H. destruct (finite_positive c H0 Hf) as (m & e & Ec).
  destruct (leb_not_nan x y H) as [Nx Ny]. apply not_nan_spec in Nx, Ny.
  rewrite leb_spec in *. rewrite !mul_spec, Ec.
  apply SFmul_mono; try apply Prim2SF_valid; try assumption.
  rewrite <- Ec. apply Prim2SF_valid.
Qed.

(** Subtracting from a finite number reverses the order. *)
Lemma sub_anti (c x y : float) :
  (exists s m e, Prim2SF c = S754_finite s m e) ->
  (x <=? y)%float = true -> (c - y <=? c - x)%float = true.
Proof.
  intros (s & m & e & Ec) H.
  destruct (leb_not_nan x y H) as [Nx Ny]. apply not_nan_spec in Nx, Ny.
  rewrite leb_spec in *. rewrite !sub_spec, Ec.
  apply SFsub_anti; try apply Prim2SF_valid; try assumption.
  rewrite <- Ec. apply Prim2SF_valid.
Qed.

Lemma mul_one_r (x : float) : (x * 1)%float = x.
Proof.
  apply Prim2SF_inj. rewrite mul_spec.
  change (Prim2SF 1) with (S754_finite false 4503599627370496 (-52)).
  apply SFmul_one, Prim2SF_valid.
Qed.

Lemma abs_nonneg (x : float) : is_nan x = false -> (0 <=? abs x)%float = true.
Proof.
  intros H. apply not_nan_spec in H. rewrite leb_spec, abs_spec.
  change (Prim2SF 0) with (S754_zero false).
  destruct (Prim2SF x) as [s|s| |s m e]; try reflexivity. congruence.
Qed.

Lemma abs_not_nan (x : float) : is_nan (abs x) = false -> is_nan x = false.
Proof.
  rewrite !not_nan_spec, abs_spec. destruct (Prim2SF x); cbn [SFabs]; congruence.
Qed.

Lemma Math_max_not_nan (a b : float) :
  is_nan a = false -> is_nan b = false -> is_nan (Math_max a b) = false.
Proof.
  intros Ha Hb. unfold Math_max. rewrite Ha, Hb. cbn [orb].
  destruct (a <? b)%float; [exact Hb | ].
  destruct (b <? a)%float; [exact Ha | ].
  destruct (get_sign a); assumption.
Qed.

(** [Math.max] with a fixed second argument keeps the order. *)
Lemma Math_max_mono (a a' b : float) :
  is_nan b = false -> (a <=? a')%float = true ->
  (Math_max a b <=? Math_max a' b)%float = true.
Proof.
  intros Hb H. destruct (leb_not_nan a a' H) as [Na Na'].
  pose proof (Math_max_spec a b (Math_max_not_nan a b Na Hb)) as (_ & _ & Hc).
  pose proof (Math_max_spec a' b (Math_max_not_nan a' b Na' Hb)) as (H1 & H2 & _).
  destruct Hc as [E|E]; rewrite E.
  - exact (leb_trans a a' _ H H1).
  - exact H2.
Qed.

(** The adjusted fee never grows with the imbalance and never exceeds the
    base fee: for a base fee that is finite and above zero and a minimum
    that is a number, a pool difference of larger magnitude gives a fee
    that is not larger, and every fee lies between the minimum and the
    larger of the base fee and the minimum. *)
Theorem adjusted_fee_monotone (fc : FeeConfig) (d1 d2 : float) :
  (0 <? BASE_FEE fc)%float = true ->
  (BASE_FEE fc <? infinity)%float = true ->
  is_nan (MIN_BASE_FEE fc) = false ->
  (Math_abs d1 <=? Math_abs d2)%float = true ->
  (adjusted_base_fee fc d2 <=? adjusted_base_fee fc d1)%float = true
  /\ (MIN_BASE_FEE fc <=? adjusted_base_fee fc d2)%float = true
  /\ (adjusted_base_fee fc d1
        <=? Math_max (BASE_FEE fc) (MIN_BASE_FEE fc))%float = true.
Proof.
  intros H0 Hf Hmin H. unfold adjusted_base_fee, Math_abs in *.
  destruct (leb_not_nan _ _ H) as [N1 N2].
  assert (Htwo0 : (0 <? 2)%float = true) by reflexivity.
  assert (Htwof : (2 <? infinity)%float = true) by reflexivity.
  assert (Hone : exists s m e, Prim2SF 1 = S754_finite s m e).
  { exists false, 4503599627370496%positive, (-52). reflexivity. }
  assert (Hstep : forall a a' : float,
             (a <=? a')%float = true ->
             (BASE_FEE fc * (1 - 2 * a') <=? BASE_FEE fc * (1 - 2 * a))%float = true).
  { intros a a' Ha. apply mul_mono; [exact H0 | exact Hf | ].
    apply sub_anti; [exact Hone | ]. apply mul_mono; assumption. }
  split; [ | split].
  - apply Math_max_mono; [exact Hmin | ]. apply Hstep. exact H.
  - pose proof (Hstep _ _ H) as Hs. destruct (leb_not_nan _ _ Hs) as [Na _].
    exact (proj1 (proj2 (Math_max_spec _ _ (Math_max_not_nan _ _ Na Hmin)))).
  - replace (BASE_FEE fc) with (BASE_FEE fc * (1 - 2 * 0))%float at 2.
    + apply Math_max_mono; [exact Hmin | ]. apply Hstep.
      apply abs_nonneg, abs_not_nan, N1.
    + change (1 - 2 * 0)%float with 1%float. apply mul_one_r.
Qed.

Lemma adjusted_fee_monotone_witness :
  (adjusted_base_fee defaultFeeConfig (pool_diff CONFIG 1000 "HIVE")
     <=? adjusted_base_fee defaultFeeConfig (pool_diff CONFIG 100 "HIVE"))%float = true
  /\ (MIN_BASE_FEE defaultFeeConfig
        <=? adjusted_base_fee defaultFeeConfig (pool_diff CONFIG 1000 "HIVE"))%float = true
  /\ (adjusted_base_fee defaultFeeConfig (pool_diff CONFIG 100 "HIVE")
        <=? Math_max (BASE_FEE defaultFeeConfig) (MIN_BASE_FEE defaultFeeConfig))%float
     = true.
Proof.
  apply (adjusted_fee_monotone defaultFeeConfig
           (pool_diff CONFIG 100 "HIVE") (pool_diff CONFIG 1000 "HIVE"));
    reflexivity.
Defined.

Lemma SFmul_comm (x y : spec_float) : SFmul prec emax x y = SFmul prec emax y x.
Proof.
  destruct x as [sx|sx| |sx mx ex], y as [sy|sy| |sy my ey]; cbn [SFmul];
    try reflexivity; try (rewrite (xorb_comm sx sy); reflexivity).
  rewrite (xorb_comm sx sy), (Pos.mul_comm mx my), (Z.add_comm ex ey). reflexivity.
Qed.

Lemma mul_comm (x y : float) : (x * y)%float = (y * x)%float.
Proof. apply Prim2SF_inj. rewrite !mul_spec. apply SFmul_comm. Qed.

(** The price falls as the pool difference grows: for a positive finite
    [DIFF_COEFFICIENT] and a base price that is finite and not zero, a
    larger pool difference never gives a higher price, in either
    direction of the swap. *)
Theorem price_falls_with_diff (fc : FeeConfig) (d1 d2 : float) (fromToken : string) :
  (0 <? DIFF_COEFFICIENT fc)%float = true ->
  (DIFF_COEFFICIENT fc <? infinity)%float = true ->
  finite_nonzero (if String.eqb fromToken "HIVE"
                  then BASE_PRICE_HIVE_TO_SHIVE fc
                  else 1 / BASE_PRICE_HIVE_TO_SHIVE fc) = true ->
  (d1 <=? d2)%float = true ->
  (price fc d2 fromToken <=? price fc d1 fromToken)%float = true.
Proof.
  intros H0 Hf Hb H. unfold price.
  assert (Hstep : (2 * d1 * DIFF_COEFFICIENT fc
                     <=? 2 * d2 * DIFF_COEFFICIENT fc)%float = true).
  { rewrite (mul_comm (2 * d1)), (mul_comm (2 * d2)).
    apply mul_mono; [exact H0 | exact Hf | ].
    apply mul_mono; [reflexivity | reflexivity | exact H]. }
  unfold finite_nonzero in Hb.
  destruct (String.eqb fromToken "HIVE"); apply sub_anti; try exact Hstep.
  - destruct (Prim2SF (BASE_PRICE_HIVE_TO_SHIVE fc)) as [s|s| |s m e];
      try discriminate Hb. eauto.
  - destruct (Prim2SF (1 / BASE_PRICE_HIVE_TO_SHIVE fc)) as [s|s| |s m e];
      try discriminate Hb. eauto.
Qed.

Lemma price_falls_with_diff_witness :
  (price defaultFeeConfig (pool_diff CONFIG 1000 "SWAP.HIVE") "SWAP.HIVE"
     <=? price defaultFeeConfig (pool_diff CONFIG 100 "SWAP.HIVE") "SWAP.HIVE")%float
  = true.
Proof.
  apply (price_falls_with_diff defaultFeeConfig
           (pool_diff CONFIG 100 "SWAP.HIVE") (pool_diff CONFIG 1000 "SWAP.HIVE")
           "SWAP.HIVE"); reflexivity.
Defined.

(** ** js/market.js: market prices *)

Module MarketPrices.

(** The [prices] object and the [priceCache]. *)
Record Prices := {
  p_hive : float;
  p_hbd : float;
  p_vault : float;
  p_upme : float
}.

Record State := {
  prices : Prices;
  lastFetch : option Z
}.

Definition cacheDuration : Z := 15000.

(** A value in a condition. *)
Definition truthy (v : JS.any) : bool :=
  match v with
  | Prim PUndefined | Prim PNull => false
  | Prim (PBool b) => b
  | Prim (PNum x) => negb (is_nan x || (x =? 0)%float)
  | Prim (PStr s) => negb (String.eqb s "")
  | Prim (PBigInt z) => negb (z =? 0)%Z
  | Prim PSymbol => true
  | Object _ => true
  end.

(** [Utils.roundTo(value, 4)] on a value of any type: 0 for what is no
    number. *)
Definition rounded_price (v : JS.any) : float :=
  match v with
  | Prim (PNum x) => Utils.roundTo (Num x) 4
  | _ => 0%float
  end.

Section Fetch.

Variable E : Type.

(** [fetchHivePrice()] and [fetchHBDPrice()]: the new value of the price,
    [None] when it is left as it is.  [fn n] is what the [n]-th request
    yields: an error, or the [usd] field of the answer, of whatever type
    ([undefined] when the answer has none). *)
Definition fetchCoinPrice (fn : nat -> JS.any + E) : option float :=
  match Retry.result (Retry.retry fn 2 1000) with
  | inl usd => if truthy usd then Some (rounded_price usd) else None
  | inr _ => None
  end.

(** [fetchTokenPrice(symbol)], each row of the metrics given by its
    [lastPrice] field. *)
Definition fetchTokenPrice (hive : float) (fn : nat -> MarketManager.Reply E) : float :=
  match Retry.result (Retry.retry (fun n => MarketManager.queryHiveEngine (fn n)) 2 1000) with
  | inl (row :: _) =>
      let lastPrice := Utils.parseNumber row 0 in
      let hivePrice := if is_nan hive || (hive =? 0)%float then 0%float else hive in
      let usdPrice := Utils.safeMultiply lastPrice hivePrice in
      Utils.roundTo (Num usdPrice) 6
  | _ => 0%float
  end.

Definition cached (forceRefresh : bool) (now : Z) (st : State) : bool :=
  negb forceRefresh
  && match lastFetch st with
     | Some t => negb (t =? 0)%Z && (now - t <? cacheDuration)%Z
     | None => false
     end.

(** [fetchAllPrices(forceRefresh = false)] at time [now]: the two prices of
    CoinGecko first, then the two token prices, which read the HIVE price
    just stored.  The updates of the display are left out. *)
Definition fetchAllPrices (forceRefresh : bool) (now : Z) (st : State)
    (hive hbd : nat -> JS.any + E) (vault upme : nat -> MarketManager.Reply E)
  : State :=
  if cached forceRefresh now st then st
  else
    let p := prices st in
    let hive' := match fetchCoinPrice hive with Some x => x | None => p_hive p end in
    let hbd' := match fetchCoinPrice hbd with Some x => x | None => p_hbd p end in
    {| prices := {| p_hive := hive';
                    p_hbd := hbd';
                    p_vault := fetchTokenPrice hive' vault;
                    p_upme := fetchTokenPrice hive' upme |};
       lastFetch := Some now |}.

End Fetch.

Arguments fetchCoinPrice {E} _.
Arguments fetchTokenPrice {E} _ _.
Arguments fetchAllPrices {E} _ _ _ _ _ _ _.

End MarketPrices.

(** ** Properties of the market prices *)

Lemma roundTo_of_zero (x : float) (s : bool) (d : nat) :
  (d <= 308)%nat -> Prim2SF x = S754_zero s ->
  (Utils.roundTo (Num x) d =? 0)%float = true.
Proof.
  intros Hd H. unfold Utils.roundTo, isNaN.
  rewrite (Prim2SF_zero_not_nan x s H).
  pose proof (Math_pow10_finite d Hd) as Hm. unfold finite_nonzero in Hm.
  destruct (Prim2SF (Math_pow10 d)) as [s'|s'| |s' m e] eqn:Em; try discriminate Hm.
  assert (Hmul : Prim2SF (x * Math_pow10 d) = S754_zero (xorb s s')).
  { rewrite mul_spec, H, Em. reflexivity. }
  assert (Hround : Math_round (x * Math_pow10 d) = (x * Math_pow10 d)%float).
  { unfold Math_round. rewrite Hmul. reflexivity. }
  rewrite Hround. apply (Prim2SF_zero_eqb _ (xorb (xorb s s') s')).
  rewrite div_spec, Hmul, Em. reflexivity.
Qed.

Lemma fetchTokenPrice_facts {E : Type} (hive : float)
    (fn : nat -> MarketManager.Reply E) :
  is_nan (MarketPrices.fetchTokenPrice hive fn) = false
  /\ (is_nan hive || (hive =? 0)%float = true ->
      (MarketPrices.fetchTokenPrice hive fn =? 0)%float = true)
  /\ ((forall rows, Retry.result
                      (Retry.retry (fun n => MarketManager.queryHiveEngine (fn n)) 2 1000)
                    <> inl rows) ->
      MarketPrices.fetchTokenPrice hive fn = 0%float).
Proof.
  unfold MarketPrices.fetchTokenPrice.
  destruct (Retry.result
              (Retry.retry (fun n => MarketManager.queryHiveEngine (fn n)) 2 1000))
    as [[|row rest]|e].
  - repeat split.
  - split; [apply roundTo_not_nan; lia | split].
    + intros Hh. rewrite Hh.
      set (lastPrice := Utils.parseNumber row 0).
      unfold Utils.safeMultiply.
      destruct (mul_zero_l lastPrice) as [Hn|[s Hz]].
      * rewrite mul_comm. apply is_nan_spec in Hn.
        unfold Utils.roundTo at 2. unfold isNaN. rewrite Hn. reflexivity.
      * rewrite mul_comm.
        assert (Hr : (Utils.roundTo (Num (0 * lastPrice)) 8 =? 0)%float = true)
          by (apply (roundTo_of_zero _ s); [lia | exact Hz]).
        rewrite eqb_spec in Hr. change (Prim2SF 0) with (S754_zero false) in Hr.
        unfold SFeqb in Hr.
        destruct (Prim2SF (Utils.roundTo (Num (0 * lastPrice)) 8)) as [s0|s0| |s0 m0 e0] eqn:Er;
          try discriminate Hr; try (destruct s0; discriminate Hr).
        apply (roundTo_of_zero _ s0); [lia | exact Er].
    + intros H. exfalso. exact (H (row :: rest) eq_refl).
  - repeat split.
Qed.

(** What a refresh does to the price of HIVE or of HBD, [old] being the
    stored price and [new] the price afterwards: a request that fails (after
    its retry) leaves it, and so does an answer whose [usd] field is falsy
    (missing, [null], [false], zero, NaN or the empty text); any other
    answer overwrites it, a number with the number rounded to 4 decimal
    places and anything else with 0, and never with NaN. *)
Definition coin_rule {E : Type} (fn : nat -> JS.any + E) (old new : float) : Prop :=
  ((forall usd, Retry.result (Retry.retry fn 2 1000) <> inl usd) -> new = old)
  /\ (forall usd, Retry.result (Retry.retry fn 2 1000) = inl usd ->
      MarketPrices.truthy usd = false -> new = old)
  /\ (forall usd, Retry.result (Retry.retry fn 2 1000) = inl usd ->
      MarketPrices.truthy usd = true ->
      is_nan new = false
      /\ (forall x, usd = Prim (PNum x) -> new = Utils.roundTo (Num x) 4)
      /\ ((forall x, usd <> Prim (PNum x)) -> new = 0%float)).

(** What a refresh does to the price of a token, [hive] being the price of
    HIVE just stored: the new price is never NaN, it is 0 while the price
    of HIVE is unknown (0 or NaN), and it is 0 when the request fails (after
    its retry). *)
Definition token_rule {E : Type} (fn : nat -> Reply E) (hive new : float) : Prop :=
  is_nan new = false
  /\ (is_nan hive || (hive =? 0)%float = true -> (new =? 0)%float = true)
  /\ ((forall rows, Retry.result
                      (Retry.retry (fun n => queryHiveEngine (fn n)) 2 1000)
                    <> inl rows) ->
      new = 0%float).

Lemma fetchCoinPrice_rule {E : Type} (fn : nat -> JS.any + E) (old : float) :
  coin_rule fn old
    match MarketPrices.fetchCoinPrice fn with Some x => x | None => old end.
Proof.
  unfold coin_rule, MarketPrices.fetchCoinPrice.
  destruct (Retry.result (Retry.retry fn 2 1000)) as [usd|e].
  - split; [intros H; exfalso; exact (H usd eq_refl) | split ].
    + intros usd' H Ht. injection H as <-. rewrite Ht. reflexivity.
    + intros usd' H Ht. injection H as <-. rewrite Ht.
      unfold MarketPrices.rounded_price.
      destruct usd as [[ | |b|x|t|z| ]|o];
        try (split; [reflexivity
                    | split; [intros x Hx; discriminate Hx | reflexivity] ]).
      split; [apply roundTo_not_nan; lia | split ].
      * intros y Hy. injection Hy as <-. reflexivity.
      * intros H. exfalso. exact (H x eq_refl).
  - split; [reflexivity | split; intros usd H; discriminate H].
Qed.

(** A refresh of the market prices treats failures differently for the two
    kinds of price.  For HIVE and for HBD a failed request and an answer
    with a falsy [usd] field leave the stored price, and any other answer
    is stored, a number rounded to 4 decimal places and anything else as 0.  For VAULT and for UPME the stored price is
    overwritten in every case: with 0 when the request fails and while the
    price of HIVE is unknown (0 or NaN), and never with NaN.  Within the
    cache duration nothing is fetched or changed unless the refresh is
    forced. *)
Theorem fetchAllPrices_refresh
    {E : Type} (forceRefresh : bool) (now : Z) (st : MarketPrices.State)
    (hive hbd : nat -> JS.any + E) (vault upme : nat -> Reply E) :
  let st' := MarketPrices.fetchAllPrices forceRefresh now st hive hbd vault upme in
  let p := MarketPrices.prices st in
  let p' := MarketPrices.prices st' in
  if MarketPrices.cached forceRefresh now st then st' = st
  else
    MarketPrices.lastFetch st' = Some now
    /\ coin_rule hive (MarketPrices.p_hive p) (MarketPrices.p_hive p')
    /\ coin_rule hbd (MarketPrices.p_hbd p) (MarketPrices.p_hbd p')
    /\ token_rule vault (MarketPrices.p_hive p') (MarketPrices.p_vault p')
    /\ token_rule upme (MarketPrices.p_hive p') (MarketPrices.p_upme p').
Proof.
  cbv zeta. unfold MarketPrices.fetchAllPrices.
  destruct (MarketPrices.cached forceRefresh now st); [reflexivity | ].
  cbn [MarketPrices.prices MarketPrices.lastFetch MarketPrices.p_hive
       MarketPrices.p_hbd MarketPrices.p_vault MarketPrices.p_upme].
  split; [reflexivity | ].
  split; [apply fetchCoinPrice_rule | ].
  split; [apply fetchCoinPrice_rule | ].
  split; apply fetchTokenPrice_facts.
Qed.

(** * The quote against the pricing algorithm of the specification *)

Local Open Scope Z_scope.

(** ** The integer operations of the specification and of the engine *)

Lemma pack_opp (r : Z * Z) : pack true r = SFopp (pack false r).
Proof.
  unfold pack. destruct (fst r); [reflexivity | | reflexivity].
  destruct (snd r <=? 971); reflexivity.
Qed.

Lemma integer_of_Z (z : Z) : - 2 ^ 63 < z < 2 ^ 63 -> Spec.integer z = of_Z z.
Proof.
  intros Hz.
  assert (Hpos : forall n, 0 <= n < 2 ^ 63 -> of_uint63 (Uint63.of_Z n) = of_Z n).
  { intros n Hn. unfold of_Z. rewrite <- (SF2Prim_Prim2SF (of_uint63 _)).
    rewrite of_uint63_spec, Uint63.of_Z_spec.
    change Uint63.wB with (2 ^ 63). rewrite Z.mod_small by exact Hn. reflexivity. }
  unfold Spec.integer. destruct (Z.leb_spec 0 z) as [H0|H0].
  - apply Hpos. lia.
  - rewrite Hpos by lia. destruct z as [|p|p]; try lia.
    change (- Z.neg p) with (Z.pos p). unfold of_Z.
    apply Prim2SF_inj. rewrite opp_spec.
    assert (Hv : Prim2SF (SF2Prim (binary_normalize prec emax (Z.pos p) 0 false))
                 = binary_normalize prec emax (Z.pos p) 0 false).
    { apply Prim2SF_SF2Prim.
      rewrite <- (Z.mod_small (Z.pos p) (2 ^ 63)) by lia.
      change (2 ^ 63) with Uint63.wB. rewrite <- Uint63.of_Z_spec, <- of_uint63_spec.
      apply Prim2SF_valid. }
    rewrite Hv.
    change (binary_normalize prec emax (Z.pos p) 0 false)
      with (binary_round prec emax false p 0).
    change (binary_normalize prec emax (Z.neg p) 0 false)
      with (binary_round prec emax true p 0).
    rewrite !binary_round_pack, <- pack_opp.
    rewrite <- binary_round_pack.
    symmetry. apply Prim2SF_SF2Prim.
    rewrite binary_round_pack, pack_opp, <- binary_round_pack.
    change (binary_round prec emax false p 0)
      with (binary_normalize prec emax (Z.pos p) 0 false).
    rewrite <- Hv, <- opp_spec. apply Prim2SF_valid.
Qed.

Lemma mantissa_bound (x : float) (s : bool) (m : positive) (e : Z) :
  Prim2SF x = S754_finite s m e -> Z.pos m < 2 ^ 53.
Proof.
  intros H. pose proof (Prim2SF_valid x) as Hv. rewrite H in Hv.
  destruct (valid_finite s m e Hv) as (Hd & _).
  pose proof (dig_spec m) as [_ Hm].
  apply (Z.lt_le_trans _ _ _ Hm). apply Z.pow_le_mono_r; lia.
Qed.

Lemma denominator_spec (e : Z) :
  Spec.denominator e = if 0 <=? e then 1 else 2 ^ (- e).
Proof.
  unfold Spec.denominator. destruct (Z.leb_spec 0 e).
  - rewrite Z.max_r by lia. reflexivity.
  - rewrite Z.max_l by lia. reflexivity.
Qed.

Lemma numerator_spec (s : bool) (m : positive) (e : Z) :
  e < 0 -> Spec.numerator s m e = signed s m.
Proof.
  intros He. unfold Spec.numerator, signed. rewrite Z.max_r by lia.
  destruct s; cbn [cond_Zopp]; lia.
Qed.

Lemma denominator_not_one (e : Z) : e < 0 -> (Spec.denominator e =? 1) = false.
Proof.
  intros He. rewrite denominator_spec.
  destruct (Z.leb_spec 0 e); [lia | ].
  apply Z.eqb_neq.
  assert (2 ^ 1 <= 2 ^ (- e)) by (apply Z.pow_le_mono_r; lia).
  change (2 ^ 1) with 2 in *. lia.
Qed.


(** [Math.round] is the nearest integer of the specification, but for the
    sign of a zero: a negative number that rounds to zero gives -0. *)
Lemma Math_round_spec (x : float) :
  Math_round x = Spec.nearest x
  \/ (Math_round x = neg_zero /\ Spec.nearest x = zero).
Proof.
  unfold Math_round, Spec.nearest.
  destruct (Prim2SF x) as [s|s| |s m e] eqn:Ex; try (left; reflexivity).
  destruct (Z.leb_spec 0 e) as [He|He].
  - left. rewrite denominator_spec. destruct (Z.leb_spec 0 e); [reflexivity | lia].
  - rewrite (denominator_not_one e He), (numerator_spec s m e He).
    rewrite denominator_spec. destruct (Z.leb_spec 0 e); [lia | ].
    rewrite Z.shiftr_div_pow2 by lia.
    replace (2 ^ (- e + 1)) with (2 * 2 ^ (- e))
      by (rewrite Z.pow_add_r by lia; change (2 ^ 1) with 2; lia).
    set (q := (2 * signed s m + 2 ^ (- e)) / (2 * 2 ^ (- e))).
    destruct (Z.eqb_spec q 0) as [Hq|Hq].
    + rewrite Hq. destruct s; [right; split; reflexivity | left; reflexivity].
    + left. symmetry. apply integer_of_Z.
      pose proof (mantissa_bound x s m e Ex) as Hm.
      assert (Hp : 0 < 2 ^ (- e)) by (apply Z.pow_pos_nonneg; lia).
      assert (Habs : - Z.pos m <= signed s m <= Z.pos m).
      { unfold signed. destruct s; cbn [cond_Zopp]; lia. }
      assert (- Z.pos m <= q <= Z.pos m + 1).
      { subst q. split.
        - apply Z.div_le_lower_bound; [lia | ]. nia.
        - apply Z.div_le_upper_bound; [lia | ]. nia. }
      lia.
Qed.

(** The integer that [nearest] yields is the nearest one, and the upper one
    of two that are equally near: it is within one half of the exact value,
    the lower end included. *)
Lemma nearest_is_nearest (x : float) (s : bool) (m : positive) (e : Z) :
  Prim2SF x = S754_finite s m e -> e < 0 ->
  exists n : Z,
    Spec.nearest x = Spec.integer n
    /\ (2 * n - 1) * Spec.denominator e <= 2 * Spec.numerator s m e
       < (2 * n + 1) * Spec.denominator e.
Proof.
  intros Ex He. unfold Spec.nearest. rewrite Ex, (denominator_not_one e He).
  eexists. split; [reflexivity | ].
  set (num := Spec.numerator s m e). set (den := Spec.denominator e).
  assert (Hden : 0 < den).
  { subst den. unfold Spec.denominator. apply Z.pow_pos_nonneg; lia. }
  pose proof (Z.div_mod (2 * num + den) (2 * den) ltac:(lia)) as Hdm.
  pose proof (Z.mod_pos_bound (2 * num + den) (2 * den) ltac:(lia)) as Hmod.
  nia.
Qed.

Local Open Scope float_scope.

(** ** The magnitude and the maximum *)









Lemma eqb_same (x : float) : is_nan x = false -> (x =? x) = true.
Proof.
  unfold is_nan. destruct (x =? x); [reflexivity | discriminate].
Qed.

(** ** Rounding and flooring to decimal places *)

(** [roundTo] on a number is the rounding of the specification, as a
    number: the two are equal, or the one is -0 and the other 0. *)
Lemma roundTo_spec (x : float) (d : nat) :
  is_nan x = false ->
  Math_pow10 d = Spec.integer (10 ^ Z.of_nat d) ->
  Utils.roundTo (Num x) d = Spec.rounded x d
  \/ (Utils.roundTo (Num x) d = neg_zero / Math_pow10 d
      /\ Spec.rounded x d = zero / Math_pow10 d).
Proof.
  intros Hx Hd. unfold Utils.roundTo, Spec.rounded, isNaN. rewrite Hx, <- Hd.
  destruct (Math_round_spec (x * Math_pow10 d)) as [-> | [-> ->]];
    [left; reflexivity | right; split; reflexivity].
Qed.

Lemma pow10_8 : Math_pow10 8 = Spec.integer (10 ^ Z.of_nat 8).
Proof. vm_compute. reflexivity. Qed.

Lemma pow10_3 : Math_pow10 3 = Spec.integer (10 ^ Z.of_nat 3).
Proof. vm_compute. reflexivity. Qed.

Lemma isPositiveNumber_number (a : float) :
  Utils.isPositiveNumber (Num a) = true -> is_nan a = false.
Proof.
  unfold Utils.isPositiveNumber, Utils.parseNumber, isNaN.
  destruct (is_nan a) eqn:E; [ | reflexivity ].
  vm_compute. discriminate.
Qed.

(** ** C1: the quote follows the pricing algorithm *)






(** ** C2: how the minimum to receive is rounded *)

(** C2, amended.  For every quote produced by [updateSwapCalculation], the
    minimum to receive is, as a number, the expected output times
    [1 - slippage/100], rounded to 8 decimal places and then rounded, not
    floored, to 3; it is 0 when that product is NaN.  Rounding to [d]
    decimal places scales the number by [10^d], takes the integer nearest
    to the scaled number, the upper one of two that are equally near, and
    scales back; flooring takes the largest integer not above it.  For 100
    HIVE at 0.3 percent the rounding gives 99.5. *)
Theorem minReceive_is_rounded
    (cfg : Config) (fc : FeeConfig) (amount slippage : JS.value)
    (fromToken toToken : string) :
  let q := updateSwapCalculation cfg fc amount fromToken toToken slippage in
  let product := expected q * (1 - SwapManager.slippage q / 100) in
  (is_nan product = false ->
   (minReceive q =? Spec.minReceive_rounded (expected q) (SwapManager.slippage q))
   = true)
  /\ (is_nan product = true -> minReceive q = 0)
  /\ (forall (x : float) (s : bool) (m : positive) (e : Z),
        Prim2SF x = S754_finite s m e -> (e < 0)%Z ->
        exists n k : Z,
          Spec.nearest x = Spec.integer n
          /\ ((2 * n - 1) * Spec.denominator e <= 2 * Spec.numerator s m e
              < (2 * n + 1) * Spec.denominator e)%Z
          /\ Spec.floor x = Spec.integer k
          /\ (k * Spec.denominator e <= Spec.numerator s m e
              < (k + 1) * Spec.denominator e)%Z)
  /\ Spec.minReceive_rounded (expected quote_100_slippage_03)
       (SwapManager.slippage quote_100_slippage_03) = 99.5.
Proof.
  cbv zeta.
  change (minReceive (updateSwapCalculation cfg fc amount fromToken toToken slippage))
    with (Utils.roundTo
            (Num (Utils.roundTo
                    (Num (expected
                            (updateSwapCalculation cfg fc amount fromToken toToken
                               slippage)
                          * (1 - SwapManager.slippage
                                   (updateSwapCalculation cfg fc amount fromToken
                                      toToken slippage) / 100))) 8)) 3).
  set (q := updateSwapCalculation cfg fc amount fromToken toToken slippage).
  set (product := expected q * (1 - SwapManager.slippage q / 100)).
  split; [ | split; [ | split ] ].
  - intros Hn. unfold Spec.minReceive_rounded. fold product.
    assert (H8 : is_nan (Utils.roundTo (Num product) 8) = false)
      by (apply roundTo_not_nan; lia).
    destruct (roundTo_spec product 8 Hn pow10_8) as [E | [E1 E2]].
    + rewrite <- E.
      destruct (roundTo_spec _ 3 H8 pow10_3) as [<- | [-> ->]].
      * apply eqb_same, roundTo_not_nan. lia.
      * vm_compute. reflexivity.
    + rewrite E1, E2. vm_compute. reflexivity.
  - intros Hn. unfold Utils.roundTo at 2. unfold isNaN. rewrite Hn.
    vm_compute. reflexivity.
  - intros x s m e Ex He.
    destruct (nearest_is_nearest x s m e Ex He) as (n & Hn & Hb).
    exists n, (Spec.numerator s m e / Spec.denominator e)%Z.
    split; [exact Hn | split; [exact Hb | split ] ].
    + unfold Spec.floor. rewrite Ex, (denominator_not_one e He). reflexivity.
    + assert (Hden : (0 < Spec.denominator e)%Z).
      { unfold Spec.denominator. apply Z.pow_pos_nonneg; lia. }
      pose proof (Z.div_mod (Spec.numerator s m e) (Spec.denominator e)
                    ltac:(lia)) as Hdm.
      pose proof (Z.mod_pos_bound (Spec.numerator s m e) (Spec.denominator e) Hden).
      nia.
  - vm_compute. reflexivity.
Qed.

(** ** C4: the adjusted fee and the pool imbalance *)

(** C4, amended.  For a base fee that is finite and above zero and a minimum
    that is a number, the adjusted fee that [calculateFee] uses is at least
    the minimum for every amount whose pool difference ratio is a number,
    and it varies against the imbalance: of two amounts, the one with the
    smaller [|diff|] has the fee that is not smaller. *)
Theorem adjusted_fee_against_imbalance
    (cfg : Config) (fc : FeeConfig) (a1 a2 : float) (fromToken : string) :
  (0 <? BASE_FEE fc) = true ->
  (BASE_FEE fc <? infinity) = true ->
  is_nan (MIN_BASE_FEE fc) = false ->
  (is_nan (pool_diff cfg a1 fromToken) = false ->
   (MIN_BASE_FEE fc <=? fee_of cfg fc a1 fromToken) = true)
  /\ ((Math_abs (pool_diff cfg a1 fromToken)
         <=? Math_abs (pool_diff cfg a2 fromToken)) = true ->
      (fee_of cfg fc a2 fromToken <=? fee_of cfg fc a1 fromToken) = true).
Proof.
  intros H0 Hf Hmin. unfold fee_of, adjusted_base_fee, Math_abs.
  assert (Hone : exists s m e, Prim2SF 1 = S754_finite s m e).
  { exists false, 4503599627370496%positive, (-52)%Z. reflexivity. }
  assert (Hstep : forall a a' : float,
             (a <=? a') = true ->
             (BASE_FEE fc * (1 - 2 * a') <=? BASE_FEE fc * (1 - 2 * a)) = true).
  { intros a a' Ha. apply mul_mono; [exact H0 | exact Hf | ].
    apply sub_anti; [exact Hone | ]. apply mul_mono; [reflexivity .. | exact Ha]. }
  split.
  - intros Hd.
    assert (Hle : (abs (pool_diff cfg a1 fromToken)
                     <=? abs (pool_diff cfg a1 fromToken)) = true).
    { rewrite leb_spec. unfold SFleb. rewrite SFcompare_refl; [reflexivity | ].
      rewrite abs_spec. apply not_nan_spec in Hd.
      destruct (Prim2SF (pool_diff cfg a1 fromToken)); cbn; congruence. }
    pose proof (Hstep _ _ Hle) as Hs. destruct (leb_not_nan _ _ Hs) as [Na _].
    exact (proj1 (proj2 (Math_max_spec _ _ (Math_max_not_nan _ _ Na Hmin)))).
  - intros H. apply Math_max_mono; [exact Hmin | ]. apply Hstep. exact H.
Qed.

Lemma adjusted_fee_against_imbalance_witness :
  (is_nan (pool_diff CONFIG 100 "HIVE") = false ->
   (MIN_BASE_FEE defaultFeeConfig <=? fee_of CONFIG defaultFeeConfig 100 "HIVE") = true)
  /\ ((Math_abs (pool_diff CONFIG 100 "HIVE")
         <=? Math_abs (pool_diff CONFIG 1000 "HIVE")) = true ->
      (fee_of CONFIG defaultFeeConfig 1000 "HIVE"
         <=? fee_of CONFIG defaultFeeConfig 100 "HIVE") = true).
Proof.
  apply (adjusted_fee_against_imbalance CONFIG defaultFeeConfig 100 1000 "HIVE");
    reflexivity.
Defined.
